(** * goethe_booking_bot: a shallow embedding of the booking watcher

    The Python program drives a browser through Playwright.  The browser, the
    clock, the random generator and the file system are outside the program:
    they are modelled as a [World] that answers every primitive call, either
    with a value or with a raised exception.  The program's own functions are
    translated one by one into a monad that threads the world, collects the
    primitive calls in a trace, and propagates exceptions the way Python
    does.  [while True] loops take a fuel argument; running out of fuel is a
    separate outcome, [Diverged], that no handler can catch.

    [_log] only writes a line to stdout and to the log file and never changes
    control flow; its calls are left out of the embedding. *)

From Stdlib Require Import ZArith QArith Qpower Lia Lqa Ascii String.
From Corelib Require PrimFloat FloatOps SpecFloat.
From stdpp Require Import base option list strings gmap.

Local Open Scope Z_scope.

(** ** Python floats

    Finite, non-negative binary64 values, written [mant * 2 ^ expo].  Results
    of arithmetic are rounded to nearest, ties to even, on a 53 bit
    significand with the subnormal exponent floor [-1074].  The exponent is
    not bounded from above: overflow to infinity is not modelled, and every
    operand of the program lies below [2 ^ 10]. *)
Module Binary64.

Record float : Type := Float { mant : Z; expo : Z }.

Definition prec : Z := 53.
Definition emin : Z := -1074.

Definition valid (x : float) : Prop :=
  0 <= mant x < 2 ^ prec /\ emin <= expo x.

(** [2 ^ e] as a rational, for any integer [e]. *)
Definition pow2 (e : Z) : Q := Qpower (2 # 1) e.

Definition value (x : float) : Q := (inject_Z (mant x) * pow2 (expo x))%Q.

(** The rational [n / d], for [0 < d]. *)
Definition frac (n d : Z) : Q := Qmake n (Z.to_pos d).

(** The largest binary64 value below 1. *)
Definition below_one : float := Float (2 ^ prec - 1) (- prec).

(** The value as the kernel's binary64 numbers decompose it, to compare the
    model with the hardware arithmetic on samples. *)
Definition to_spec (x : float) : SpecFloat.spec_float :=
  match mant x with
  | Zpos m => SpecFloat.S754_finite false m (expo x)
  | _ => SpecFloat.S754_zero false
  end.

(** The fraction [(n / d) * 2 ^ k] as a numerator and a denominator. *)
Definition scale2 (n d k : Z) : Z * Z :=
  if 0 <=? k then (n * 2 ^ k, d) else (n, d * 2 ^ (- k)).

(** [floor (log2 (n / d))] for positive [n] and [d]. *)
Definition floor_log2 (n d : Z) : Z :=
  let g := Z.log2 n - Z.log2 d in
  let '(n', d') := scale2 n d (- g) in
  if d' <=? n' then g else g - 1.

(** Nearest integer to [n / d], ties to even. *)
Definition rne (n d : Z) : Z :=
  let q := n / d in
  match 2 * (n mod d) ?= d with
  | Lt => q
  | Gt => q + 1
  | Eq => if Z.even q then q else q + 1
  end.

(** The exponent of the binary64 values around [n / d]: 52 below its
    binade, and never below the subnormal floor. *)
Definition rounding_exponent (n d : Z) : Z :=
  Z.max (floor_log2 n d - (prec - 1)) emin.

(** The binary64 value nearest to [n / d], for [0 <= n] and [0 < d]. *)
Definition round (n d : Z) : float :=
  if n =? 0 then Float 0 emin
  else
    let e := rounding_exponent n d in
    let '(n', d') := scale2 n d (- e) in
    let m := rne n' d' in
    if m =? 2 ^ prec then Float (2 ^ (prec - 1)) (e + 1) else Float m e.

(** [float(n)] for a Python int [n >= 0]. *)
Definition of_int (n : Z) : float := round n 1.

Definition mul (x y : float) : float :=
  let '(n, d) := scale2 (mant x * mant y) 1 (expo x + expo y) in
  round n d.

Definition add (x y : float) : float :=
  let e := Z.min (expo x) (expo y) in
  let n := mant x * 2 ^ (expo x - e) + mant y * 2 ^ (expo y - e) in
  let '(n', d') := scale2 n 1 e in
  round n' d'.

(** [x / y]; Python raises ZeroDivisionError when [y] is zero, which no
    caller in this program can trigger (the divisor is the literal 1000). *)
Definition div (x y : float) : float :=
  let '(n, d) := scale2 (mant x) (mant y) (expo x - expo y) in
  round n d.

End Binary64.

Local Open Scope string_scope.
Local Open Scope list_scope.

(** ** Data model *)

Record Student : Type := mkStudent {
  email : string;
  password : string;
  phone : string;
  first_name : string;
  surname : string;
  county : string;
  dob : string;
  place_of_birth : string;
  zip_code : string
}.

Definition EMBED_EMAIL := "dummy@example.com".
Definition EMBED_PASSWORD := "DummyPass123!".
Definition EMBED_PHONE := "+254700000000".
Definition EMBED_FIRST_NAME := "Test".
Definition EMBED_SURNAME := "User".
Definition EMBED_COUNTY := "Nairobi".
Definition EMBED_DOB := "2000-01-01".
Definition EMBED_PLACE_OF_BIRTH := "Nairobi".
Definition EMBED_ZIP := "00100".

Definition DUMMY_STUDENT : Student :=
  {| email := EMBED_EMAIL;
     password := EMBED_PASSWORD;
     phone := EMBED_PHONE;
     first_name := EMBED_FIRST_NAME;
     surname := EMBED_SURNAME;
     county := EMBED_COUNTY;
     dob := EMBED_DOB;
     place_of_birth := EMBED_PLACE_OF_BIRTH;
     zip_code := EMBED_ZIP |}.

(** ** Config *)

Definition START_URL := "https://www.goethe.de/ins/ke/en/spr/prf/gzb2.cfm".
Definition MAX_REFRESH_MS : Z := 800.
Definition STEP_WAIT_MS : Z := 200.
Definition DEFAULT_TIMEOUT : Z := 5000.
Definition ALARM_BEEP_FREQ : Z := 950.
Definition ALARM_BEEP_DURATION_MS : Z := 2000.
Definition ALARM_REPEAT_SEC : Z := 60.

Definition TXT_SELECT_MODULES := "select modules".
Definition TXT_CONTINUE := "continue".
Definition TXT_BOOK_FOR_MYSELF := "book for myself".
Definition TXT_LOGIN := "log in".
Definition TXT_ORDER_SUBJECT_TO_CHANGE := "order, subject to change".
Definition TXT_CONFIRMATION := "You will receive email confirmation of your booking.".
Definition TXT_PRIVACY_ACCEPT := "accept all".
Definition TXT_PRIVACY_DENY := "deny".
Definition TXT_PRIVACY_SETTINGS := "settings".

(** ** Exceptions and outcomes *)

Inductive exn : Type :=
| PlaywrightTimeoutError
| Exception (what : string)       (* any other subclass of Exception *)
| BaseException (what : string).  (* CancelledError, KeyboardInterrupt, ... *)

(** What [except Exception] catches. *)
Definition is_Exception (e : exn) : bool :=
  match e with
  | BaseException _ => false
  | _ => true
  end.

(** What a primitive call answers. *)
Inductive answer (R : Type) : Type :=
| Ok (r : R)
| Err (e : exn).
Arguments Ok {R} r.
Arguments Err {R} e.

(** How a computation of the program ends. *)
Inductive outcome (A : Type) : Type :=
| Returned (a : A)
| Raised (e : exn)
| Diverged.
Arguments Returned {A} a.
Arguments Raised {A} e.
Arguments Diverged {A}.

(** ** The browser interface

    Browsers, contexts, pages and element handles are opaque identifiers
    handed out by the world.  A locator is a lazy description of how to find
    an element, as in Playwright. *)

Definition browser := nat.
Definition context := nat.
Definition page := nat.
Definition element := nat.

(** [re.compile(re.escape(text), re.I)]: the regular expression that matches
    [literal] as it is written, ignoring case when [ignorecase] is set. *)
Record pattern : Type := Pattern { literal : string; ignorecase : bool }.

Inductive locator : Type :=
| ByRole (p : page) (role : string) (name : pattern)
| ByText (p : page) (text : pattern).

(** [_safe_click] receives locators and element handles alike. *)
Inductive target : Type :=
| Loc (l : locator)
| Elem (el : element).

(** The page script of [_install_doubleclick_stop], as the fragment of
    JavaScript it is written in: [document.addEventListener(type, () => { if
    (window.name) { window.name(); } }, { once })]. *)
Inductive js_stmt : Type :=
| IfDefinedCall (name : string).

Record js_listener : Type := Listener {
  event_type : string;
  body : list js_stmt;
  once : bool
}.

Inductive js_script : Type :=
| AddEventListener (l : js_listener).

(** What [csv.DictReader] yields for a file that could be opened: the rows
    read, and the exception that ended the iteration early, if any. *)
Record csv_reader : Type := CsvReader {
  rows : list (gmap string string);
  failure : option exn
}.

(** The primitive calls.  [Beep] is [asyncio.to_thread(_alarm_beep, ...)] and
    [WaitStop] is [asyncio.wait_for(self._stop.wait(), timeout)] on a flag
    that is not set yet; both are awaits of the alarm task, and their answer
    is the number of times the page invoked the exposed binding meanwhile. *)
Inductive op : Type -> Type :=
| Launch (headless : bool) : op browser
| NewContext (b : browser) (width height : Z) : op context
| NewPage (c : context) : op page
| CloseContext (c : context) : op unit
| CloseBrowser (b : browser) : op unit
| Goto (p : page) (url wait_until : string) : op unit
| Reload (p : page) (wait_until : string) : op unit
| GetByRole (p : page) (role : string) (name : pattern) : op unit
| GetByText (p : page) (text : pattern) : op unit
| WaitFor (l : locator) (state : string) (timeout : Z) : op unit
| QuerySelector (p : page) (selector : string) : op (option element)
| QuerySelectorAll (p : page) (selector : string) : op (list element)
| GetAttribute (el : element) (name : string) : op (option string)
| ScrollIntoViewIfNeeded (t : target) : op unit
| Click (t : target) : op unit
| Fill (el : element) (value : string) : op unit
| SelectOption (el : element) (label : string) : op unit
| Evaluate (el : element) (expression : string) : op string
| ExposeBinding (p : page) (name : string) : op unit
| AddInitScript (p : page) (script : js_script) : op unit
| Sleep (seconds : Binary64.float) : op unit
| Random : op Binary64.float
| Beep (freq duration_ms : Z) : op nat
| WaitStop (timeout : Z) : op nat
| StartPlaywright : op unit
| StopPlaywright : op unit
| OpenCsv (path : string) : op csv_reader
| GetEnv (name : string) : op (option string).

(** One entry of the trace: a primitive call and what the world answered. *)
Inductive event : Type :=
| Ev {R : Type} (o : op R) (a : answer R).

Class World (W : Type) : Type :=
  perform : forall R : Type, op R -> W -> answer R * W.
Arguments perform {W _ R} o w.

(** ** The monad of the program *)

Definition M (W A : Type) : Type := W -> outcome A * W * list event.

Section Monad.
Context {W : Type} `{World W}.

Definition ret {A} (a : A) : M W A := fun w => (Returned a, w, []).

Definition bind {A B} (c : M W A) (k : A -> M W B) : M W B :=
  fun w =>
    match c w with
    | (Returned a, w1, t1) =>
        let '(o, w2, t2) := k a w1 in (o, w2, t1 ++ t2)
    | (Raised e, w1, t1) => (Raised e, w1, t1)
    | (Diverged, w1, t1) => (Diverged, w1, t1)
    end.

Definition raise {A} (e : exn) : M W A := fun w => (Raised e, w, []).

(** A [while True] that has used up its fuel. *)
Definition diverge {A} : M W A := fun w => (Diverged, w, []).

Definition call {R} (o : op R) : M W R :=
  fun w =>
    let '(a, w') := perform o w in
    (match a with Ok r => Returned r | Err e => Raised e end, w', [Ev o a]).

(** [try: c  except Exception as e: h e] *)
Definition try_except {A} (c : M W A) (h : exn -> M W A) : M W A :=
  fun w =>
    match c w with
    | (Raised e, w1, t1) =>
        if is_Exception e
        then let '(o, w2, t2) := h e w1 in (o, w2, t1 ++ t2)
        else (Raised e, w1, t1)
    | r => r
    end.

(** [try: c  finally: f] *)
Definition try_finally {A} (c : M W A) (f : M W unit) : M W A :=
  fun w =>
    match c w with
    | (Returned a, w1, t1) =>
        match f w1 with
        | (Returned _, w2, t2) => (Returned a, w2, t1 ++ t2)
        | (Raised e', w2, t2) => (Raised e', w2, t1 ++ t2)
        | (Diverged, w2, t2) => (Diverged, w2, t1 ++ t2)
        end
    | (Raised e, w1, t1) =>
        match f w1 with
        | (Returned _, w2, t2) => (Raised e, w2, t1 ++ t2)
        | (Raised e', w2, t2) => (Raised e', w2, t1 ++ t2)
        | (Diverged, w2, t2) => (Diverged, w2, t1 ++ t2)
        end
    | (Diverged, w1, t1) => (Diverged, w1, t1)
    end.

(** [with contextlib.suppress(Exception): c] *)
Definition suppress (c : M W unit) : M W unit :=
  try_except c (fun _ => ret tt).

End Monad.

Declare Scope py_scope.
Delimit Scope py_scope with py.
Notation "x <- c ;; k" := (bind c (fun x => k))
  (at level 100, c at next level, right associativity) : py_scope.
Notation "c ;; k" := (bind c (fun _ => k))
  (at level 100, right associativity) : py_scope.
Local Open Scope py_scope.

(** ** Strings as Python uses them here *)

Definition is_space (c : ascii) : bool :=
  let n := nat_of_ascii c in
  ((9 <=? n)%nat && (n <=? 13)%nat) || ((28 <=? n)%nat && (n <=? 32)%nat).

Fixpoint lstrip (s : string) : string :=
  match s with
  | String c s' => if is_space c then lstrip s' else s
  | EmptyString => EmptyString
  end.

Fixpoint rstrip (s : string) : string :=
  match s with
  | String c s' =>
      match rstrip s' with
      | EmptyString => if is_space c then EmptyString else String c EmptyString
      | r => String c r
      end
  | EmptyString => EmptyString
  end.

(** [s.strip()] *)
Definition strip (s : string) : string := rstrip (lstrip s).

(** Truthiness of a Python string: [if t]. *)
Definition nonempty (s : string) : bool :=
  match s with
  | EmptyString => false
  | _ => true
  end.

(** [s.lower()], on ASCII letters; other bytes are left as they are. *)
Definition lower_ascii (c : ascii) : ascii :=
  let n := nat_of_ascii c in
  if ((65 <=? n)%nat && (n <=? 90)%nat) then ascii_of_nat (n + 32) else c.

Fixpoint lower (s : string) : string :=
  match s with
  | String c s' => String (lower_ascii c) (lower s')
  | EmptyString => EmptyString
  end.

(** [needle in hay] *)
Fixpoint contains (needle hay : string) : bool :=
  if String.prefix needle hay then true
  else
    match hay with
    | String _ hay' => contains needle hay'
    | EmptyString => false
    end.

(** ** The page side of the double-click handler

    A document keeps its event listeners; dispatching an event runs the
    listeners registered for its type and drops those registered with
    [once].  Running a listener body yields the bindings it invokes, which
    are the ones defined on [window]. *)
Record document : Type := Document { listeners : list js_listener }.

Definition eval_script (s : js_script) (d : document) : document :=
  match s with
  | AddEventListener l => Document (listeners d ++ [l])
  end.

Definition run_stmt (window : list string) (s : js_stmt) : list string :=
  match s with
  | IfDefinedCall name => if existsb (String.eqb name) window then [name] else []
  end.

Definition run_listener (window : list string) (l : js_listener) : list string :=
  concat (map (run_stmt window) (body l)).

Definition listens (type : string) (l : js_listener) : bool :=
  String.eqb (event_type l) type.

(** The bindings invoked by one event, and the document afterwards. *)
Definition dispatch (window : list string) (type : string) (d : document)
  : list string * document :=
  (concat (map (run_listener window) (List.filter (listens type) (listeners d))),
   Document (List.filter (fun l => negb (listens type l && once l)) (listeners d))).

(** The bindings invoked by [n] events of one type in a row. *)
Fixpoint dispatch_many (window : list string) (type : string) (n : nat) (d : document)
  : list string * document :=
  match n with
  | O => ([], d)
  | S n' =>
      let '(calls, d') := dispatch window type d in
      let '(calls', d'') := dispatch_many window type n' d' in
      (calls ++ calls', d'')
  end.

Definition STOP_BINDING := "__goetheStopAlarm".

Definition doubleclick_stop_script : js_script :=
  AddEventListener
    {| event_type := "dblclick";
       body := [IfDefinedCall STOP_BINDING];
       once := true |}.

(** ** Alarm controller

    [_stop] is the asyncio.Event; [_task] is [None], a task that was created
    and not awaited yet, or a task that is done. *)
Inductive task : Type :=
| Pending
| Done.

Record AlarmController : Type := Alarm { _stop : bool; _task : option task }.

Definition new_alarm : AlarmController := Alarm false None.

Definition stop (a : AlarmController) : AlarmController :=
  Alarm true (_task a).

(** [_stop_alarm_binding], run once for each time the page invoked it. *)
Definition deliver (n : nat) (a : AlarmController) : AlarmController :=
  Nat.iter n stop a.

Definition start (a : AlarmController) : AlarmController :=
  match _task a with
  | None | Some Done => Alarm false (Some Pending)
  | Some Pending => a
  end.

(** [Student.from_row] *)
Definition from_row (row : gmap string string) : Student :=
  {| email := default "" (row !! "email");
     password := default "" (row !! "password");
     phone := default "" (row !! "phone");
     first_name := default "" (row !! "first_name");
     surname := default "" (row !! "surname");
     county := default "" (row !! "county");
     dob := default "" (row !! "dob");
     place_of_birth := default "" (row !! "place_of_birth");
     zip_code := default "" (row !! "zip_code") |}.

(** ** Small async helpers *)

(** [random.uniform(a, b)] is [a + (b - a) * random()], on the draw [r]. *)
Definition uniform (a b : Z) (r : Binary64.float) : Binary64.float :=
  Binary64.add (Binary64.of_int a) (Binary64.mul (Binary64.of_int (b - a)) r).

Section Hardware.
Import PrimFloat.

(** [random.uniform(0, MAX_REFRESH_MS) / 1000] on the kernel's binary64
    numbers, for the draw [r]. *)
Definition hardware_delay (r : PrimFloat.float) : SpecFloat.spec_float :=
  FloatOps.Prim2SF ((0 + (800 - 0) * r) / 1000)%float.

End Hardware.

(** The delay [_rand_refresh_delay] computes from the generator's draw. *)
Definition refresh_delay_of (r : Binary64.float) : Binary64.float :=
  Binary64.div (uniform 0 MAX_REFRESH_MS r) (Binary64.of_int 1000).

(** [f"{name} {placeholder} {aria}"], each attribute read as
    [(await inp.get_attribute(...) or "").lower()]. *)
Definition match_txt (name placeholder aria : option string) : string :=
  String.append (lower (default "" name))
    (String.append " "
       (String.append (lower (default "" placeholder))
          (String.append " " (lower (default "" aria))))).

Definition TAG_NAME_JS := "el => el.tagName.toLowerCase()".

(** The candidate selectors and labels of [_login]. *)
Definition email_selectors : list string :=
  ["input[type=email]"; "#email"; "input[name=email]"].

Definition pw_selectors : list string :=
  ["input[type=password]"; "#password"; "input[name=password]"].

Definition login_texts : list string :=
  [TXT_LOGIN; "login"; "sign in"; "log-in"].

Section Bot.
Context {W : Type} `{World W}.
#[local] Abbreviation M := (M W).

Definition short_wait (ms : Z) : M unit :=
  call (Sleep (Binary64.div (Binary64.of_int ms) (Binary64.of_int 1000))).

Definition _rand_refresh_delay : M Binary64.float :=
  r <- call Random ;;
  ret (refresh_delay_of r).

Definition _safe_click (el : target) : M unit :=
  suppress (call (ScrollIntoViewIfNeeded el)) ;;
  call (Click el).

Definition get_by_role (p : page) (role : string) (name : pattern) : M locator :=
  call (GetByRole p role name) ;;
  ret (ByRole p role name).

Definition get_by_text (p : page) (text : pattern) : M locator :=
  call (GetByText p text) ;;
  ret (ByText p text).

Definition _find_by_text (p : page) (text : string) : M locator :=
  let pattern := Pattern (strip text) true in
  try_except (get_by_role p "button" pattern)
             (fun _ => get_by_text p pattern).

Fixpoint _first_visible (p : page) (candidates : list (option locator))
  : M (option locator) :=
  match candidates with
  | [] => ret None
  | None :: rest => _first_visible p rest
  | Some c :: rest =>
      seen <- try_except
                (call (WaitFor c "visible" DEFAULT_TIMEOUT) ;; ret true)
                (fun _ => ret false) ;;
      if seen then ret (Some c) else _first_visible p rest
  end.

(** [[await _find_by_text(page, t) for t in texts if t]] *)
Fixpoint find_each_text (p : page) (texts : list string)
  : M (list (option locator)) :=
  match texts with
  | [] => ret []
  | t :: rest =>
      if nonempty t
      then c <- _find_by_text p t ;;
           cs <- find_each_text p rest ;;
           ret (Some c :: cs)
      else find_each_text p rest
  end.

Definition _try_click_text (p : page) (texts : list string) : M bool :=
  cands <- find_each_text p texts ;;
  el <- _first_visible p cands ;;
  match el with
  | None => ret false
  | Some el =>
      _safe_click (Loc el) ;;
      short_wait STEP_WAIT_MS ;;
      ret true
  end.

(** ** Privacy banner *)

Definition _handle_privacy_popup (p : page) (email : string) : M unit :=
  try_except
    (accepted <- _try_click_text p [TXT_PRIVACY_ACCEPT; "accept"; "accept all"] ;;
     if accepted then short_wait STEP_WAIT_MS
     else
       denied <- _try_click_text p [TXT_PRIVACY_DENY; "deny"] ;;
       if denied then short_wait STEP_WAIT_MS
       else
         settings <- _try_click_text p [TXT_PRIVACY_SETTINGS; "settings"] ;;
         if settings then short_wait STEP_WAIT_MS
         else ret tt)
    (fun _ => ret tt).

(** ** Start / restart *)

Definition _goto_start (p : page) (email : string) : M unit :=
  call (Goto p START_URL "domcontentloaded") ;;
  short_wait STEP_WAIT_MS ;;
  _handle_privacy_popup p email.

(** ** Booking open detection *)

Fixpoint first_enabled (buttons : list element) : M (option element) :=
  match buttons with
  | [] => ret None
  | b :: rest =>
      enabled <- try_except
                   (d <- call (GetAttribute b "disabled") ;;
                    ret (bool_decide (d = None)))
                   (fun _ => ret false) ;;
      if enabled then ret (Some b) else first_enabled rest
  end.

Definition _find_enabled_exam_button (p : page) : M (option element) :=
  buttons <- call (QuerySelectorAll p ".pr-buttons button") ;;
  first_enabled buttons.

(** Step 1 of the loop body: the explicit SELECT MODULES text.  [true] is
    the [return] inside the [try]; [false] is falling out of it. *)
Definition poll_select_modules (p : page) : M bool :=
  try_except
    (el <- _find_by_text p TXT_SELECT_MODULES ;;
     call (WaitFor el "visible" DEFAULT_TIMEOUT) ;;
     _safe_click (Loc el) ;;
     short_wait STEP_WAIT_MS ;;
     ret true)
    (fun _ => ret false).

(** Step 2 of the loop body: the enabled exam button fallback. *)
Definition poll_exam_button (p : page) : M bool :=
  try_except
    (exam_btn <- _find_enabled_exam_button p ;;
     match exam_btn with
     | Some b =>
         _safe_click (Elem b) ;;
         short_wait STEP_WAIT_MS ;;
         ret true
     | None => ret false
     end)
    (fun _ => ret false).

Fixpoint _poll_until_select_modules (fuel : nat) (p : page) (email : string)
  : M unit :=
  match fuel with
  | O => diverge
  | S fuel' =>
      (* 1. explicit SELECT MODULES text *)
      clicked <- poll_select_modules p ;;
      if clicked then ret tt
      else
        (* 2. enabled exam button fallback *)
        clicked <- poll_exam_button p ;;
        if clicked then ret tt
        else
          (* 3. reload *)
          delay <- _rand_refresh_delay ;;
          call (Sleep delay) ;;
          reloaded <- try_except
                        (call (Reload p "domcontentloaded") ;; ret true)
                        (fun _ => ret false) ;;
          if reloaded
          then short_wait STEP_WAIT_MS ;;
               _handle_privacy_popup p email ;;
               _poll_until_select_modules fuel' p email
          else _poll_until_select_modules fuel' p email
  end.

(** ** Step advance wrapper *)

Definition _advance_or_restart (p : page) (texts : list string) (email : string)
  : M bool :=
  ok <- _try_click_text p texts ;;
  if ok then ret true
  else
    _goto_start p email ;;
    ret false.

(** ** Login *)

(** The two [for sel in ...] loops of [_login]: fill the first field a
    selector finds, and tell whether one was filled. *)
Fixpoint fill_first (p : page) (selectors : list string) (value : string)
  : M bool :=
  match selectors with
  | [] => ret false
  | sel :: rest =>
      filled <- try_except
                  (f <- call (QuerySelector p sel) ;;
                   match f with
                   | Some f => call (Fill f value) ;; ret true
                   | None => ret false
                   end)
                  (fun _ => ret false) ;;
      if filled then ret true else fill_first p rest value
  end.

(** [if filled and await _try_click_text(...)]: the test, the body of the
    [if] and what follows it. *)
Definition login_submit (p : page) (student : Student) (filled : bool) : M bool :=
  ok <- (if filled then _try_click_text p login_texts else ret false) ;;
  if ok
  then short_wait STEP_WAIT_MS ;; ret true
  else _goto_start p (email student) ;; ret false.

Definition _login (p : page) (student : Student) : M bool :=
  filled <- fill_first p email_selectors (email student) ;;
  fill_first p pw_selectors (password student) ;;
  login_submit p student filled.

(** ** Personal details *)

Definition mapping (student : Student) : list (string * string) :=
  [ ("phone", phone student);
    ("first", first_name student);
    ("given", first_name student);
    ("sur", surname student);
    ("last", surname student);
    ("county", county student);
    ("birth", place_of_birth student);
    ("zip", zip_code student);
    ("post", zip_code student);
    ("date", dob student);
    ("dob", dob student) ].

(** [[(k.lower(), v) for k, v in mapping if v]] *)
Definition lower_map (student : Student) : list (string * string) :=
  map (fun kv => (lower (fst kv), snd kv))
      (List.filter (fun kv => nonempty (snd kv)) (mapping student)).

(** [for key, val in lower_map: if key in match_txt: ...; break] *)
Fixpoint fill_by_keyword (inp : element) (match_txt : string)
  (pairs : list (string * string)) : M unit :=
  match pairs with
  | [] => ret tt
  | (key, val) :: rest =>
      if contains key match_txt
      then
        tag <- call (Evaluate inp TAG_NAME_JS) ;;
        if bool_decide (tag = "select")
        then call (SelectOption inp val)
        else call (Fill inp val)
      else fill_by_keyword inp match_txt rest
  end.

Definition fill_input (student : Student) (inp : element) : M unit :=
  try_except
    (name <- call (GetAttribute inp "name") ;;
     placeholder <- call (GetAttribute inp "placeholder") ;;
     aria <- call (GetAttribute inp "aria-label") ;;
     fill_by_keyword inp (match_txt name placeholder aria) (lower_map student))
    (fun _ => ret tt).

Fixpoint fill_inputs (student : Student) (inputs : list element) : M unit :=
  match inputs with
  | [] => ret tt
  | inp :: rest => fill_input student inp ;; fill_inputs student rest
  end.

Definition _fill_personal_form (p : page) (student : Student) : M bool :=
  inputs <- call (QuerySelectorAll p "input,select,textarea") ;;
  fill_inputs student inputs ;;
  ok <- _try_click_text p [TXT_CONTINUE] ;;
  if ok then ret true
  else
    _goto_start p (email student) ;;
    ret false.

(** ** Alarm controller *)

Definition _beep_once : M nat :=
  call (Beep ALARM_BEEP_FREQ ALARM_BEEP_DURATION_MS).

(** [while not self._stop.is_set(): ...]; the fuel counts the rounds. *)
Fixpoint _run (fuel : nat) (a : AlarmController) : M AlarmController :=
  if _stop a then ret a
  else
    match fuel with
    | O => diverge
    | S fuel' =>
        n <- _beep_once ;;
        let a := deliver n a in
        a <- (if _stop a then ret a
              else n' <- call (WaitStop ALARM_REPEAT_SEC) ;;
                   ret (deliver n' a)) ;;
        _run fuel' a
    end.

Definition wait_stopped (fuel : nat) (a : AlarmController) : M AlarmController :=
  match _task a with
  | Some Pending =>
      a' <- _run fuel a ;;
      ret (Alarm (_stop a') (Some Done))
  | _ => ret a
  end.

Definition _install_doubleclick_stop (p : page) (a : AlarmController) (email : string)
  : M unit :=
  call (ExposeBinding p STOP_BINDING) ;;
  call (AddInitScript p doubleclick_stop_script).

(** ** Main booking flow (per student) *)

Definition run_booking (fuel : nat) (p : page) (student : Student) : M bool :=
  let email := email student in
  _goto_start p email ;;
  _poll_until_select_modules fuel p email ;;
  ok <- _advance_or_restart p [TXT_CONTINUE] email ;;
  if negb ok then ret false else
  ok <- _advance_or_restart p [TXT_BOOK_FOR_MYSELF] email ;;
  if negb ok then ret false else
  ok <- _login p student ;;
  if negb ok then ret false else
  ok <- _fill_personal_form p student ;;
  if negb ok then ret false else
  ok <- _advance_or_restart p [TXT_CONTINUE] email ;;
  if negb ok then ret false else
  ok <- _advance_or_restart p [TXT_ORDER_SUBJECT_TO_CHANGE] email ;;
  if negb ok then ret false else
  (* Confirmation page *)
  visible <- try_except
               (conf <- _find_by_text p TXT_CONFIRMATION ;;
                call (WaitFor conf "visible" 30000) ;;
                ret true)
               (fun _ => ret false) ;;
  if negb visible then _goto_start p email ;; ret false else
  (* Alarm until double-click *)
  let alarm := new_alarm in
  _install_doubleclick_stop p alarm email ;;
  let alarm := start alarm in
  wait_stopped fuel alarm ;;
  ret true.

(** ** Browser orchestration *)

Definition _new_context (b : browser) : M context :=
  call (NewContext b 1280 800).

Definition _run_for_student (fuel : nat) (b : browser) (headed : bool)
  (student : Student) : M bool :=
  ctx <- _new_context b ;;
  p <- call (NewPage ctx) ;;
  ok <- try_finally (run_booking fuel p student) (call (CloseContext ctx)) ;;
  ret ok.

(** [for s in students: ...; results.append((s.email, ok))] *)
Fixpoint run_students (fuel : nat) (b : browser) (headless : bool)
  (students : list Student) (results : list (string * bool))
  : M (list (string * bool)) :=
  match students with
  | [] => ret results
  | s :: rest =>
      ok <- _run_for_student fuel b (negb headless) s ;;
      run_students fuel b headless rest (results ++ [(email s, ok)])
  end.

Definition main_async (fuel : nat) (headless : bool) (students : list Student)
  : M (list (string * bool)) :=
  call StartPlaywright ;;
  try_finally
    (b <- call (Launch headless) ;;
     results <- run_students fuel b headless students [] ;;
     call (CloseBrowser b) ;;
     ret results)
    (call StopPlaywright).

(** ** Data loading *)

Definition load_students_from_csv (path : option string) : M (list Student) :=
  match path with
  | None => ret [DUMMY_STUDENT]
  | Some path =>
      if negb (nonempty path) then ret [DUMMY_STUDENT]
      else
        (* the rows appended before a read error stay in [students] *)
        students <- try_except
                      (reader <- call (OpenCsv path) ;;
                       let students := map from_row (rows reader) in
                       match failure reader with
                       | None => ret students
                       | Some e =>
                           if is_Exception e then ret students else raise e
                       end)
                      (fun _ => ret []) ;;
        ret (match students with
             | [] => [DUMMY_STUDENT]
             | _ => students
             end)
  end.

(** [os.getenv(name, fallback)] *)
Definition getenv (name fallback : string) : M string :=
  v <- call (GetEnv name) ;;
  ret (default fallback v).

Definition student_from_env : M Student :=
  email <- getenv "GOETHE_EMAIL" EMBED_EMAIL ;;
  password <- getenv "GOETHE_PASSWORD" EMBED_PASSWORD ;;
  phone <- getenv "GOETHE_PHONE" EMBED_PHONE ;;
  first_name <- getenv "GOETHE_FIRST_NAME" EMBED_FIRST_NAME ;;
  surname <- getenv "GOETHE_SURNAME" EMBED_SURNAME ;;
  county <- getenv "GOETHE_COUNTY" EMBED_COUNTY ;;
  dob <- getenv "GOETHE_DOB" EMBED_DOB ;;
  place_of_birth <- getenv "GOETHE_PLACE_OF_BIRTH" EMBED_PLACE_OF_BIRTH ;;
  zip_code <- getenv "GOETHE_ZIP" EMBED_ZIP ;;
  ret (mkStudent email password phone first_name surname county dob
         place_of_birth zip_code).

Definition build_students (ignore_env env_only : bool) (csv_path : option string)
  : M (list Student) :=
  if ignore_env
  then (if env_only then ret [DUMMY_STUDENT] else load_students_from_csv csv_path)
  else (if env_only
        then s <- student_from_env ;; ret [s]
        else load_students_from_csv csv_path).

End Bot.

(** ** Reasoning about runs

    [sat c Q] says that in every world, the outcome of [c] and the trace it
    leaves satisfy [Q]. *)

Definition of_answer {R} (a : answer R) : outcome R :=
  match a with
  | Ok r => Returned r
  | Err e => Raised e
  end.

Definition sat {W A} (c : M W A) (Q : outcome A -> list event -> Prop) : Prop :=
  forall w, Q (c w).1.1 (c w).2.

(** ** Reading the sequencer

    The steps of [run_booking] between the poll loop and the confirmation
    page, and a way to run them that stops with [False] at the first step
    that returns [False]: this is how [run_booking] is written, one [if not
    await ...: return False] after the other. *)

Definition sequencer_steps {W} `{World W} (p : page) (student : Student)
  : list (M W bool) :=
  [ _advance_or_restart p [TXT_CONTINUE] (email student);
    _advance_or_restart p [TXT_BOOK_FOR_MYSELF] (email student);
    _login p student;
    _fill_personal_form p student;
    _advance_or_restart p [TXT_CONTINUE] (email student);
    _advance_or_restart p [TXT_ORDER_SUBJECT_TO_CHANGE] (email student) ].

Fixpoint run_steps {W} (steps : list (M W bool)) (then_ : M W bool) : M W bool :=
  match steps with
  | [] => then_
  | step :: rest =>
      ok <- step ;;
      if negb ok then ret false else run_steps rest then_
  end.

(** The steps of a list all return [True], one after the other, from world
    [w] to world [w'], leaving the trace [t]. *)
Inductive all_succeed {W} : list (M W bool) -> W -> W -> list event -> Prop :=
| succeed_nil (w : W) : all_succeed [] w w []
| succeed_cons (step : M W bool) (rest : list (M W bool))
    (w w1 w2 : W) (t1 t2 : list event) :
    step w = (Returned true, w1, t1) ->
    all_succeed rest w1 w2 t2 ->
    all_succeed (step :: rest) w w2 (t1 ++ t2).

(** ** Reading traces *)

Definition is_reload (e : event) : bool :=
  match e with
  | Ev (Reload _ _) _ => true
  | _ => false
  end.

(** How many times a run asked the page to reload. *)
Fixpoint reloads (t : list event) : nat :=
  match t with
  | [] => 0%nat
  | e :: t' => ((if is_reload e then 1 else 0) + reloads t')%nat
  end.

(** The calls of the alarm and of the double-click handler. *)
Definition is_alarm (e : event) : bool :=
  match e with
  | Ev (Beep _ _) _ => true
  | Ev (WaitStop _) _ => true
  | Ev (ExposeBinding _ _) _ => true
  | Ev (AddInitScript _ _) _ => true
  | _ => false
  end.

(** How many reloads, alarm calls and handler calls a run made: none, for
    the helpers that act on one page as it is. *)
Fixpoint noise (t : list event) : nat :=
  match t with
  | [] => 0%nat
  | e :: t' => ((if is_reload e || is_alarm e then 1 else 0) + noise t')%nat
  end.

Definition short_wait_done : event :=
  Ev (Sleep (Binary64.div (Binary64.of_int STEP_WAIT_MS) (Binary64.of_int 1000))) (Ok tt).

(** The locators [_find_by_text p text] may produce. *)
Definition finds (p : page) (text : string) (l : locator) : Prop :=
  l = ByRole p "button" (Pattern (strip text) true) \/
  l = ByText p (Pattern (strip text) true).

(** The trace ends with a control labelled by one of [texts] found visible
    and clicked, and the short wait after the click. *)
Definition clicked_text (p : page) (texts : list string) (t : list event) : Prop :=
  exists pre text l scrolled,
    In text texts /\
    finds p text l /\
    t = pre ++ [Ev (WaitFor l "visible" DEFAULT_TIMEOUT) (Ok tt);
                Ev (ScrollIntoViewIfNeeded (Loc l)) scrolled;
                Ev (Click (Loc l)) (Ok tt);
                short_wait_done].

(** The trace ends with the primary control found visible and clicked. *)
Definition clicked_select_modules (p : page) (t : list event) : Prop :=
  clicked_text p [TXT_SELECT_MODULES] t.

(** The trace ends with a button of the container found without the
    [disabled] attribute and clicked. *)
Definition clicked_enabled_button (p : page) (t : list event) : Prop :=
  exists pre buttons skipped b scrolled,
    In b buttons /\
    t = pre ++ Ev (QuerySelectorAll p ".pr-buttons button") (Ok buttons) :: skipped ++
          [Ev (GetAttribute b "disabled") (Ok None);
           Ev (ScrollIntoViewIfNeeded (Elem b)) scrolled;
           Ev (Click (Elem b)) (Ok tt);
           short_wait_done].

(** How an exception can leave the poll loop: it is not an [Exception] (a
    cancellation, an interrupt), or the sleep or the random draw failed. *)
Definition slips_out (e : exn) (t : list event) : Prop :=
  is_Exception e = false \/
  (exists pre d, t = pre ++ [Ev (Sleep d) (Err e)]) \/
  (exists pre, t = pre ++ [Ev Random (Err e)]).

(** What a run of the poll loop can look like. *)
Definition poll_outcome (fuel : nat) (p : page) (o : outcome unit) (t : list event)
  : Prop :=
  match o with
  | Returned _ => clicked_select_modules p t \/ clicked_enabled_button p t
  | Raised e => slips_out e t
  | Diverged => reloads t = fuel
  end.

(** ** A simulated site

    A world to run the program in: what the pages show is a function of how
    many page loads and clicks there have been; everything else is answered
    from tables. *)

Record site : Type := Site {
  labels : nat -> nat -> list string;
  fields : string -> option element;
  collections : string -> list element;
  attributes : element -> string -> option string;
  tag_names : element -> string;
  broken : target -> option exn;
  acks : nat -> nat;
  files : string -> answer csv_reader;
  environ : gmap string string;
  draws : nat -> Binary64.float
}.

Record sim : Type := Sim {
  loads : nat;
  clicks : nat;
  awaits : nat;
  opened : nat
}.

Definition sim0 : sim := Sim 0 0 0 0.

Definition shows (s : site) (w : sim) (l : locator) : bool :=
  match l with
  | ByRole _ _ name => bool_decide (literal name ∈ labels s (loads w) (clicks w))
  | ByText _ text => bool_decide (literal text ∈ labels s (loads w) (clicks w))
  end.

Definition sim_perform (s : site) (R : Type) (o : op R) (w : sim) : answer R * sim :=
  match o in op R return answer R * sim with
  | Launch _ => (Ok 1%nat, w)
  | NewContext _ _ _ =>
      (Ok (S (opened w)), Sim (loads w) (clicks w) (awaits w) (S (opened w)))
  | NewPage c => (Ok c, w)
  | CloseContext _ => (Ok tt, w)
  | CloseBrowser _ => (Ok tt, w)
  | Goto _ _ _ => (Ok tt, Sim (S (loads w)) 0 (awaits w) (opened w))
  | Reload _ _ => (Ok tt, Sim (S (loads w)) 0 (awaits w) (opened w))
  | GetByRole _ _ _ => (Ok tt, w)
  | GetByText _ _ => (Ok tt, w)
  | WaitFor l _ _ =>
      (if shows s w l then Ok tt else Err PlaywrightTimeoutError, w)
  | QuerySelector _ selector => (Ok (fields s selector), w)
  | QuerySelectorAll _ selector => (Ok (collections s selector), w)
  | GetAttribute el name => (Ok (attributes s el name), w)
  | ScrollIntoViewIfNeeded _ => (Ok tt, w)
  | Click t =>
      match broken s t with
      | Some e => (Err e, w)
      | None => (Ok tt, Sim (loads w) (S (clicks w)) (awaits w) (opened w))
      end
  | Fill _ _ => (Ok tt, w)
  | SelectOption _ _ => (Ok tt, w)
  | Evaluate el _ => (Ok (tag_names s el), w)
  | ExposeBinding _ _ => (Ok tt, w)
  | AddInitScript _ _ => (Ok tt, w)
  | Sleep _ => (Ok tt, w)
  | Random => (Ok (draws s (loads w)), w)
  | Beep _ _ =>
      (Ok (acks s (awaits w)), Sim (loads w) (clicks w) (S (awaits w)) (opened w))
  | WaitStop _ =>
      (Ok (acks s (awaits w)), Sim (loads w) (clicks w) (S (awaits w)) (opened w))
  | StartPlaywright => (Ok tt, w)
  | StopPlaywright => (Ok tt, w)
  | OpenCsv path => (files s path, w)
  | GetEnv name => (Ok (environ s !! name), w)
  end.

Definition sim_world (s : site) : World sim := sim_perform s.

(** A site that shows nothing and has nothing. *)
Definition blank_site : site :=
  {| labels := fun _ _ => [];
     fields := fun _ => None;
     collections := fun _ => [];
     attributes := fun _ _ => None;
     tag_names := fun _ => "input";
     broken := fun _ => None;
     acks := fun _ => 0%nat;
     files := fun _ => Err (Exception "FileNotFoundError");
     environ := ∅;
     draws := fun _ => Binary64.Float 0 Binary64.emin |}.

(** Booking opens at the third page load: SELECT MODULES shows from then on. *)
Definition opening_site : site :=
  {| labels := fun loads _ => if (3 <=? loads)%nat then ["select modules"] else [];
     fields := fields blank_site;
     collections := collections blank_site;
     attributes := attributes blank_site;
     tag_names := tag_names blank_site;
     broken := broken blank_site;
     acks := acks blank_site;
     files := files blank_site;
     environ := environ blank_site;
     draws := draws blank_site |}.

(** SELECT MODULES shows at once, and no later control ever does. *)
Definition stalled_site : site :=
  {| labels := fun _ _ => ["select modules"];
     fields := fields blank_site;
     collections := collections blank_site;
     attributes := attributes blank_site;
     tag_names := tag_names blank_site;
     broken := broken blank_site;
     acks := acks blank_site;
     files := files blank_site;
     environ := environ blank_site;
     draws := draws blank_site |}.


Definition alice : Student :=
  mkStudent "alice@example.com" "secret" "+254700000001" "Alice" "A" "Nairobi"
    "2000-01-01" "Nairobi" "00100".

Definition bob : Student :=
  mkStudent "bob@example.com" "secret" "+254700000002" "Bob" "B" "Nairobi"
    "2000-01-02" "Nairobi" "00100".

Definition is_new_context (e : event) : bool :=
  match e with
  | Ev (NewContext _ _ _) _ => true
  | _ => false
  end.

(** How many browsing contexts a run asked for. *)
Definition contexts_opened (t : list event) : nat :=
  length (List.filter is_new_context t).

Definition is_goto (e : event) : bool :=
  match e with
  | Ev (Goto _ _ _) _ => true
  | _ => false
  end.

(** How many times a run navigated to a URL. *)
Definition navigations (t : list event) : nat :=
  length (List.filter is_goto t).

Definition is_wait_for (text : string) (e : event) : bool :=
  match e with
  | Ev (WaitFor (ByRole _ _ name) _ _) _ => bool_decide (literal name = text)
  | Ev (WaitFor (ByText _ name) _ _) _ => bool_decide (literal name = text)
  | _ => false
  end.

(** How many times a run waited for the control labelled [text]. *)
Definition waits_for (text : string) (t : list event) : nat :=
  length (List.filter (is_wait_for text) t).

(** The trace ends with a field found by one of [selectors] and filled with
    [value]. *)
Definition filled_field (p : page) (selectors : list string) (value : string)
  (t : list event) : Prop :=
  exists pre sel f,
    In sel selectors /\
    t = pre ++ [Ev (QuerySelector p sel) (Ok (Some f)); Ev (Fill f value) (Ok tt)].

(** No field was filled in the trace. *)
Definition nothing_filled (t : list event) : Prop :=
  forall f value, ~ In (Ev (Fill f value) (Ok tt)) t.

(** A login form with an email field and a LOG IN button, and no password
    field. *)
Definition login_site : site :=
  {| labels := fun _ _ => ["log in"];
     fields := fun sel => if bool_decide (sel = "#email") then Some 7%nat else None;
     collections := collections blank_site;
     attributes := attributes blank_site;
     tag_names := tag_names blank_site;
     broken := broken blank_site;
     acks := acks blank_site;
     files := files blank_site;
     environ := environ blank_site;
     draws := draws blank_site |}.

(** The first pair of [pairs] whose keyword occurs in [txt]. *)
Definition first_match (pairs : list (string * string)) (txt : string)
  : option (string * string) :=
  List.find (fun kv => contains (fst kv) txt) pairs.

(** The three attribute reads that open the handling of one form element. *)
Definition attributes_read (inp : element) (name placeholder aria : option string)
  : list event :=
  [Ev (GetAttribute inp "name") (Ok name);
   Ev (GetAttribute inp "placeholder") (Ok placeholder);
   Ev (GetAttribute inp "aria-label") (Ok aria)].

(** What follows the attribute reads when [found] is the pair that matched:
    nothing without a match; else the tag name is asked for and, when that
    succeeds, the value is selected or filled. *)
Definition filled_as (inp : element) (found : option (string * string))
  (t : list event) : Prop :=
  match found with
  | None => t = []
  | Some (_, val) =>
      (exists e, t = [Ev (Evaluate inp TAG_NAME_JS) (Err e)]) \/
      (exists tag a,
         t = [Ev (Evaluate inp TAG_NAME_JS) (Ok tag);
              if bool_decide (tag = "select")
              then Ev (SelectOption inp val) a
              else Ev (Fill inp val) a])
  end.

(** A form whose element 3 is named [phone_first]. *)
Definition form_site : site :=
  {| labels := labels blank_site;
     fields := fields blank_site;
     collections := collections blank_site;
     attributes := fun el name =>
       if bool_decide (el = 3%nat /\ name = "name") then Some "phone_first" else None;
     tag_names := tag_names blank_site;
     broken := broken blank_site;
     acks := acks blank_site;
     files := files blank_site;
     environ := environ blank_site;
     draws := draws blank_site |}.

(** A student whose CSV row had no phone. *)
Definition no_phone : Student :=
  mkStudent "carol@example.com" "secret" "" "Carol" "C" "Nairobi"
    "2000-01-03" "Nairobi" "00100".

(** Reading one of the three attributes raised. *)
Definition attribute_failed (inp : element) (t : list event) : Prop :=
  exists e,
    t = [Ev (GetAttribute inp "name") (Err e)] \/
    (exists name,
       t = [Ev (GetAttribute inp "name") (Ok name);
            Ev (GetAttribute inp "placeholder") (Err e)]) \/
    (exists name placeholder,
       t = [Ev (GetAttribute inp "name") (Ok name);
            Ev (GetAttribute inp "placeholder") (Ok placeholder);
            Ev (GetAttribute inp "aria-label") (Err e)]).

(** How [_fill_personal_form] handles one form element. *)
Definition handled (student : Student) (inp : element) (t : list event) : Prop :=
  attribute_failed inp t \/
  exists name placeholder aria rest,
    t = attributes_read inp name placeholder aria ++ rest /\
    filled_as inp
      (first_match (lower_map student) (match_txt name placeholder aria)) rest.

Definition filled_value (e : event) : option string :=
  match e with
  | Ev (Fill _ value) _ => Some value
  | Ev (SelectOption _ label) _ => Some label
  | _ => None
  end.

(** The values a run tried to fill or select, in order. *)
Fixpoint filled_values (t : list event) : list string :=
  match t with
  | [] => []
  | e :: t' =>
      match filled_value e with
      | Some v => v :: filled_values t'
      | None => filled_values t'
      end
  end.

(** A CSV input with no row: the file could not be opened, or it was opened
    and nothing was read from it, with or without a read error. *)
Definition zero_rows (a : answer csv_reader) : Prop :=
  match a with
  | Err _ => True
  | Ok reader => rows reader = []
  end.

(** The input's error, if it has one, is an [Exception] (OSError,
    UnicodeDecodeError, csv.Error), not an interrupt. *)
Definition ordinary (a : answer csv_reader) : Prop :=
  match a with
  | Err e => is_Exception e = true
  | Ok reader =>
      match failure reader with
      | Some e => is_Exception e = true
      | None => True
      end
  end.

(** A site with an empty CSV file and one that breaks before its first row. *)
Definition csv_site : site :=
  {| labels := labels blank_site;
     fields := fields blank_site;
     collections := collections blank_site;
     attributes := attributes blank_site;
     tag_names := tag_names blank_site;
     broken := broken blank_site;
     acks := acks blank_site;
     files := fun path =>
       if bool_decide (path = "empty.csv") then Ok (CsvReader [] None)
       else if bool_decide (path = "latin1.csv")
            then Ok (CsvReader [] (Some (Exception "UnicodeDecodeError")))
            else Err (Exception "FileNotFoundError");
     environ := {[ "GOETHE_EMAIL" := "env@example.com" ]};
     draws := draws blank_site |}.

(** ** Reading the alarm *)

(** The alarm and handler calls of a run, in order. *)
Definition alarms (t : list event) : list event := List.filter is_alarm t.

(** A computation that ends and makes no noise, in every world. *)
Definition quiet {W A} (c : M W A) : Prop :=
  sat c (fun o t => noise t = 0%nat /\ o <> Diverged).








(** The page acknowledges during the wait of the third round. *)
Definition ringing_site : site :=
  {| labels := labels blank_site;
     fields := fields blank_site;
     collections := collections blank_site;
     attributes := attributes blank_site;
     tag_names := tag_names blank_site;
     broken := broken blank_site;
     acks := fun k => if (k =? 5)%nat then 1%nat else 0%nat;
     files := files blank_site;
     environ := environ blank_site;
     draws := draws blank_site |}.

(** A computation that makes no alarm or handler call, in every world. *)
Definition hushed {W A} (c : M W A) : Prop :=
  sat c (fun _ t => alarms t = []).


(** A site on which the whole flow goes through: every control shows, the
    login form has an email field, and the page acknowledges the alarm
    during the wait of the second round. *)
Definition happy_site : site :=
  {| labels := fun _ _ =>
       [TXT_SELECT_MODULES; TXT_CONTINUE; TXT_BOOK_FOR_MYSELF; TXT_LOGIN;
        TXT_ORDER_SUBJECT_TO_CHANGE; TXT_CONFIRMATION];
     fields := fun sel => if bool_decide (sel = "#email") then Some 7%nat else None;
     collections := collections blank_site;
     attributes := attributes blank_site;
     tag_names := tag_names blank_site;
     broken := broken blank_site;
     acks := fun k => if (k =? 3)%nat then 1%nat else 0%nat;
     files := files blank_site;
     environ := environ blank_site;
     draws := draws blank_site |}.

(** Every control shows, and the login form has no field at all. *)
Definition no_login_site : site :=
  {| labels := labels happy_site;
     fields := fields blank_site;
     collections := collections blank_site;
     attributes := attributes blank_site;
     tag_names := tag_names blank_site;
     broken := broken blank_site;
     acks := acks blank_site;
     files := files blank_site;
     environ := environ blank_site;
     draws := draws blank_site |}.

(** ** Reading what a run touched *)

Definition page_of (l : locator) : page :=
  match l with
  | ByRole p _ _ => p
  | ByText p _ => p
  end.

Definition on_target (p : page) (t : target) : bool :=
  match t with
  | Loc l => Nat.eqb (page_of l) p
  | Elem _ => true
  end.

(** Looking for a control on page [p]: building a locator, waiting on it. *)
Definition looks (p : page) (e : event) : bool :=
  match e with
  | Ev (GetByRole q _ _) _ => Nat.eqb q p
  | Ev (GetByText q _) _ => Nat.eqb q p
  | Ev (WaitFor l _ _) _ => Nat.eqb (page_of l) p
  | _ => false
  end.

(** Working on page [p] as it is loaded: looking, querying, reading
    attributes, scrolling, clicking, filling, sleeping.  Element handles
    carry no page of their own. *)
Definition stays (p : page) (e : event) : bool :=
  looks p e ||
  match e with
  | Ev (QuerySelector q _) _ => Nat.eqb q p
  | Ev (QuerySelectorAll q _) _ => Nat.eqb q p
  | Ev (ScrollIntoViewIfNeeded t) _ => on_target p t
  | Ev (Click t) _ => on_target p t
  | Ev (GetAttribute _ _) _ => true
  | Ev (Fill _ _) _ => true
  | Ev (SelectOption _ _) _ => true
  | Ev (Evaluate _ _) _ => true
  | Ev (Sleep _) _ => true
  | _ => false
  end.

(** What the poll loop does with page [p]: working on it, drawing a delay
    and reloading it. *)
Definition reloading (p : page) (e : event) : bool :=
  stays p e ||
  match e with
  | Ev (Reload q _) _ => Nat.eqb q p
  | Ev Random _ => true
  | _ => false
  end.

(** Wiring the double-click handler on page [p], and ringing. *)
Definition rings (p : page) (e : event) : bool :=
  match e with
  | Ev (ExposeBinding q _) _ => Nat.eqb q p
  | Ev (AddInitScript q _) _ => Nat.eqb q p
  | Ev (Beep _ _) _ => true
  | Ev (WaitStop _) _ => true
  | _ => false
  end.

(** Everything a booking session does with page [p]: the above, and
    navigating it.  What is left out is the browser's life cycle (launching,
    opening and closing contexts and pages), the CSV file, the environment,
    and every call on another page. *)
Definition within_page (p : page) (e : event) : bool :=
  reloading p e || rings p e ||
  match e with
  | Ev (Goto q _ _) _ => Nat.eqb q p
  | _ => false
  end.

(** A computation all of whose primitive calls satisfy [ok], in every
    world and however it ends. *)
Definition only {W A} (ok : event -> bool) (c : M W A) : Prop :=
  sat c (fun _ t => forallb ok t = true).

Definition is_click (e : event) : bool :=
  match e with
  | Ev (Click _) _ => true
  | _ => false
  end.

(** How many clicks a run attempted. *)
Definition clicks_made (t : list event) : nat :=
  length (List.filter is_click t).

Definition is_close_context (e : event) : bool :=
  match e with
  | Ev (CloseContext _) _ => true
  | _ => false
  end.

(** How many times a run asked for a browsing context to be closed. *)
Definition contexts_closed (t : list event) : nat :=
  length (List.filter is_close_context t).

(** Waits that failed with an [Exception], one on each locator of [ls]. *)
Definition gave_up_on (ls : list locator) (t : list event) : Prop :=
  Forall2
    (fun l e =>
       exists x, is_Exception x = true /\
                 e = Ev (WaitFor l "visible" DEFAULT_TIMEOUT) (Err x))
    ls t.

(** Reads of the [disabled] attribute, one on each button of [bs], that
    found the attribute present or failed with an [Exception]. *)
Definition passed_over (bs : list element) (t : list event) : Prop :=
  Forall2
    (fun b e =>
       (exists v, e = Ev (GetAttribute b "disabled") (Ok (Some v))) \/
       (exists x, is_Exception x = true /\
                  e = Ev (GetAttribute b "disabled") (Err x)))
    bs t.

(** One pass of a [for sel in ...] loop of [_login] that filled nothing: the
    selector found no field, or the query or the fill failed with an
    [Exception]. *)
Definition fruitless (p : page) (value sel : string) (t : list event) : Prop :=
  t = [Ev (QuerySelector p sel) (Ok None)] \/
  (exists x, is_Exception x = true /\ t = [Ev (QuerySelector p sel) (Err x)]) \/
  (exists f x, is_Exception x = true /\
               t = [Ev (QuerySelector p sel) (Ok (Some f)); Ev (Fill f value) (Err x)]).

(** What a step of the sequencer does about navigation: none when it
    succeeds, one restart when it fails. *)
Definition step_navigates (o : outcome bool) (t : list event) : Prop :=
  match o with
  | Returned true => navigations t = 0%nat
  | Returned false => navigations t = 1%nat
  | Raised _ => (navigations t <= 1)%nat
  | Diverged => False
  end.

(** How often [run_booking] has navigated, however it ends, when [n]
    navigations came before: once on success, twice on failure. *)
Definition navigated (n : nat) (o : outcome bool) (t : list event) : Prop :=
  match o with
  | Returned true => (n + navigations t = 1)%nat
  | Returned false => (n + navigations t = 2)%nat
  | Raised _ => (1 <= n + navigations t <= 2)%nat
  | Diverged => (n + navigations t = 1)%nat
  end.

(** A world in which a browsing context opens and its page does not. *)
Definition no_page_world : World unit :=
  fun R o w =>
    match o in op R return answer R * unit with
    | NewContext _ _ _ => (Ok 1%nat, w)
    | _ => (Err (Exception "Target closed"), w)
    end.

(** The columns [Student.from_row] reads. *)
Definition COLUMNS : list string :=
  ["email"; "password"; "phone"; "first_name"; "surname"; "county"; "dob";
   "place_of_birth"; "zip_code"].

(** The variables [student_from_env] reads. *)
Definition ENV_NAMES : list string :=
  ["GOETHE_EMAIL"; "GOETHE_PASSWORD"; "GOETHE_PHONE"; "GOETHE_FIRST_NAME";
   "GOETHE_SURNAME"; "GOETHE_COUNTY"; "GOETHE_DOB"; "GOETHE_PLACE_OF_BIRTH";
   "GOETHE_ZIP"].

(** Reading the student list: the CSV file and the environment. *)
Definition is_data_source (e : event) : bool :=
  match e with
  | Ev (OpenCsv _) _ => true
  | Ev (GetEnv _) _ => true
  | _ => false
  end.

(** A CSV file with two rows, and one whose reading breaks after the first
    row. *)
Definition roster_site : site :=
  {| labels := labels blank_site;
     fields := fields blank_site;
     collections := collections blank_site;
     attributes := attributes blank_site;
     tag_names := tag_names blank_site;
     broken := broken blank_site;
     acks := acks blank_site;
     files := fun path =>
       if bool_decide (path = "students.csv")
       then Ok (CsvReader [ {[ "email" := "alice@example.com" ]};
                            {[ "email" := "bob@example.com"; "phone" := "+254700000002" ]} ]
                  None)
       else if bool_decide (path = "broken.csv")
            then Ok (CsvReader [ {[ "email" := "alice@example.com" ]} ]
                       (Some (Exception "UnicodeDecodeError")))
            else Err (Exception "FileNotFoundError");
     environ := environ blank_site;
     draws := draws blank_site |}.

(** The personal values of a student: what the form filler may type. *)
Definition personal_values (student : Student) : list string :=
  map snd (mapping student).

(** Every reload of the trace comes right after the draw of a delay and a
    sleep of the delay computed from that draw. *)
Definition paced (t : list event) : Prop :=
  forall pre p wait_until a post,
    t = pre ++ Ev (Reload p wait_until) a :: post ->
    exists pre' r,
      pre = pre' ++ [Ev Random (Ok r); Ev (Sleep (refresh_delay_of r)) (Ok tt)].


(** ** The command line layer

    [main] and its helpers also call the operating system: the clock, the
    standard output, the log file, the file system, python-dotenv, argparse
    and asyncio's loop factory.  These calls are answered by a [System], as
    the browser calls are answered by a [World], and a computation of this
    layer leaves a trace of both kinds of calls.  The global [_LOG_F] is
    passed explicitly: [_init_log] returns its new value and [_log] takes
    it as an argument. *)

(** An open log file. *)
Definition handle := nat.

(** What [argparse] returns for the options [_parse_args] declares. *)
Module argparse.

Record Namespace : Type := mkNamespace {
  csv : option string;
  env : option string;
  env_only : bool;
  ignore_env : bool;
  headless : bool;
  headed : bool;
  log : string
}.

End argparse.

(** The system calls.  The four path calls are the methods of
    [pathlib.Path(path)] that [_init_log] uses. *)
Inductive sys_op : Type -> Type :=
| Argv : sys_op (list string)                         (* sys.argv[1:] *)
| ParseArgs (argv : list string) : sys_op argparse.Namespace
| Strftime (format : string) : sys_op string          (* on time.localtime() *)
| StdoutWrite (s : string) : sys_op unit
| FileWrite (f : handle) (s : string) : sys_op unit
| FileFlush (f : handle) : sys_op unit
| FileClose (f : handle) : sys_op unit
| ParentExists (path : string) : sys_op bool          (* p.parent.exists() *)
| ParentMkdir (path : string) : sys_op unit           (* p.parent.mkdir(parents, exist_ok) *)
| PathExists (path : string) : sys_op bool            (* p.exists() *)
| Unlink (path : string) : sys_op unit                (* p.unlink() *)
| OpenWrite (path : string) : sys_op handle           (* open(p, "w", encoding="utf-8") *)
| OsPathExists (path : string) : sys_op bool          (* os.path.exists(path) *)
| LoadDotenv (path : option string) : sys_op bool     (* load_dotenv(path) or load_dotenv() *)
| NewEventLoop : sys_op unit
| SetEventLoop : sys_op unit
| Print (line : string) : sys_op unit.

(** One entry of the trace of this layer: a system call and its answer, or
    a call of the browser layer. *)
Inductive sys_event : Type :=
| SysEv {R : Type} (o : sys_op R) (a : answer R)
| BotEv (e : event).

Class System (W : Type) : Type :=
  sys_perform : forall R : Type, sys_op R -> W -> answer R * W.
Arguments sys_perform {W _ R} o w.

Definition IO (W A : Type) : Type := W -> outcome A * W * list sys_event.

Section IOMonad.
Context {W : Type} `{System W}.

Definition io_ret {A} (a : A) : IO W A := fun w => (Returned a, w, []).

Definition io_bind {A B} (c : IO W A) (k : A -> IO W B) : IO W B :=
  fun w =>
    match c w with
    | (Returned a, w1, t1) =>
        let '(o, w2, t2) := k a w1 in (o, w2, t1 ++ t2)
    | (Raised e, w1, t1) => (Raised e, w1, t1)
    | (Diverged, w1, t1) => (Diverged, w1, t1)
    end.

Definition io_call {R} (o : sys_op R) : IO W R :=
  fun w =>
    let '(a, w') := sys_perform o w in
    (match a with Ok r => Returned r | Err e => Raised e end, w', [SysEv o a]).

(** [try: c  except Exception: h e] *)
Definition io_try_except {A} (c : IO W A) (h : exn -> IO W A) : IO W A :=
  fun w =>
    match c w with
    | (Raised e, w1, t1) =>
        if is_Exception e
        then let '(o, w2, t2) := h e w1 in (o, w2, t1 ++ t2)
        else (Raised e, w1, t1)
    | r => r
    end.

(** A computation of the browser layer, run from this layer; for a
    coroutine, [loop.run_until_complete]. *)
Definition lift {A} (c : M W A) : IO W A :=
  fun w => let '(o, w', t) := c w in (o, w', map BotEv t).

End IOMonad.

Declare Scope io_scope.
Delimit Scope io_scope with io.
Notation "x <- c ;; k" := (io_bind c (fun x => k))
  (at level 100, c at next level, right associativity) : io_scope.
Notation "c ;; k" := (io_bind c (fun _ => k))
  (at level 100, right associativity) : io_scope.

Definition LF : string := String "010"%char EmptyString.

(** [f"{_ts()} [{level}] {email} {msg}".rstrip() + "\n"], for the timestamp
    [ts]. *)
Definition log_line (ts level email msg : string) : string :=
  String.append
    (rstrip
       (String.append ts
          (String.append " ["
             (String.append level
                (String.append "] "
                   (String.append email (String.append " " msg)))))))
    LF.

Definition DEFAULT_LOG := "goethe_booking_bot.log".

(** [f"{email}: {'SUCCESS' if ok else 'FAILED'}"] *)
Definition verdict (result : string * bool) : string :=
  String.append (fst result)
    (String.append ": " (if snd result then "SUCCESS" else "FAILED")).

Section Cli.
Context {W : Type} `{World W} `{System W}.
Local Open Scope io_scope.

Definition _ts : IO W string := io_call (Strftime "%Y-%m-%d %H:%M:%S").

(** A file object is always true in [if _LOG_F:], so the test is whether a
    log file is open. *)
Definition _log (_LOG_F : option handle) (level msg email : string) : IO W unit :=
  ts <- _ts ;;
  let line := log_line ts level email msg in
  io_call (StdoutWrite line) ;;
  match _LOG_F with
  | Some f =>
      io_try_except
        (io_call (FileWrite f line) ;;
         io_call (FileFlush f))
        (fun _ => io_ret tt)
  | None => io_ret tt
  end.

(** [headed = not args.headless; if args.headed: headed = True] *)
Definition _parse_args (argv : list string) : IO W (argparse.Namespace * bool) :=
  args <- io_call (ParseArgs argv) ;;
  let headed := negb (argparse.headless args) in
  let headed := if argparse.headed args then true else headed in
  io_ret (args, headed).

(** The new value of [_LOG_F].  A [Path] object is always true, so [if
    p.parent and not p.parent.exists()] tests the second part only. *)
Definition _init_log (path : string) : IO W (option handle) :=
  io_try_except
    (parent_exists <- io_call (ParentExists path) ;;
     (if negb parent_exists then io_call (ParentMkdir path) else io_ret tt) ;;
     exists_ <- io_call (PathExists path) ;;
     (if exists_ then io_call (Unlink path) else io_ret tt) ;;
     f <- io_call (OpenWrite path) ;;
     io_ret (Some f))
    (fun _ => io_ret None).

Definition load_env (env_path : option string) : IO W unit :=
  given <- match env_path with
           | Some path =>
               if nonempty path then io_call (OsPathExists path) else io_ret false
           | None => io_ret false
           end ;;
  if given
  then io_call (LoadDotenv env_path) ;; io_ret tt
  else io_call (LoadDotenv None) ;; io_ret tt.

(** [for email, ok in results: print(...)] *)
Fixpoint print_results (results : list (string * bool)) : IO W unit :=
  match results with
  | [] => io_ret tt
  | result :: rest => io_call (Print (verdict result)) ;; print_results rest
  end.

(** As in the browser layer, the log lines written on the way are left
    out. *)
Definition main (fuel : nat) (argv : option (list string)) : IO W unit :=
  argv <- match argv with
          | None => io_call Argv
          | Some argv => io_ret argv
          end ;;
  parsed <- _parse_args argv ;;
  let '(args, headed) := parsed in
  _LOG_F <- _init_log (argparse.log args) ;;
  load_env (argparse.env args) ;;
  students <- lift (build_students (argparse.ignore_env args)
                      (argparse.env_only args) (argparse.csv args)) ;;
  io_call NewEventLoop ;;
  io_call SetEventLoop ;;
  results <- lift (main_async fuel (negb headed) students) ;;
  print_results results ;;
  match _LOG_F with
  | Some f => io_call (FileClose f)
  | None => io_ret tt
  end.

End Cli.

(** [io_sat c Q]: in every world, the outcome of [c] and the trace it leaves
    satisfy [Q]. *)
Definition io_sat {W A} (c : IO W A) (Q : outcome A -> list sys_event -> Prop) : Prop :=
  forall w, Q (c w).1.1 (c w).2.

(** ** Reading traces of the command line layer *)

(** The headless flags of the browser launches of a run, in order. *)
Fixpoint launched (t : list event) : list bool :=
  match t with
  | [] => []
  | Ev (Launch headless) _ :: t' => headless :: launched t'
  | _ :: t' => launched t'
  end.

(** The browser calls of a run of the command line layer. *)
Fixpoint bot_events (t : list sys_event) : list event :=
  match t with
  | [] => []
  | BotEv e :: t' => e :: bot_events t'
  | SysEv _ _ :: t' => bot_events t'
  end.

(** The option values that [argparse] returned in a run. *)
Fixpoint parsed_args (t : list sys_event) : list argparse.Namespace :=
  match t with
  | [] => []
  | SysEv (ParseArgs _) (Ok args) :: t' => args :: parsed_args t'
  | _ :: t' => parsed_args t'
  end.

(** The lines a run printed, in order. *)
Fixpoint printed (t : list sys_event) : list string :=
  match t with
  | [] => []
  | SysEv (Print line) _ :: t' => line :: printed t'
  | _ :: t' => printed t'
  end.

(** What [_log] does with an open log file [f] after the line went to
    stdout: it writes the line and flushes, or one of the two fails with an
    [Exception] and that is the end of it. *)
Definition logged_to_file (f : handle) (line : string) (t : list sys_event) : Prop :=
  t = [SysEv (FileWrite f line) (Ok tt); SysEv (FileFlush f) (Ok tt)] \/
  (exists x, is_Exception x = true /\ t = [SysEv (FileWrite f line) (Err x)]) \/
  (exists x, is_Exception x = true /\
             t = [SysEv (FileWrite f line) (Ok tt); SysEv (FileFlush f) (Err x)]).

(** A toy command line: the four switches are recognised by name, every
    other option keeps its default. *)
Definition toy_parse (argv : list string) : argparse.Namespace :=
  {| argparse.csv := None;
     argparse.env := None;
     argparse.env_only := existsb (String.eqb "--env-only") argv;
     argparse.ignore_env := existsb (String.eqb "--ignore-env") argv;
     argparse.headless := existsb (String.eqb "--headless") argv;
     argparse.headed := existsb (String.eqb "--headed") argv;
     argparse.log := DEFAULT_LOG |}.

(** A system in which every call succeeds: no log file exists yet, and
    handle 3 is the one that [open] returns. *)
Definition sim_system : System sim :=
  fun R o w =>
    match o in sys_op R return answer R * sim with
    | Argv => (Ok [], w)
    | ParseArgs argv => (Ok (toy_parse argv), w)
    | Strftime _ => (Ok "2025-01-01 12:00:00", w)
    | StdoutWrite _ => (Ok tt, w)
    | FileWrite _ _ => (Ok tt, w)
    | FileFlush _ => (Ok tt, w)
    | FileClose _ => (Ok tt, w)
    | ParentExists _ => (Ok true, w)
    | ParentMkdir _ => (Ok tt, w)
    | PathExists _ => (Ok false, w)
    | Unlink _ => (Ok tt, w)
    | OpenWrite _ => (Ok 3%nat, w)
    | OsPathExists _ => (Ok false, w)
    | LoadDotenv _ => (Ok false, w)
    | NewEventLoop => (Ok tt, w)
    | SetEventLoop => (Ok tt, w)
    | Print _ => (Ok tt, w)
    end.


(** A stretch of a run in which nothing is parsed, nothing is printed, no
    browser is launched and no context is asked for. *)
Definition mute (t : list sys_event) : Prop :=
  parsed_args t = [] /\ printed t = [] /\
  launched (bot_events t) = [] /\ contexts_opened (bot_events t) = 0%nat.

(** The headless flag that the options ask for. *)
Definition wants_headless (args : argparse.Namespace) : bool :=
  argparse.headless args && negb (argparse.headed args).

(** What a run of [main] looks like once the options [args] are parsed: at
    most one launch, with the flag the options ask for, and, when it
    returns, one verdict line for each context that was asked for. *)
Definition main_outcome (args : argparse.Namespace) (o : outcome unit)
  (t : list sys_event) : Prop :=
  parsed_args t = [] /\
  (launched (bot_events t) = [] \/
   launched (bot_events t) = [wants_headless args]) /\
  (o = Returned tt ->
   exists results,
     printed t = map verdict results /\
     length results = contexts_opened (bot_events t)).

(** * Properties

    The rules below follow the shape of a computation, quantifying over what
    the world may answer at each primitive call. *)

Section Sat.
Context {W : Type} `{World W}.

Lemma sat_conseq {A} (c : M W A) (Q1 Q : outcome A -> list event -> Prop) :
  sat c Q1 -> (forall o t, Q1 o t -> Q o t) -> sat c Q.
Proof. intros Hc HQ w. apply HQ, Hc. Qed.

Lemma sat_ret {A} (a : A) (Q : outcome A -> list event -> Prop) :
  Q (Returned a) [] -> sat (W:=W) (ret a) Q.
Proof. intros HQ w. exact HQ. Qed.

Lemma sat_raise {A} (e : exn) (Q : outcome A -> list event -> Prop) :
  Q (Raised e) [] -> sat (W:=W) (raise e) Q.
Proof. intros HQ w. exact HQ. Qed.

Lemma sat_diverge {A} (Q : outcome A -> list event -> Prop) :
  Q Diverged [] -> sat (W:=W) diverge Q.
Proof. intros HQ w. exact HQ. Qed.

Lemma sat_call {R} (o : op R) (Q : outcome R -> list event -> Prop) :
  (forall a, Q (of_answer a) [Ev o a]) -> sat (call o) Q.
Proof.
  intros HQ w. unfold call. destruct (perform o w) as [a w'].
  specialize (HQ a). destruct a; exact HQ.
Qed.

Lemma sat_bind {A B} (c : M W A) (k : A -> M W B)
  (Q : outcome B -> list event -> Prop) :
  sat c (fun o t1 =>
           match o with
           | Returned a => sat (k a) (fun o2 t2 => Q o2 (t1 ++ t2))
           | Raised e => Q (Raised e) t1
           | Diverged => Q Diverged t1
           end) ->
  sat (bind c k) Q.
Proof.
  intros Hc w. specialize (Hc w). unfold bind.
  destruct (c w) as [[[a|e|] w1] t1]; cbn in *; try exact Hc.
  specialize (Hc w1). destruct (k a w1) as [[o2 w2] t2]. exact Hc.
Qed.

Lemma sat_try_except {A} (c : M W A) (h : exn -> M W A)
  (Q : outcome A -> list event -> Prop) :
  sat c (fun o t1 =>
           match o with
           | Raised e =>
               if is_Exception e
               then sat (h e) (fun o2 t2 => Q o2 (t1 ++ t2))
               else Q (Raised e) t1
           | _ => Q o t1
           end) ->
  sat (try_except c h) Q.
Proof.
  intros Hc w. specialize (Hc w). unfold try_except.
  destruct (c w) as [[[a|e|] w1] t1]; cbn in *; try exact Hc.
  destruct (is_Exception e); [|exact Hc].
  specialize (Hc w1). destruct (h e w1) as [[o2 w2] t2]. exact Hc.
Qed.

Lemma sat_try_finally {A} (c : M W A) (f : M W unit)
  (Q : outcome A -> list event -> Prop) :
  sat c (fun o t1 =>
           match o with
           | Returned a =>
               sat f (fun o2 t2 =>
                        match o2 with
                        | Returned _ => Q (Returned a) (t1 ++ t2)
                        | Raised e' => Q (Raised e') (t1 ++ t2)
                        | Diverged => Q Diverged (t1 ++ t2)
                        end)
           | Raised e =>
               sat f (fun o2 t2 =>
                        match o2 with
                        | Returned _ => Q (Raised e) (t1 ++ t2)
                        | Raised e' => Q (Raised e') (t1 ++ t2)
                        | Diverged => Q Diverged (t1 ++ t2)
                        end)
           | Diverged => Q Diverged t1
           end) ->
  sat (try_finally c f) Q.
Proof.
  intros Hc w. specialize (Hc w). unfold try_finally.
  destruct (c w) as [[[a|e|] w1] t1]; cbn in *; try exact Hc.
  - specialize (Hc w1). destruct (f w1) as [[[[]|e'|] w2] t2]; exact Hc.
  - specialize (Hc w1). destruct (f w1) as [[[[]|e'|] w2] t2]; exact Hc.
Qed.

End Sat.

(** ** Symbolic execution *)

Ltac sat_step :=
lazymatch goal with
| |- sat (bind _ _) _ => apply sat_bind
| |- sat (ret _) _ => apply sat_ret
| |- sat (raise _) _ => apply sat_raise
| |- sat diverge _ => apply sat_diverge
| |- sat (call _) _ =>
    apply sat_call; intros [?|?]; cbv beta iota delta [of_answer]
| |- sat (try_except _ _) _ => apply sat_try_except
| |- sat (try_finally _ _) _ => apply sat_try_finally
| |- sat (suppress _) _ => unfold suppress; apply sat_try_except
| |- sat (if ?b then _ else _) _ => destruct b eqn:?
| |- sat (match ?x with _ => _ end) _ => destruct x eqn:?
| |- if is_Exception ?e then _ else _ => destruct e; cbv beta iota delta [is_Exception]
end.

Ltac sat_steps := repeat sat_step.

(** Use a proved specification [L] for the computation at the head. *)
Ltac sat_use L :=
eapply sat_conseq;
  [ apply L
  | let o := fresh "o" in
    let t := fresh "t" in
    let Hq := fresh "Hq" in
    let Hs := fresh "Hs" in
    intros o t [Hq Hs]; destruct o; cbv beta iota in Hs |- *;
    try contradiction ].

Lemma reloads_app (t1 t2 : list event) :
  reloads (t1 ++ t2) = (reloads t1 + reloads t2)%nat.
Proof.
  induction t1 as [|e t1 IH]; simpl; [reflexivity|]. rewrite IH. lia.
Qed.

Lemma noise_app (t1 t2 : list event) :
  noise (t1 ++ t2) = (noise t1 + noise t2)%nat.
Proof.
  induction t1 as [|e t1 IH]; simpl; [reflexivity|]. rewrite IH. lia.
Qed.

Lemma noise_reloads (t : list event) : noise t = 0%nat -> reloads t = 0%nat.
Proof.
  induction t as [|e t IH]; simpl; [reflexivity|].
  destruct (is_reload e); simpl; [discriminate|].
  destruct (is_alarm e); simpl; [discriminate | exact IH].
Qed.

Lemma noise_alarms (t : list event) : noise t = 0%nat -> List.filter is_alarm t = [].
Proof.
  induction t as [|e t IH]; simpl; [reflexivity|].
  destruct (is_alarm e); simpl.
  - rewrite orb_true_r. discriminate.
  - rewrite orb_false_r. destruct (is_reload e); [discriminate | exact IH].
Qed.

(** Close a goal about the noise of a trace built by appending. *)
Ltac count_noise :=
rewrite ?noise_app in *; cbn [noise is_reload is_alarm orb] in *; lia.

(** Close a goal about the reload count of a trace built by appending. *)
Ltac count_reloads :=
repeat match goal with
       | H : noise ?t = 0%nat |- _ => apply noise_reloads in H
       end;
rewrite ?reloads_app in *; cbn [reloads is_reload] in *; lia.

Section Helpers.
Context {W : Type} `{World W}.

Lemma short_wait_spec ms :
  sat (W:=W) (short_wait ms)
    (fun o t =>
       noise t = 0%nat /\
       match o with
       | Returned _ =>
           t = [Ev (Sleep (Binary64.div (Binary64.of_int ms) (Binary64.of_int 1000))) (Ok tt)]
       | Raised e =>
           t = [Ev (Sleep (Binary64.div (Binary64.of_int ms) (Binary64.of_int 1000))) (Err e)]
       | Diverged => False
       end).
Proof.
  unfold short_wait. sat_steps.
  - destruct r. split; reflexivity.
  - split; reflexivity.
Qed.

Lemma safe_click_spec (el : target) :
  sat (W:=W) (_safe_click el)
    (fun o t =>
       noise t = 0%nat /\
       match o with
       | Returned _ =>
           exists scrolled,
             t = [Ev (ScrollIntoViewIfNeeded el) scrolled; Ev (Click el) (Ok tt)]
       | Raised _ => True
       | Diverged => False
       end).
Proof.
  unfold _safe_click. sat_steps;
    repeat match goal with u : unit |- _ => destruct u end;
    cbn [app]; (split; [count_noise|]); eauto.
Qed.

Lemma find_by_text_spec (p : page) (text : string) :
  sat (W:=W) (_find_by_text p text)
    (fun o t =>
       noise t = 0%nat /\
       match o with
       | Returned l => finds p text l
       | Raised _ => True
       | Diverged => False
       end).
Proof.
  unfold _find_by_text, get_by_role, get_by_text, finds. sat_steps;
    cbn [app]; (split; [count_noise|]); auto.
Qed.

Lemma first_visible_spec (p : page) (candidates : list (option locator)) :
  sat (W:=W) (_first_visible p candidates)
    (fun o t =>
       noise t = 0%nat /\
       match o with
       | Returned (Some l) =>
           In (Some l) candidates /\
           exists pre, t = pre ++ [Ev (WaitFor l "visible" DEFAULT_TIMEOUT) (Ok tt)]
       | Returned None => True
       | Raised _ => True
       | Diverged => False
       end).
Proof.
  assert (Hrest : forall c rest,
    sat (W:=W) (_first_visible p rest)
      (fun o t =>
         noise t = 0%nat /\
         match o with
         | Returned (Some l) =>
             In (Some l) rest /\
             exists pre, t = pre ++ [Ev (WaitFor l "visible" DEFAULT_TIMEOUT) (Ok tt)]
         | Returned None => True
         | Raised _ => True
         | Diverged => False
         end) ->
    forall t0, noise t0 = 0%nat ->
    sat (W:=W) (_first_visible p rest)
      (fun o t =>
         noise (t0 ++ t) = 0%nat /\
         match o with
         | Returned (Some l) =>
             In (Some l) (c :: rest) /\
             exists pre, t0 ++ t = pre ++ [Ev (WaitFor l "visible" DEFAULT_TIMEOUT) (Ok tt)]
         | Returned None => True
         | Raised _ => True
         | Diverged => False
         end)).
  { intros c rest IH t0 Ht0. sat_use IH.
    - split; [count_noise|]. destruct a as [l|]; [|exact I].
      destruct Hs as [Hin [pre ->]]. split; [right; exact Hin|].
      exists (t0 ++ pre). rewrite app_assoc. reflexivity.
    - split; [count_noise | exact I]. }
  induction candidates as [|[c|] rest IH]; cbn [_first_visible].
  - sat_steps. split; [reflexivity | exact I].
  - sat_steps; repeat match goal with u : unit |- _ => destruct u end;
      try (apply (Hrest (Some c) rest IH); reflexivity).
    + split; [count_noise|]. split; [left; reflexivity|].
      exists []. reflexivity.
    + split; [count_noise | exact I].
  - apply (Hrest None rest IH [] eq_refl).
Qed.

Lemma find_each_text_spec (p : page) (texts : list string) :
  sat (W:=W) (find_each_text p texts)
    (fun o t =>
       noise t = 0%nat /\
       match o with
       | Returned cands =>
           forall l, In (Some l) cands -> exists text, In text texts /\ finds p text l
       | Raised _ => True
       | Diverged => False
       end).
Proof.
  induction texts as [|text rest IH]; cbn [find_each_text].
  - sat_steps. split; [reflexivity|]. intros l [].
  - sat_steps.
    + sat_use find_by_text_spec; [|split; [count_noise | exact I]].
      sat_step. sat_use IH; [|split; [count_noise | exact I]].
      sat_steps. split; [count_noise|].
      intros l [Hl|Hl].
      * injection Hl as ->. exists text. split; [left; reflexivity | exact Hs].
      * destruct (Hs0 l Hl) as [text' [Hin Hf]]. exists text'.
        split; [right; exact Hin | exact Hf].
    + sat_use IH; [|split; [exact Hq | exact I]].
      split; [exact Hq|]. intros l Hl.
      destruct (Hs l Hl) as [text' [Hin Hf]]. exists text'.
      split; [right; exact Hin | exact Hf].
Qed.

Lemma try_click_text_spec (p : page) (texts : list string) :
  sat (W:=W) (_try_click_text p texts)
    (fun o t =>
       noise t = 0%nat /\
       match o with
       | Returned true => clicked_text p texts t
       | Returned false => True
       | Raised _ => True
       | Diverged => False
       end).
Proof.
  unfold _try_click_text. sat_step.
  sat_use find_each_text_spec; [|split; [count_noise | exact I]].
  sat_step. sat_use first_visible_spec; [|split; [count_noise | exact I]].
  destruct a0 as [l|]; [|sat_steps; split; [count_noise | exact I]].
  destruct Hs0 as [Hin [pre ->]].
  sat_step. sat_use safe_click_spec; [|split; [count_noise | exact I]].
  destruct Hs0 as [scrolled ->].
  sat_step. sat_use short_wait_spec; [|split; [count_noise | exact I]].
  subst. sat_steps. split; [count_noise|].
  destruct (Hs l Hin) as [text [Htext Hf]].
  exists (t ++ pre), text, l, scrolled. split; [exact Htext|]. split; [exact Hf|].
  rewrite <- ?app_assoc. reflexivity.
Qed.

Lemma handle_privacy_popup_spec (p : page) (email : string) :
  sat (W:=W) (_handle_privacy_popup p email)
    (fun o t =>
       noise t = 0%nat /\
       match o with
       | Returned _ => True
       | Raised e => is_Exception e = false
       | Diverged => False
       end).
Proof.
  unfold _handle_privacy_popup. apply sat_try_except. sat_step.
  sat_use try_click_text_spec.
  - destruct a.
    + sat_use short_wait_spec; [split; [count_noise | exact I]|].
      destruct e; cbv beta iota delta [is_Exception]; sat_steps;
        split; try count_noise; try exact I; reflexivity.
    + sat_step. sat_use try_click_text_spec.
      * destruct a.
        -- sat_use short_wait_spec; [split; [count_noise | exact I]|].
           destruct e; cbv beta iota delta [is_Exception]; sat_steps;
             split; try count_noise; try exact I; reflexivity.
        -- sat_step. sat_use try_click_text_spec.
           ++ destruct a.
              ** sat_use short_wait_spec; [split; [count_noise | exact I]|].
                 destruct e; cbv beta iota delta [is_Exception]; sat_steps;
                   split; try count_noise; try exact I; reflexivity.
              ** sat_steps. split; [count_noise | exact I].
           ++ destruct e; cbv beta iota delta [is_Exception]; sat_steps;
                split; try count_noise; try exact I; reflexivity.
      * destruct e; cbv beta iota delta [is_Exception]; sat_steps;
          split; try count_noise; try exact I; reflexivity.
  - destruct e; cbv beta iota delta [is_Exception]; sat_steps;
      split; try count_noise; try exact I; reflexivity.
Qed.

Lemma first_enabled_spec (buttons : list element) :
  sat (W:=W) (first_enabled buttons)
    (fun o t =>
       noise t = 0%nat /\
       match o with
       | Returned (Some b) =>
           In b buttons /\
           exists skipped, t = skipped ++ [Ev (GetAttribute b "disabled") (Ok None)]
       | Returned None => True
       | Raised _ => True
       | Diverged => False
       end).
Proof.
  assert (Hrest : forall c rest,
    sat (W:=W) (first_enabled rest)
      (fun o t =>
         noise t = 0%nat /\
         match o with
         | Returned (Some b) =>
             In b rest /\
             exists skipped, t = skipped ++ [Ev (GetAttribute b "disabled") (Ok None)]
         | Returned None => True
         | Raised _ => True
         | Diverged => False
         end) ->
    forall t0, noise t0 = 0%nat ->
    sat (W:=W) (first_enabled rest)
      (fun o t =>
         noise (t0 ++ t) = 0%nat /\
         match o with
         | Returned (Some b) =>
             In b (c :: rest) /\
             exists skipped,
               t0 ++ t = skipped ++ [Ev (GetAttribute b "disabled") (Ok None)]
         | Returned None => True
         | Raised _ => True
         | Diverged => False
         end)).
  { intros c rest IH t0 Ht0. sat_use IH.
    - split; [count_noise|]. destruct a as [b|]; [|exact I].
      destruct Hs as [Hin [skipped ->]]. split; [right; exact Hin|].
      exists (t0 ++ skipped). rewrite app_assoc. reflexivity.
    - split; [count_noise | exact I]. }
  induction buttons as [|b rest IH]; cbn [first_enabled].
  - sat_steps. split; [reflexivity | exact I].
  - sat_steps; try (apply (Hrest b rest IH); reflexivity).
    + apply bool_decide_eq_true in Heqb0. subst r.
      split; [count_noise|]. split; [left; reflexivity|].
      exists []. reflexivity.
    + split; [count_noise | exact I].
Qed.

Lemma find_enabled_exam_button_spec (p : page) :
  sat (W:=W) (_find_enabled_exam_button p)
    (fun o t =>
       noise t = 0%nat /\
       match o with
       | Returned (Some b) =>
           exists buttons skipped,
             In b buttons /\
             t = Ev (QuerySelectorAll p ".pr-buttons button") (Ok buttons) :: skipped ++
                   [Ev (GetAttribute b "disabled") (Ok None)]
       | Returned None => True
       | Raised _ => True
       | Diverged => False
       end).
Proof.
  unfold _find_enabled_exam_button. sat_steps.
  - sat_use first_enabled_spec; [|split; [count_noise | exact I]].
    split; [count_noise|]. destruct a as [b|]; [|exact I].
    destruct Hs as [Hin [skipped ->]]. exists r, skipped.
    split; [exact Hin | reflexivity].
  - split; [reflexivity | exact I].
Qed.

Lemma poll_select_modules_spec (p : page) :
  sat (W:=W) (poll_select_modules p)
    (fun o t =>
       noise t = 0%nat /\
       match o with
       | Returned true => clicked_select_modules p t
       | Returned false => True
       | Raised e => is_Exception e = false
       | Diverged => False
       end).
Proof.
  unfold poll_select_modules. apply sat_try_except. sat_step.
  sat_use find_by_text_spec.
  2:{ destruct e; cbv beta iota delta [is_Exception]; sat_steps;
        split; try count_noise; try exact I; reflexivity. }
  sat_steps.
  2:{ split; [count_noise | first [exact I | reflexivity]]. }
  2:{ split; [count_noise | first [exact I | reflexivity]]. }
  2:{ split; [count_noise | first [exact I | reflexivity]]. }
  destruct r. sat_use safe_click_spec.
  2:{ destruct e; cbv beta iota delta [is_Exception]; sat_steps;
        split; try count_noise; try exact I; reflexivity. }
  destruct Hs0 as [scrolled ->]. sat_step. sat_use short_wait_spec.
  2:{ destruct e; cbv beta iota delta [is_Exception]; sat_steps;
        split; try count_noise; try exact I; reflexivity. }
  subst. sat_steps. split; [count_noise|].
  exists t, TXT_SELECT_MODULES, a, scrolled.
  split; [left; reflexivity|]. split; [exact Hs|].
  rewrite <- ?app_assoc. reflexivity.
Qed.

Lemma poll_exam_button_spec (p : page) :
  sat (W:=W) (poll_exam_button p)
    (fun o t =>
       noise t = 0%nat /\
       match o with
       | Returned true => clicked_enabled_button p t
       | Returned false => True
       | Raised e => is_Exception e = false
       | Diverged => False
       end).
Proof.
  unfold poll_exam_button. apply sat_try_except. sat_step.
  sat_use find_enabled_exam_button_spec.
  2:{ destruct e; cbv beta iota delta [is_Exception]; sat_steps;
        split; try count_noise; try exact I; reflexivity. }
  destruct a as [b|].
  2:{ sat_steps. split; [count_noise | first [exact I | reflexivity]]. }
  destruct Hs as [buttons [skipped [Hin ->]]].
  sat_step. sat_use safe_click_spec.
  2:{ destruct e; cbv beta iota delta [is_Exception]; sat_steps;
        split; try count_noise; try exact I; reflexivity. }
  destruct Hs as [scrolled ->]. sat_step. sat_use short_wait_spec.
  2:{ destruct e; cbv beta iota delta [is_Exception]; sat_steps;
        split; try count_noise; try exact I; reflexivity. }
  subst. sat_steps. split; [count_noise|].
  exists [], buttons, skipped, b, scrolled. split; [exact Hin|].
  cbn [app]. rewrite <- ?app_assoc. reflexivity.
Qed.

Lemma clicked_text_after (p : page) (texts : list string) (t0 t : list event) :
  clicked_text p texts t -> clicked_text p texts (t0 ++ t).
Proof.
  intros (pre & text & l & scrolled & Hin & Hf & ->).
  exists (t0 ++ pre), text, l, scrolled.
  rewrite <- app_assoc. auto.
Qed.

Lemma clicked_enabled_button_after (p : page) (t0 t : list event) :
  clicked_enabled_button p t -> clicked_enabled_button p (t0 ++ t).
Proof.
  intros (pre & buttons & skipped & b & scrolled & Hin & ->).
  exists (t0 ++ pre), buttons, skipped, b, scrolled.
  rewrite <- app_assoc. auto.
Qed.

End Helpers.

(** ** The poll loop *)

Lemma slips_out_after (e : exn) (t0 t : list event) :
  slips_out e t -> slips_out e (t0 ++ t).
Proof.
  intros [Hb|[(pre & d & ->)|(pre & ->)]].
  - left. exact Hb.
  - right. left. exists (t0 ++ pre), d. rewrite <- app_assoc. reflexivity.
  - right. right. exists (t0 ++ pre). rewrite <- app_assoc. reflexivity.
Qed.

Lemma poll_outcome_after (fuel : nat) (p : page) (o : outcome unit)
  (t0 t : list event) :
  reloads t0 = 1%nat ->
  poll_outcome fuel p o t -> poll_outcome (S fuel) p o (t0 ++ t).
Proof.
  intros H0 Ho. destruct o as [u|e|]; cbn [poll_outcome] in *.
  - destruct Ho as [Ho|Ho]; [left | right].
    + apply clicked_text_after, Ho.
    + apply clicked_enabled_button_after, Ho.
  - apply slips_out_after, Ho.
  - rewrite reloads_app. lia.
Qed.

(** C4.  In every world and for every amount of fuel, the poll loop returns
    only with a trace that ends in a successful click, either on the SELECT
    MODULES control found visible or on a button of the container found
    without the [disabled] attribute.  When it has not returned after [fuel]
    iterations it has asked for exactly [fuel] reloads, one per iteration; the
    only other way out is an exception that slips out. *)
Theorem poll_leaves_only_by_click {W : Type} `{World W}
  (fuel : nat) (p : page) (email : string) :
  sat (W:=W) (_poll_until_select_modules fuel p email) (poll_outcome fuel p).
Proof.
  induction fuel as [|fuel IH]; cbn [_poll_until_select_modules].
  - sat_steps. reflexivity.
  - sat_step. sat_use poll_select_modules_spec.
    2:{ left. assumption. }
    destruct a.
    { sat_steps. left. rewrite app_nil_r. assumption. }
    sat_step. sat_use poll_exam_button_spec.
    2:{ left. assumption. }
    destruct a.
    { sat_steps. right. rewrite app_nil_r.
      apply clicked_enabled_button_after; assumption. }
    unfold _rand_refresh_delay. sat_steps.
    + (* the page reloaded *)
      sat_use short_wait_spec.
      2:{ subst. right. left. eexists _, _. rewrite !app_assoc. reflexivity. }
      subst. sat_step. sat_use handle_privacy_popup_spec.
      2:{ left. assumption. }
      eapply sat_conseq; [apply IH|]. intros o t2 Ho.
      rewrite !app_assoc. apply poll_outcome_after; [count_reloads | exact Ho].
    + (* the reload timed out *)
      eapply sat_conseq; [apply IH|]. intros o t2 Ho.
      rewrite !app_assoc. apply poll_outcome_after; [count_reloads | exact Ho].
    + (* the reload failed otherwise *)
      eapply sat_conseq; [apply IH|]. intros o t2 Ho.
      rewrite !app_assoc. apply poll_outcome_after; [count_reloads | exact Ho].
    + left. reflexivity.
    + right. left. eexists _, _. rewrite !app_assoc. reflexivity.
    + right. right. eexists. rewrite !app_assoc. reflexivity.
Qed.

(** On a site that opens at the third page load the loop returns after
    three reloads; on a site that never opens it is still reloading after
    any number of iterations tried, here 25. *)
Example poll_returns_once_booking_opens :
  let r := @_poll_until_select_modules sim (sim_world opening_site) 10 1%nat
             "alice@example.com" sim0 in
  r.1.1 = Returned tt /\ reloads r.2 = 3%nat.
Proof. vm_compute. split; reflexivity. Qed.

Example poll_keeps_reloading :
  let r := @_poll_until_select_modules sim (sim_world blank_site) 25 1%nat
             "alice@example.com" sim0 in
  r.1.1 = Diverged /\ reloads r.2 = 25%nat.
Proof. vm_compute. split; reflexivity. Qed.

(** ** The step sequencer *)

Lemma bind_returned {W : Type} `{World W} {A B} (c : M W A) (k : A -> M W B)
  (w w1 w2 : W) (a : A) (o : outcome B) (t1 t2 : list event) :
  c w = (Returned a, w1, t1) ->
  k a w1 = (o, w2, t2) ->
  bind c k w = (o, w2, t1 ++ t2).
Proof. intros Hc Hk. unfold bind. rewrite Hc, Hk. reflexivity. Qed.

Lemma run_steps_gives_up {W : Type} `{World W}
  (done_ : list (M W bool)) (failing : M W bool) (later : list (M W bool))
  (then_ : M W bool) (w w3 w4 : W) (t3 t4 : list event) :
  all_succeed done_ w w3 t3 ->
  failing w3 = (Returned false, w4, t4) ->
  run_steps (done_ ++ failing :: later) then_ w = (Returned false, w4, t3 ++ t4).
Proof.
  intros Hdone Hfail. induction Hdone as [w|step rest w w1 w2 t1 t2 Hstep _ IH].
  - cbn [app run_steps]. unfold bind. rewrite Hfail.
    cbn. rewrite app_nil_r. reflexivity.
  - cbn [app run_steps]. rewrite <- app_assoc.
    eapply bind_returned; [exact Hstep|]. cbn [negb]. apply IH, Hfail.
Qed.

(** In every world and at every step of the sequencer: when the steps before
    it returned [True] and this one returns [False] (its control was not
    found, and it has navigated back to the start page), [run_booking]
    returns [False] there and then.  Nothing follows the step's own trace:
    the poll loop is not entered again. *)
Lemma run_booking_gives_up {W : Type} `{World W}
  (fuel : nat) (p : page) (s : Student)
  (done_ : list (M W bool)) (failing : M W bool) (later : list (M W bool))
  (w w1 w2 w3 w4 : W) (t1 t2 t3 t4 : list event) :
  sequencer_steps p s = done_ ++ failing :: later ->
  _goto_start p (email s) w = (Returned tt, w1, t1) ->
  _poll_until_select_modules fuel p (email s) w1 = (Returned tt, w2, t2) ->
  all_succeed done_ w2 w3 t3 ->
  failing w3 = (Returned false, w4, t4) ->
  run_booking fuel p s w = (Returned false, w4, t1 ++ t2 ++ t3 ++ t4).
Proof.
  intros Hsteps Hstart Hpoll Hdone Hfail.
  change (run_booking fuel p s) with
    (_goto_start p (email s) ;;
     _poll_until_select_modules fuel p (email s) ;;
     run_steps (sequencer_steps p s)
       (visible <- try_except
                     (conf <- _find_by_text p TXT_CONFIRMATION ;;
                      call (WaitFor conf "visible" 30000) ;;
                      ret true)
                     (fun _ => ret false) ;;
        if negb visible then _goto_start p (email s) ;; ret false else
        _install_doubleclick_stop p new_alarm (email s) ;;
        wait_stopped fuel (start new_alarm) ;;
        ret true)).
  eapply bind_returned; [exact Hstart|].
  eapply bind_returned; [exact Hpoll|].
  rewrite Hsteps. apply (run_steps_gives_up done_ failing later _ w2 w3 w4); assumption.
Qed.

(** The login step of a site that has no email field is such a step: the two
    steps before it succeed, it fails, and the run is over. *)
Example run_booking_gives_up_at_login :
  (@run_booking sim (sim_world no_login_site) 5 1%nat alice sim0).1.1 =
  Returned false.
Proof.
  set (wd := sim_world no_login_site).
  rewrite (@run_booking_gives_up sim wd 5 1%nat alice
             [@_advance_or_restart sim wd 1%nat [TXT_CONTINUE] (email alice);
              @_advance_or_restart sim wd 1%nat [TXT_BOOK_FOR_MYSELF] (email alice)]
             (@_login sim wd 1%nat alice)
             [@_fill_personal_form sim wd 1%nat alice;
              @_advance_or_restart sim wd 1%nat [TXT_CONTINUE] (email alice);
              @_advance_or_restart sim wd 1%nat [TXT_ORDER_SUBJECT_TO_CHANGE]
                (email alice)]
             sim0 (Sim 1 0 0 0) (Sim 1 1 0 0) (Sim 1 3 0 0) (Sim 2 0 0 0)
             (@_goto_start sim wd 1%nat (email alice) sim0).2
             (@_poll_until_select_modules sim wd 5 1%nat (email alice)
                (Sim 1 0 0 0)).2
             ((@_advance_or_restart sim wd 1%nat [TXT_CONTINUE] (email alice)
                 (Sim 1 1 0 0)).2 ++
              (@_advance_or_restart sim wd 1%nat [TXT_BOOK_FOR_MYSELF]
                 (email alice) (Sim 1 2 0 0)).2 ++ [])
             (@_login sim wd 1%nat alice (Sim 1 3 0 0)).2).
  - reflexivity.
  - reflexivity.
  - vm_compute. reflexivity.
  - vm_compute. reflexivity.
  - apply (succeed_cons _ _ _ (Sim 1 2 0 0)); [vm_compute; reflexivity|].
    apply (succeed_cons _ _ _ (Sim 1 3 0 0)); [vm_compute; reflexivity|].
    apply succeed_nil.
  - vm_compute. reflexivity.
Qed.

(** C1, at the failing input.  On a site where SELECT MODULES shows at once
    and CONTINUE never does, the orchestrator reports the student as failed
    after a single pass: one wait for SELECT MODULES, one wait for CONTINUE,
    and two navigations (the start and the restart). *)
Theorem missing_control_abandons_run :
  let r := @main_async sim (sim_world stalled_site) 5 true [alice] sim0 in
  r.1.1 = Returned [("alice@example.com", false)] /\
  waits_for TXT_SELECT_MODULES r.2 = 1%nat /\
  waits_for TXT_CONTINUE r.2 = 1%nat /\
  navigations r.2 = 2%nat.
Proof. vm_compute. repeat split; reflexivity. Qed.

(** ** The orchestrator *)

(** C3.  Once the student's context and page are open, whatever the booking
    flow does short of running forever (success, failure, or an exception),
    the next primitive call after the flow is the closing of that context,
    ahead of everything that concerns the remaining students. *)
Theorem context_closed_on_every_outcome {W : Type} `{World W}
  (fuel : nat) (b : browser) (headless : bool)
  (s : Student) (rest : list Student) (results : list (string * bool))
  (w w1 w2 w3 : W) (c : context) (p : page)
  (o : outcome bool) (t3 : list event) :
  perform (NewContext b 1280 800) w = (Ok c, w1) ->
  perform (NewPage c) w1 = (Ok p, w2) ->
  run_booking fuel p s w2 = (o, w3, t3) ->
  o <> Diverged ->
  exists later,
    (run_students fuel b headless (s :: rest) results w).2 =
    [Ev (NewContext b 1280 800) (Ok c); Ev (NewPage c) (Ok p)] ++ t3 ++
    Ev (CloseContext c) (perform (CloseContext c) w3).1 :: later.
Proof.
  intros Hctx Hpage Hrun Hends.
  cbn [run_students]. unfold _run_for_student, _new_context.
  unfold bind at 1. unfold bind at 1. unfold call at 1. rewrite Hctx. cbn.
  unfold bind at 1. unfold call at 1. rewrite Hpage. cbn.
  unfold bind at 1. unfold try_finally. rewrite Hrun.
  unfold call. destruct (perform (CloseContext c) w3) as [[[]|e'] w4];
    destruct o as [ok|e|]; try contradiction; cbn.
  - destruct (run_students fuel b headless rest _ w4) as [[o' w'] t'].
    cbn. rewrite <- ?app_assoc. cbn. eexists. reflexivity.
  - exists []. rewrite <- ?app_assoc. reflexivity.
  - exists []. rewrite <- ?app_assoc. reflexivity.
  - exists []. rewrite <- ?app_assoc. reflexivity.
Qed.


Lemma context_closed_on_every_outcome_witness :
  exists later,
    (@run_students sim (sim_world stalled_site) 5 1%nat true [alice; bob] [] sim0).2 =
    [Ev (NewContext 1%nat 1280 800) (Ok 1%nat); Ev (NewPage 1%nat) (Ok 1%nat)] ++
    (@run_booking sim (sim_world stalled_site) 5 1%nat alice (Sim 0 0 0 1)).2 ++
    Ev (CloseContext 1%nat) (Ok tt) :: later.
Proof.
  apply (@context_closed_on_every_outcome sim (sim_world stalled_site)
           5 1%nat true alice [bob] [] sim0 (Sim 0 0 0 1) (Sim 0 0 0 1)
           (@run_booking sim (sim_world stalled_site) 5 1%nat alice (Sim 0 0 0 1)).1.2
           1%nat 1%nat (Returned false)
           (@run_booking sim (sim_world stalled_site) 5 1%nat alice (Sim 0 0 0 1)).2).
  - reflexivity.
  - reflexivity.
  - vm_compute. reflexivity.
  - discriminate.
Defined.



(** The exception then leaves [main_async] as well: the browser is not
    closed, the Playwright driver is stopped, and no result list is
    returned. *)
Lemma main_async_propagates {W : Type} `{World W}
  (fuel : nat) (headless : bool) (students : list Student)
  (w w1 w2 w3 w4 : W) (b : browser) (e : exn) (t3 : list event) :
  perform StartPlaywright w = (Ok tt, w1) ->
  perform (Launch headless) w1 = (Ok b, w2) ->
  run_students fuel b headless students [] w2 = (Raised e, w3, t3) ->
  perform StopPlaywright w3 = (Ok tt, w4) ->
  main_async fuel headless students w =
  (Raised e, w4,
   [Ev StartPlaywright (Ok tt); Ev (Launch headless) (Ok b)] ++ t3 ++
   [Ev StopPlaywright (Ok tt)]).
Proof.
  intros Hstart Hlaunch Hrun Hstop. unfold main_async.
  unfold bind at 1. unfold call at 1. rewrite Hstart. cbn.
  unfold try_finally. unfold bind at 1. unfold call at 1. rewrite Hlaunch. cbn.
  unfold bind at 1. rewrite Hrun. unfold call. rewrite Hstop. cbn.
  rewrite <- ?app_assoc. reflexivity.
Qed.

(** ** Login *)

Lemma fill_first_spec {W : Type} `{World W}
  (p : page) (selectors : list string) (value : string) :
  sat (W:=W) (fill_first p selectors value)
    (fun o t =>
       noise t = 0%nat /\
       match o with
       | Returned true => filled_field p selectors value t
       | Returned false => nothing_filled t
       | Raised e => is_Exception e = false
       | Diverged => False
       end).
Proof.
  induction selectors as [|sel rest IH]; cbn [fill_first].
  - sat_steps. split; [reflexivity|]. intros f v [].
  - assert (Hrest : forall t0,
      noise t0 = 0%nat -> nothing_filled t0 ->
      sat (W:=W) (fill_first p rest value)
        (fun o t =>
           noise (t0 ++ t) = 0%nat /\
           match o with
           | Returned true => filled_field p (sel :: rest) value (t0 ++ t)
           | Returned false => nothing_filled (t0 ++ t)
           | Raised e => is_Exception e = false
           | Diverged => False
           end)).
    { intros t0 Hq0 Hn0. sat_use IH.
      - split; [count_noise|]. destruct a.
        + destruct Hs as (pre & sel' & f & Hin & ->).
          exists (t0 ++ pre), sel', f. split; [right; exact Hin|].
          rewrite <- app_assoc. reflexivity.
        + intros f v Hin. apply in_app_or in Hin as [Hin|Hin].
          * exact (Hn0 f v Hin).
          * exact (Hs f v Hin).
      - split; [count_noise | exact Hs]. }
    sat_steps;
      repeat match goal with u : unit |- _ => destruct u end;
      try (apply Hrest; [reflexivity|];
           intros f' v' Hin; cbn in Hin;
           repeat destruct Hin as [Hin|Hin]; try discriminate Hin; try contradiction);
      try (split; [count_noise | reflexivity]).
    split; [count_noise|].
    exists [], sel, e. split; [left; reflexivity | reflexivity].
Qed.

Lemma bind_outcome {W : Type} `{World W} {A B} (c : M W A) (k : A -> M W B) (w : W) :
  (bind c k w).1.1 =
  match (c w).1.1 with
  | Returned a => (k a (c w).1.2).1.1
  | Raised e => Raised e
  | Diverged => Diverged
  end.
Proof.
  unfold bind. destruct (c w) as [[[a|e|] w1] t1]; cbn; try reflexivity.
  destruct (k a w1) as [[o w2] t2]. reflexivity.
Qed.

Lemma sat_any {W : Type} `{World W} {A} (c : M W A) : sat c (fun _ _ => True).
Proof. intros w. exact I. Qed.

Lemma login_submit_spec {W : Type} `{World W}
  (p : page) (s : Student) (filled : bool) :
  sat (W:=W) (login_submit p s filled)
    (fun o t =>
       o = Returned true ->
       filled = true /\
       exists t3, t = t3 ++ [short_wait_done] /\ clicked_text p login_texts t3).
Proof.
  unfold login_submit. sat_step. destruct filled.
  - sat_use try_click_text_spec; [|discriminate].
    destruct a.
    + sat_step. sat_use short_wait_spec; [|discriminate].
      subst. sat_steps. intros _. split; [reflexivity|].
      exists t. split; [|exact Hs]. rewrite app_nil_r. reflexivity.
    + sat_step. eapply sat_conseq; [apply sat_any|].
      intros [u|e|] t1 _; [|discriminate..]. sat_steps. discriminate.
  - sat_steps. eapply sat_conseq; [apply sat_any|].
    intros [u|e|] t1 _; [|discriminate..]. sat_steps. discriminate.
Qed.

(** C10.  In every world: (1) when [_login] returns [True], its trace holds
    an email field found by a candidate selector and filled with the
    student's email, and, after the password loop, a login control found
    visible and clicked; (2) when the email was filled and the login control
    is clicked, [_login] returns [True] whatever the password loop returned,
    also when it found or filled nothing; (3) when the email loop did not
    return [True], [_login] does not return [True]. *)
Theorem login_needs_email_and_click {W : Type} `{World W} (p : page) (s : Student) :
  sat (W:=W) (_login p s)
    (fun o t =>
       o = Returned true ->
       exists t1 t2 t3,
         t = t1 ++ t2 ++ t3 ++ [short_wait_done] /\
         filled_field p email_selectors (email s) t1 /\
         clicked_text p login_texts t3) /\
  (forall (w w1 w2 w3 w4 : W) (t1 t2 t3 : list event) (pw : bool),
     fill_first p email_selectors (email s) w = (Returned true, w1, t1) ->
     fill_first p pw_selectors (password s) w1 = (Returned pw, w2, t2) ->
     _try_click_text p login_texts w2 = (Returned true, w3, t3) ->
     short_wait STEP_WAIT_MS w3 = (Returned tt, w4, [short_wait_done]) ->
     _login p s w = (Returned true, w4, t1 ++ t2 ++ t3 ++ [short_wait_done])) /\
  (forall w : W,
     (fill_first p email_selectors (email s) w).1.1 <> Returned true ->
     (_login p s w).1.1 <> Returned true).
Proof.
  split; [|split].
  - unfold _login. sat_step. sat_use fill_first_spec; [|discriminate].
    sat_step. sat_use fill_first_spec; [|discriminate].
    eapply sat_conseq; [apply login_submit_spec|].
    intros o t1 Hsub Ho. destruct (Hsub Ho) as [-> (t3 & -> & Hclick)].
    exists t, t0, t3. split; [reflexivity|]. split; assumption.
  - intros w w1 w2 w3 w4 t1 t2 t3 pw Hemail Hpw Hclick Hwait.
    unfold _login, login_submit.
    eapply bind_returned; [exact Hemail|].
    eapply bind_returned; [exact Hpw|].
    eapply bind_returned; [exact Hclick|].
    cbv beta iota. unfold bind. rewrite Hwait. reflexivity.
  - intros w Hemail. unfold _login. rewrite bind_outcome.
    destruct (fill_first p email_selectors (email s) w).1.1 as [[|]|e|];
      try discriminate; [contradiction|].
    rewrite bind_outcome.
    destruct (fill_first p pw_selectors (password s) _).1.1 as [pw|e|];
      try discriminate.
    unfold login_submit. rewrite bind_outcome. cbn [ret fst snd].
    rewrite bind_outcome.
    destruct (_goto_start p (email s) _).1.1; discriminate.
Qed.

Lemma login_needs_email_and_click_witness :
  (@fill_first sim (sim_world login_site) 1%nat pw_selectors (password alice)
     (Sim 0 0 0 0)).1.1 = Returned false /\
  (@_login sim (sim_world login_site) 1%nat alice sim0).1.1 = Returned true.
Proof.
  split; [reflexivity|].
  rewrite (proj1 (proj2 (@login_needs_email_and_click sim (sim_world login_site)
                           1%nat alice))
             sim0 sim0 sim0 (Sim 0 1 0 0) (Sim 0 1 0 0)
             (@fill_first sim (sim_world login_site) 1%nat email_selectors
                (email alice) sim0).2
             (@fill_first sim (sim_world login_site) 1%nat pw_selectors
                (password alice) sim0).2
             (@_try_click_text sim (sim_world login_site) 1%nat login_texts sim0).2
             false);
    reflexivity.
Defined.

(** ** Personal details *)

Lemma fill_by_keyword_spec {W : Type} `{World W}
  (inp : element) (txt : string) (pairs : list (string * string)) :
  sat (W:=W) (fill_by_keyword inp txt pairs)
    (fun o t => o <> Diverged /\ filled_as inp (first_match pairs txt) t).
Proof.
  induction pairs as [|[key val] rest IH]; cbn [fill_by_keyword].
  - sat_steps. split; [discriminate | reflexivity].
  - unfold first_match. cbn [List.find fst].
    destruct (contains key txt); [|exact IH].
    sat_steps; (split; [discriminate|]); cbn [filled_as app].
    + right. exists r, (Ok r0). rewrite Heqb. reflexivity.
    + right. exists r, (Err e). rewrite Heqb. reflexivity.
    + right. exists r, (Ok r0). rewrite Heqb. reflexivity.
    + right. exists r, (Err e). rewrite Heqb. reflexivity.
    + left. exists e. reflexivity.
Qed.

(** C9 fails on the code.  The student has no phone number and the element
    is named [phone_first]: the first keyword of the fixed list that occurs
    in the element's text is [phone], paired with the empty string, yet the
    value filled is the first name, paired with the later keyword [first]. *)
Lemma first_listed_keyword_can_lose :
  let txt := match_txt (Some "phone_first") None None in
  let r := @fill_input sim (sim_world form_site) no_phone 3%nat sim0 in
  first_match (mapping no_phone) txt = Some ("phone", "") /\
  filled_values r.2 = ["Carol"].
Proof. vm_compute. split; reflexivity. Qed.

Lemma fill_input_spec {W : Type} `{World W}
  (student : Student) (inp : element) :
  sat (W:=W) (fill_input student inp)
    (fun o t =>
       handled student inp t /\
       match o with
       | Returned _ => True
       | Raised e => is_Exception e = false
       | Diverged => False
       end).
Proof.
  unfold fill_input. apply sat_try_except.
  apply sat_bind, sat_call. intros [name|e]; cbv beta iota delta [of_answer].
  2:{ assert (Hf : handled student inp [Ev (GetAttribute inp "name") (Err e)]).
      { left. exists e. left. reflexivity. }
      destruct e; cbv beta iota delta [is_Exception]; sat_steps;
        rewrite ?app_nil_r; (split; [exact Hf | first [exact I | reflexivity]]). }
  apply sat_bind, sat_call. intros [placeholder|e]; cbv beta iota delta [of_answer].
  2:{ assert (Hf : handled student inp
                     ([Ev (GetAttribute inp "name") (Ok name)] ++
                      [Ev (GetAttribute inp "placeholder") (Err e)])).
      { left. exists e. right. left. exists name. reflexivity. }
      destruct e; cbv beta iota delta [is_Exception]; sat_steps;
        rewrite ?app_nil_r; (split; [exact Hf | first [exact I | reflexivity]]). }
  apply sat_bind, sat_call. intros [aria|e]; cbv beta iota delta [of_answer].
  2:{ assert (Hf : handled student inp
                     ([Ev (GetAttribute inp "name") (Ok name)] ++
                      [Ev (GetAttribute inp "placeholder") (Ok placeholder)] ++
                      [Ev (GetAttribute inp "aria-label") (Err e)])).
      { left. exists e. right. right. exists name, placeholder. reflexivity. }
      destruct e; cbv beta iota delta [is_Exception]; sat_steps;
        rewrite ?app_nil_r; (split; [exact Hf | first [exact I | reflexivity]]). }
  eapply sat_conseq; [apply fill_by_keyword_spec|].
  intros o t [Hends Hfilled].
  assert (Hh : forall extra,
             extra = [] ->
             handled student inp
               (([Ev (GetAttribute inp "name") (Ok name)] ++
                 [Ev (GetAttribute inp "placeholder") (Ok placeholder)] ++
                 [Ev (GetAttribute inp "aria-label") (Ok aria)] ++ t) ++ extra)).
  { intros extra ->. right. exists name, placeholder, aria, t.
    split; [rewrite app_nil_r; reflexivity | exact Hfilled]. }
  destruct o as [u|e|]; [| |contradiction].
  - split; [|exact I]. rewrite <- (app_nil_r (_ ++ _)). apply Hh. reflexivity.
  - destruct e; cbv beta iota delta [is_Exception]; sat_steps;
      (split; [|first [exact I | reflexivity]]);
      first [ apply Hh; reflexivity
            | rewrite <- (app_nil_r (_ ++ _)); apply Hh; reflexivity ].
Qed.

(** C9, as the code has it.  In every world, for every form element: unless
    reading an attribute raises, the element is handled according to the
    first keyword, among those whose value for this student is not empty,
    that occurs in its lowercased name, placeholder and aria-label: that
    keyword's value is the one selected or filled, once, and without such a
    keyword nothing is filled.  An [Exception] never leaves the handling of
    an element, and the filler goes on to the next one: when the loop over
    the elements returns, its trace is the handling of each element in
    turn. *)
Theorem fill_follows_first_nonempty_keyword {W : Type} `{World W}
  (student : Student) (inputs : list element) :
  sat (W:=W) (fill_inputs student inputs)
    (fun o t =>
       match o with
       | Returned _ =>
           exists ts, t = concat ts /\ Forall2 (handled student) inputs ts
       | Raised e => is_Exception e = false
       | Diverged => False
       end).
Proof.
  induction inputs as [|inp rest IH]; cbn [fill_inputs].
  - sat_steps. exists []. split; [reflexivity | constructor].
  - sat_step. eapply sat_conseq; [apply fill_input_spec|].
    intros [u|e|] t [Hh Ho]; [|exact Ho|contradiction].
    eapply sat_conseq; [apply IH|].
    intros [u'|e|] t' Hrest; [|exact Hrest|contradiction].
    destruct Hrest as (ts & -> & Hall).
    exists (t :: ts). split; [reflexivity|]. constructor; assumption.
Qed.

(** ** Data loading *)

(** C7.  In every world: (1) whenever the loader returns, the list is not
    empty, and the only exceptions that leave it are not [Exception]s;
    (2) without a path it returns the default student alone; (3) for a CSV
    input with no row (a file that cannot be opened, an empty file, a read
    error before the first row) it returns the default student alone. *)
Theorem csv_loader_falls_back_to_default {W : Type} `{World W}
  (path : option string) :
  sat (W:=W) (load_students_from_csv path)
    (fun o t =>
       match o with
       | Returned students => students <> []
       | Raised e => is_Exception e = false
       | Diverged => False
       end) /\
  (forall w : W,
     path = None \/ path = Some "" ->
     load_students_from_csv path w = (Returned [DUMMY_STUDENT], w, [])) /\
  (forall (file : string) (w w' : W) (a : answer csv_reader),
     path = Some file ->
     file <> "" ->
     perform (OpenCsv file) w = (a, w') ->
     zero_rows a ->
     ordinary a ->
     load_students_from_csv path w =
     (Returned [DUMMY_STUDENT], w', [Ev (OpenCsv file) a])).
Proof.
  split; [|split].
  - unfold load_students_from_csv. destruct path as [file|].
    2:{ sat_steps. discriminate. }
    destruct (negb (nonempty file)).
    { sat_steps. discriminate. }
    sat_step. apply sat_try_except. sat_steps; try discriminate; try reflexivity.
    all: destruct (map from_row (rows r)); discriminate.
  - intros w [->| ->]; reflexivity.
  - intros file w w' a -> Hfile Hopen Hzero Hord.
    unfold load_students_from_csv.
    destruct file as [|c file]; [contradiction|]. cbn [nonempty negb].
    unfold bind, try_except, call. rewrite Hopen.
    destruct a as [reader|e]; cbn in Hzero, Hord |- *.
    + rewrite Hzero. cbn [map].
      destruct (failure reader) as [e|]; [rewrite Hord|]; reflexivity.
    + rewrite Hord. reflexivity.
Qed.

Lemma csv_loader_falls_back_to_default_witness :
  (@load_students_from_csv sim (sim_world csv_site) (Some "missing.csv") sim0).1.1 =
    Returned [DUMMY_STUDENT] /\
  (@load_students_from_csv sim (sim_world csv_site) (Some "empty.csv") sim0).1.1 =
    Returned [DUMMY_STUDENT] /\
  (@load_students_from_csv sim (sim_world csv_site) (Some "latin1.csv") sim0).1.1 =
    Returned [DUMMY_STUDENT].
Proof.
  split; [|split].
  - rewrite (proj2 (proj2 (@csv_loader_falls_back_to_default sim (sim_world csv_site)
                             (Some "missing.csv")))
               "missing.csv" sim0 sim0 (Err (Exception "FileNotFoundError")));
      [reflexivity | reflexivity | discriminate | reflexivity | exact I | reflexivity].
  - rewrite (proj2 (proj2 (@csv_loader_falls_back_to_default sim (sim_world csv_site)
                             (Some "empty.csv")))
               "empty.csv" sim0 sim0 (Ok (CsvReader [] None)));
      [reflexivity | reflexivity | discriminate | reflexivity | reflexivity | exact I].
  - rewrite (proj2 (proj2 (@csv_loader_falls_back_to_default sim (sim_world csv_site)
                             (Some "latin1.csv")))
               "latin1.csv" sim0 sim0
               (Ok (CsvReader [] (Some (Exception "UnicodeDecodeError")))));
      [reflexivity | reflexivity | discriminate | reflexivity | reflexivity | reflexivity].
Defined.

(** C8.  With both flags set, [build_students] returns the embedded default
    student alone, in every world, for every CSV path, without a single
    primitive call: it reads neither a file nor the environment. *)
Theorem both_flags_give_default_student {W : Type} `{World W}
  (csv_path : option string) (w : W) :
  build_students true true csv_path w = (Returned [DUMMY_STUDENT], w, []).
Proof. reflexivity. Qed.

(** ** Binary64 arithmetic *)

Section Binary64Facts.
Import Binary64.

Lemma pow2_pos (e : Z) : (0 < pow2 e)%Q.
Proof. apply Qpower_0_lt. reflexivity. Qed.

Lemma pow2_add (a b : Z) : (pow2 (a + b) == pow2 a * pow2 b)%Q.
Proof. apply Qpower_plus. discriminate. Qed.

Lemma pow2_opp (a : Z) : (pow2 (- a) == / pow2 a)%Q.
Proof. apply Qpower_opp. Qed.

Lemma pow2_le (a b : Z) : (a <= b)%Z -> (pow2 a <= pow2 b)%Q.
Proof. intros Hab. apply Qpower_le_compat_l; [exact Hab | discriminate]. Qed.

Lemma pow2_Z (a : Z) : (0 <= a)%Z -> (inject_Z (2 ^ a) == pow2 a)%Q.
Proof. intros Ha. apply Zpower_Qpower, Ha. Qed.

Lemma frac_le (n1 d1 n2 d2 : Z) :
  (0 < d1)%Z -> (0 < d2)%Z ->
  ((frac n1 d1 <= frac n2 d2)%Q <-> (n1 * d2 <= n2 * d1)%Z).
Proof.
  intros H1 H2. unfold frac, Qle. cbn [Qnum Qden].
  rewrite !Z2Pos.id by assumption. reflexivity.
Qed.

Lemma frac_lt (n1 d1 n2 d2 : Z) :
  (0 < d1)%Z -> (0 < d2)%Z ->
  ((frac n1 d1 < frac n2 d2)%Q <-> (n1 * d2 < n2 * d1)%Z).
Proof.
  intros H1 H2. unfold frac, Qlt. cbn [Qnum Qden].
  rewrite !Z2Pos.id by assumption. reflexivity.
Qed.

Lemma frac_int (n : Z) : (frac n 1 == inject_Z n)%Q.
Proof. reflexivity. Qed.

Lemma frac_mul (n d k : Z) :
  (0 < d)%Z -> (frac (n * k) d == frac n d * inject_Z k)%Q.
Proof.
  intros Hd. unfold frac, Qeq, Qmult, inject_Z. cbn [Qnum Qden].
  rewrite Pos.mul_1_r. reflexivity.
Qed.

Lemma frac_div (n d k : Z) :
  (0 < d)%Z -> (0 < k)%Z -> (frac n (d * k) * inject_Z k == frac n d)%Q.
Proof.
  intros Hd Hk. unfold frac, Qeq, Qmult, inject_Z. cbn [Qnum Qden].
  rewrite Pos.mul_1_r, !Z2Pos.id by lia. ring.
Qed.

Lemma frac_den (n d : Z) :
  (0 < d)%Z -> (frac n d * inject_Z d == inject_Z n)%Q.
Proof.
  intros Hd. unfold frac, Qeq, Qmult, inject_Z. cbn [Qnum Qden].
  rewrite Pos.mul_1_r, !Z2Pos.id by lia. ring.
Qed.

Lemma inject_Z_pos (d : Z) : (0 < d)%Z -> (0 < inject_Z d)%Q.
Proof. intros Hd. change 0%Q with (inject_Z 0). rewrite <- Zlt_Qlt. exact Hd. Qed.

Lemma pow2_succ (a : Z) : (pow2 (a + 1) == 2 * pow2 a)%Q.
Proof. rewrite pow2_add. change (pow2 1) with 2%Q. ring. Qed.

Lemma pow2_cancel (a : Z) : (pow2 a * pow2 (- a) == 1)%Q.
Proof. rewrite <- pow2_add, Z.add_opp_diag_r. reflexivity. Qed.

Lemma scale2_spec (n d k n' d' : Z) :
  (0 < d)%Z ->
  scale2 n d k = (n', d') ->
  (0 < d')%Z /\ (frac n' d' == frac n d * pow2 k)%Q /\
  ((0 <= n)%Z -> (0 <= n')%Z) /\ ((0 < n)%Z -> (0 < n')%Z).
Proof.
  intros Hd. unfold scale2. destruct (0 <=? k)%Z eqn:Hk; intros [= <- <-].
  - apply Z.leb_le in Hk.
    assert (Hp : (0 < 2 ^ k)%Z) by (apply Z.pow_pos_nonneg; lia).
    split; [exact Hd|]. split; [|split; intros; nia].
    rewrite frac_mul by exact Hd. rewrite pow2_Z by exact Hk. reflexivity.
  - apply Z.leb_gt in Hk.
    assert (Hp : (0 < 2 ^ (- k))%Z) by (apply Z.pow_pos_nonneg; lia).
    split; [nia|]. split; [|split; intros; assumption].
    pose proof (frac_div n d (2 ^ (- k)) Hd Hp) as Hdiv.
    rewrite pow2_Z in Hdiv by lia.
    rewrite <- Hdiv, <- Qmult_assoc.
    rewrite (Qmult_comm (pow2 (- k))), pow2_cancel. ring.
Qed.

Lemma floor_log2_spec (n d : Z) :
  (0 < n)%Z -> (0 < d)%Z ->
  (pow2 (floor_log2 n d) <= frac n d)%Q /\
  (frac n d < pow2 (floor_log2 n d + 1))%Q.
Proof.
  intros Hn Hd.
  pose proof (frac_den n d Hd) as Hq.
  pose proof (inject_Z_pos d Hd) as HD.
  destruct (Z.log2_spec n Hn) as [Hn1 Hn2].
  destruct (Z.log2_spec d Hd) as [Hd1 Hd2].
  pose proof (Z.log2_nonneg n) as Ha. pose proof (Z.log2_nonneg d) as Hb.
  rewrite Zle_Qle, pow2_Z in Hn1, Hd1 by lia.
  rewrite Zlt_Qlt, pow2_Z in Hn2, Hd2 by lia.
  unfold Z.succ in Hn2, Hd2. rewrite pow2_succ in Hn2, Hd2.
  set (a := Z.log2 n) in *. set (b := Z.log2 d) in *.
  assert (Hg : (pow2 (a - b) * pow2 b == pow2 a)%Q).
  { rewrite <- pow2_add. replace (a - b + b)%Z with a by lia. reflexivity. }
  pose proof (pow2_pos (a - b)) as Hpg. pose proof (pow2_pos b) as Hpb.
  assert (Hlow : (pow2 (a - b) < 2 * frac n d)%Q) by nra.
  assert (Hhigh : (frac n d < 2 * pow2 (a - b))%Q) by nra.
  unfold floor_log2. fold a b.
  destruct (scale2 n d (- (a - b))) as [n' d'] eqn:Hs.
  destruct (scale2_spec n d (- (a - b)) n' d' Hd Hs) as (Hd' & Hv & _ & _).
  pose proof (pow2_cancel (a - b)) as Hc.
  destruct (d' <=? n')%Z eqn:Ht.
  - apply Z.leb_le in Ht.
    assert (H1 : (frac 1 1 <= frac n' d')%Q) by (apply frac_le; lia).
    rewrite Hv in H1. change (frac 1 1) with 1%Q in H1.
    pose proof (pow2_pos (- (a - b))) as Hpn.
    split; [nra|]. rewrite pow2_succ. exact Hhigh.
  - apply Z.leb_gt in Ht.
    assert (H1 : (frac n' d' < frac 1 1)%Q) by (apply frac_lt; lia).
    rewrite Hv in H1. change (frac 1 1) with 1%Q in H1.
    pose proof (pow2_pos (- (a - b))) as Hpn.
    replace (a - b - 1 + 1)%Z with (a - b)%Z by lia.
    assert (Hhalf : (2 * pow2 (a - b - 1) == pow2 (a - b))%Q).
    { rewrite <- pow2_succ. replace (a - b - 1 + 1)%Z with (a - b)%Z by lia.
      reflexivity. }
    split; nra.
Qed.

Lemma rne_cases (n d : Z) :
  (0 < d)%Z ->
  (rne n d = n / d /\ 2 * (n mod d) <= d)%Z \/
  (rne n d = n / d + 1 /\ d <= 2 * (n mod d))%Z.
Proof.
  intros Hd. unfold rne.
  destruct (Z.compare_spec (2 * (n mod d)) d) as [He|Hl|Hg].
  - destruct (Z.even (n / d)); [left | right]; lia.
  - left. lia.
  - right. lia.
Qed.

Lemma rne_le_int (n d k : Z) :
  (0 < d)%Z -> (n <= k * d)%Z -> (rne n d <= k)%Z.
Proof.
  intros Hd Hk.
  pose proof (Z.div_mod n d ltac:(lia)) as Hdm.
  pose proof (Z.mod_pos_bound n d Hd) as Hr.
  destruct (rne_cases n d Hd) as [[-> _]|[-> Hhalf]]; nia.
Qed.

Lemma rne_ge_int (n d k : Z) :
  (0 < d)%Z -> (k * d <= n)%Z -> (k <= rne n d)%Z.
Proof.
  intros Hd Hk.
  pose proof (Z.div_mod n d ltac:(lia)) as Hdm.
  pose proof (Z.mod_pos_bound n d Hd) as Hr.
  destruct (rne_cases n d Hd) as [[-> _]|[-> Hhalf]]; nia.
Qed.

Lemma rne_mono (n1 d1 n2 d2 : Z) :
  (0 < d1)%Z -> (0 < d2)%Z ->
  (n1 * d2 <= n2 * d1)%Z ->
  (rne n1 d1 <= rne n2 d2)%Z.
Proof.
  intros H1 H2 Hle.
  pose proof (Z.div_mod n1 d1 ltac:(lia)) as Hdm1.
  pose proof (Z.mod_pos_bound n1 d1 H1) as Hr1.
  pose proof (Z.div_mod n2 d2 ltac:(lia)) as Hdm2.
  pose proof (Z.mod_pos_bound n2 d2 H2) as Hr2.
  set (q1 := (n1 / d1)%Z) in *. set (r1 := (n1 mod d1)%Z) in *.
  set (q2 := (n2 / d2)%Z) in *. set (r2 := (n2 mod d2)%Z) in *.
  assert (Hexp : (d1 * d2 * q1 + r1 * d2 <= d1 * d2 * q2 + r2 * d1)%Z).
  { rewrite Hdm1, Hdm2 in Hle. lia. }
  assert (Hb2 : (r2 * d1 < d1 * d2)%Z) by nia.
  assert (Hb1 : (0 <= r1 * d2)%Z) by nia.
  assert (Hq : (q1 <= q2)%Z).
  { apply Z.lt_succ_r. apply (Z.mul_lt_mono_pos_l (d1 * d2)); [nia | lia]. }
  destruct (Z.eq_dec q1 q2) as [Heq|Hne].
  - (* same integer part: compare the remainders *)
    assert (Hrem : (r1 * d2 <= r2 * d1)%Z) by (rewrite Heq in Hexp; lia).
    unfold rne. fold q1 r1 q2 r2. rewrite <- Heq.
    destruct (Z.compare_spec (2 * r1) d1) as [He1|Hl1|Hg1];
      destruct (Z.compare_spec (2 * r2) d2) as [He2|Hl2|Hg2];
      try destruct (Z.even q1); try lia; nia.
  - destruct (rne_cases n1 d1 H1) as [[-> _]|[-> _]];
      destruct (rne_cases n2 d2 H2) as [[-> _]|[-> _]]; fold q1 q2; lia.
Qed.

Lemma pow2_lt_inv (a b : Z) : (pow2 a < pow2 b)%Q -> (a < b)%Z.
Proof.
  intros Hab. apply (Qpower_lt_compat_l_inv (2 # 1)); [exact Hab | reflexivity].
Qed.

Lemma frac_int_le (n d k : Z) :
  (0 < d)%Z -> ((frac n d <= inject_Z k)%Q <-> (n <= k * d)%Z).
Proof.
  intros Hd. rewrite <- frac_int. rewrite (frac_le n d k 1) by lia.
  split; lia.
Qed.

Lemma frac_int_ge (n d k : Z) :
  (0 < d)%Z -> ((inject_Z k <= frac n d)%Q <-> (k * d <= n)%Z).
Proof.
  intros Hd. rewrite <- frac_int. rewrite (frac_le k 1 n d) by lia.
  split; lia.
Qed.

(** The significand that [round] computes, before renormalisation. *)
Lemma round_value (n d n' d' : Z) :
  (0 < n)%Z -> (0 < d)%Z ->
  scale2 n d (- rounding_exponent n d) = (n', d') ->
  (value (round n d) == inject_Z (rne n' d') * pow2 (rounding_exponent n d))%Q.
Proof.
  intros Hn Hd Hs. unfold round.
  destruct (n =? 0)%Z eqn:H0; [apply Z.eqb_eq in H0; lia|].
  rewrite Hs. destruct (rne n' d' =? 2 ^ prec)%Z eqn:Hm.
  - apply Z.eqb_eq in Hm. rewrite Hm. unfold value. cbn [mant expo].
    rewrite pow2_succ.
    change (inject_Z (2 ^ prec)) with (2 * inject_Z (2 ^ (prec - 1)))%Q. ring.
  - reflexivity.
Qed.

Lemma round_mant_le (n d n' d' : Z) :
  (0 < n)%Z -> (0 < d)%Z ->
  scale2 n d (- rounding_exponent n d) = (n', d') ->
  (rne n' d' <= 2 ^ prec)%Z.
Proof.
  intros Hn Hd Hs.
  destruct (scale2_spec _ _ _ _ _ Hd Hs) as (Hd' & Hv & _ & _).
  destruct (floor_log2_spec n d Hn Hd) as [_ Hhigh].
  apply rne_le_int; [exact Hd'|]. apply frac_int_le; [exact Hd'|].
  rewrite Hv. set (e := rounding_exponent n d) in *.
  assert (He : (floor_log2 n d + 1 <= prec + e)%Z).
  { unfold e, rounding_exponent, prec. lia. }
  apply pow2_le in He. rewrite (pow2_add prec e) in He.
  change (inject_Z (2 ^ prec)) with (pow2 prec).
  pose proof (pow2_cancel e) as Hc.
  pose proof (pow2_pos e) as Hpe. pose proof (pow2_pos (- e)) as Hpn.
  pose proof (pow2_pos prec) as Hpp.
  assert (Hlt : (frac n d < pow2 prec * pow2 e)%Q) by lra.
  assert (Hmul : (frac n d * pow2 (- e) < pow2 prec * pow2 e * pow2 (- e))%Q).
  { apply Qmult_lt_compat_r; assumption. }
  rewrite <- Qmult_assoc, Hc, Qmult_1_r in Hmul. lra.
Qed.

Lemma round_mant_ge (n d n' d' : Z) :
  (0 < n)%Z -> (0 < d)%Z ->
  scale2 n d (- rounding_exponent n d) = (n', d') ->
  (emin < rounding_exponent n d)%Z ->
  (2 ^ (prec - 1) <= rne n' d')%Z.
Proof.
  intros Hn Hd Hs Hnormal.
  destruct (scale2_spec _ _ _ _ _ Hd Hs) as (Hd' & Hv & _ & _).
  destruct (floor_log2_spec n d Hn Hd) as [Hlow _].
  apply rne_ge_int; [exact Hd'|]. apply frac_int_ge; [exact Hd'|].
  rewrite Hv. set (e := rounding_exponent n d) in *.
  assert (He : (floor_log2 n d = (prec - 1) + e)%Z).
  { unfold e, rounding_exponent, prec in *. lia. }
  rewrite He, (pow2_add (prec - 1) e) in Hlow.
  change (inject_Z (2 ^ (prec - 1))) with (pow2 (prec - 1)).
  pose proof (pow2_cancel e) as Hc.
  pose proof (pow2_pos e) as Hpe. pose proof (pow2_pos (- e)) as Hpn.
  assert (Hmul : (pow2 (prec - 1) * pow2 e * pow2 (- e) <= frac n d * pow2 (- e))%Q).
  { apply Qmult_le_compat_r; [exact Hlow | lra]. }
  rewrite <- Qmult_assoc, Hc, Qmult_1_r in Hmul. exact Hmul.
Qed.

Lemma round_zero (d : Z) : (value (round 0 d) == 0)%Q.
Proof. unfold round, value. cbn. ring. Qed.

Lemma round_nonneg (n d : Z) :
  (0 <= n)%Z -> (0 < d)%Z -> (0 <= value (round n d))%Q.
Proof.
  intros Hn Hd. destruct (Z.eq_dec n 0) as [-> | Hne].
  - rewrite round_zero. lra.
  - destruct (scale2 n d (- rounding_exponent n d)) as [n' d'] eqn:Hs.
    rewrite (round_value n d n' d') by (lia || exact Hs).
    destruct (scale2_spec _ _ _ _ _ Hd Hs) as (Hd' & _ & Hn' & _).
    assert (Hm : (0 <= rne n' d')%Z) by (apply rne_ge_int; [exact Hd' | lia]).
    rewrite Zle_Qle in Hm. change (inject_Z 0) with 0%Q in Hm.
    pose proof (pow2_pos (rounding_exponent n d)). nra.
Qed.

(** Rounding to nearest is monotone. *)
Lemma round_mono (n1 d1 n2 d2 : Z) :
  (0 <= n1)%Z -> (0 < d1)%Z -> (0 < d2)%Z ->
  (frac n1 d1 <= frac n2 d2)%Q ->
  (value (round n1 d1) <= value (round n2 d2))%Q.
Proof.
  intros Hn1 Hd1 Hd2 Hle.
  assert (Hcross : (n1 * d2 <= n2 * d1)%Z) by (apply frac_le; assumption).
  destruct (Z.eq_dec n1 0) as [-> | Hne].
  { rewrite round_zero. apply round_nonneg; [nia | exact Hd2]. }
  assert (Hp1 : (0 < n1)%Z) by lia.
  assert (Hp2 : (0 < n2)%Z) by nia.
  destruct (scale2 n1 d1 (- rounding_exponent n1 d1)) as [n1' d1'] eqn:Hs1.
  destruct (scale2 n2 d2 (- rounding_exponent n2 d2)) as [n2' d2'] eqn:Hs2.
  rewrite (round_value n1 d1 n1' d1' Hp1 Hd1 Hs1).
  rewrite (round_value n2 d2 n2' d2' Hp2 Hd2 Hs2).
  destruct (scale2_spec _ _ _ _ _ Hd1 Hs1) as (Hd1' & Hv1 & _ & _).
  destruct (scale2_spec _ _ _ _ _ Hd2 Hs2) as (Hd2' & Hv2 & _ & _).
  destruct (floor_log2_spec n1 d1 Hp1 Hd1) as [Hlow1 Hhigh1].
  destruct (floor_log2_spec n2 d2 Hp2 Hd2) as [Hlow2 Hhigh2].
  assert (HE : (floor_log2 n1 d1 <= floor_log2 n2 d2)%Z).
  { apply Z.lt_succ_r. unfold Z.succ. apply pow2_lt_inv. lra. }
  set (e1 := rounding_exponent n1 d1) in *.
  set (e2 := rounding_exponent n2 d2) in *.
  assert (He : (e1 <= e2)%Z) by (unfold e1, e2, rounding_exponent; lia).
  pose proof (pow2_pos e1) as Hpe1. pose proof (pow2_pos e2) as Hpe2.
  destruct (Z.eq_dec e1 e2) as [Heq|Hlt].
  - (* the same exponent: the significands are ordered *)
    assert (Hm : (rne n1' d1' <= rne n2' d2')%Z).
    { apply rne_mono; [exact Hd1' | exact Hd2' |].
      apply frac_le; [exact Hd1' | exact Hd2' |].
      rewrite Hv1, Hv2, Heq. apply Qmult_le_compat_r; [exact Hle|].
      pose proof (pow2_pos (- e2)). lra. }
    rewrite Zle_Qle in Hm. rewrite Heq. nra.
  - (* a lower exponent: at most the bottom of the next binade *)
    assert (Hm1 : (rne n1' d1' <= 2 ^ prec)%Z).
    { apply (round_mant_le n1 d1); assumption. }
    assert (Hm2 : (2 ^ (prec - 1) <= rne n2' d2')%Z).
    { apply (round_mant_ge n2 d2); try assumption.
      fold e2. unfold e1, rounding_exponent in He, Hlt |- *. lia. }
    rewrite Zle_Qle in Hm1, Hm2.
    change (inject_Z (2 ^ prec)) with (2 * pow2 (prec - 1))%Q in Hm1.
    change (inject_Z (2 ^ (prec - 1))) with (pow2 (prec - 1)) in Hm2.
    assert (Hstep : (2 * pow2 e1 <= pow2 e2)%Q).
    { rewrite <- pow2_succ. apply pow2_le. lia. }
    pose proof (pow2_pos (prec - 1)) as Hpp.
    assert (Hrne1 : (0 <= inject_Z (rne n1' d1'))%Q).
    { change 0%Q with (inject_Z 0). rewrite <- Zle_Qle.
      apply rne_ge_int; [exact Hd1'|].
      destruct (scale2_spec _ _ _ _ _ Hd1 Hs1) as (_ & _ & Hn' & _). lia. }
    apply Qle_trans with (2 * pow2 (prec - 1) * pow2 e1)%Q; [nra|].
    apply Qle_trans with (pow2 (prec - 1) * pow2 e2)%Q; nra.
Qed.

Lemma round_mant_nonneg (n d : Z) :
  (0 <= n)%Z -> (0 < d)%Z -> (0 <= mant (round n d))%Z.
Proof.
  intros Hn Hd. unfold round. destruct (n =? 0)%Z eqn:H0; [cbn; lia|].
  destruct (scale2 n d (- rounding_exponent n d)) as [n' d'] eqn:Hs.
  destruct (scale2_spec _ _ _ _ _ Hd Hs) as (Hd' & _ & Hn' & _).
  destruct (rne n' d' =? 2 ^ prec)%Z; cbn [mant]; [unfold prec; lia|].
  apply rne_ge_int; [exact Hd' | lia].
Qed.

(** What each operation rounds. *)
Lemma mul_rounds (x y : float) :
  exists n d,
    mul x y = round n d /\ (0 < d)%Z /\
    ((0 <= mant x)%Z -> (0 <= mant y)%Z -> (0 <= n)%Z) /\
    (frac n d == value x * value y)%Q.
Proof.
  unfold mul.
  destruct (scale2 (mant x * mant y) 1 (expo x + expo y)) as [n d] eqn:Hs.
  destruct (scale2_spec _ _ _ _ _ Z.lt_0_1 Hs) as (Hd & Hv & Hn & _).
  exists n, d. split; [reflexivity|]. split; [exact Hd|].
  split; [intros; apply Hn; nia|].
  rewrite Hv, frac_int, inject_Z_mult, pow2_add. unfold value. ring.
Qed.

Lemma add_rounds (x y : float) :
  exists n d,
    add x y = round n d /\ (0 < d)%Z /\
    ((0 <= mant x)%Z -> (0 <= mant y)%Z -> (0 <= n)%Z) /\
    (frac n d == value x + value y)%Q.
Proof.
  unfold add. set (e := Z.min (expo x) (expo y)).
  destruct (scale2 (mant x * 2 ^ (expo x - e) + mant y * 2 ^ (expo y - e)) 1 e)
    as [n d] eqn:Hs.
  destruct (scale2_spec _ _ _ _ _ Z.lt_0_1 Hs) as (Hd & Hv & Hn & _).
  exists n, d. split; [reflexivity|]. split; [exact Hd|].
  assert (Hx : (0 <= expo x - e)%Z) by (unfold e; lia).
  assert (Hy : (0 <= expo y - e)%Z) by (unfold e; lia).
  split.
  - intros Hmx Hmy. apply Hn.
    pose proof (Z.pow_nonneg 2 (expo x - e) ltac:(lia)).
    pose proof (Z.pow_nonneg 2 (expo y - e) ltac:(lia)). nia.
  - rewrite Hv, frac_int, inject_Z_plus, !inject_Z_mult, !pow2_Z by assumption.
    unfold value.
    replace (expo x) with ((expo x - e) + e)%Z at 2 by lia.
    replace (expo y) with ((expo y - e) + e)%Z at 2 by lia.
    rewrite !pow2_add. ring.
Qed.

Lemma div_rounds (x y : float) :
  (0 < mant y)%Z ->
  exists n d,
    div x y = round n d /\ (0 < d)%Z /\
    ((0 <= mant x)%Z -> (0 <= n)%Z) /\
    (frac n d * value y == value x)%Q.
Proof.
  intros Hy. unfold div.
  destruct (scale2 (mant x) (mant y) (expo x - expo y)) as [n d] eqn:Hs.
  destruct (scale2_spec _ _ _ _ _ Hy Hs) as (Hd & Hv & Hn & _).
  exists n, d. split; [reflexivity|]. split; [exact Hd|]. split; [exact Hn|].
  rewrite Hv. unfold value.
  replace (expo x) with ((expo x - expo y) + expo y)%Z at 2 by lia.
  rewrite (pow2_add (expo x - expo y) (expo y)).
  rewrite <- (frac_den (mant x) (mant y) Hy). ring.
Qed.

Lemma mul_mono (x y1 y2 : float) :
  (0 <= mant x)%Z -> (0 <= mant y1)%Z ->
  (value y1 <= value y2)%Q ->
  (value (mul x y1) <= value (mul x y2))%Q.
Proof.
  intros Hx Hy1 Hle.
  destruct (mul_rounds x y1) as (n1 & d1 & -> & Hd1 & Hn1 & Hv1).
  destruct (mul_rounds x y2) as (n2 & d2 & -> & Hd2 & _ & Hv2).
  apply round_mono; [apply Hn1; assumption | exact Hd1 | exact Hd2 |].
  rewrite Hv1, Hv2.
  assert (Hvx : (0 <= value x)%Q).
  { unfold value. pose proof (pow2_pos (expo x)).
    rewrite Zle_Qle in Hx. change (inject_Z 0) with 0%Q in Hx. nra. }
  nra.
Qed.

Lemma add_mono (x y1 y2 : float) :
  (0 <= mant x)%Z -> (0 <= mant y1)%Z ->
  (value y1 <= value y2)%Q ->
  (value (add x y1) <= value (add x y2))%Q.
Proof.
  intros Hx Hy1 Hle.
  destruct (add_rounds x y1) as (n1 & d1 & -> & Hd1 & Hn1 & Hv1).
  destruct (add_rounds x y2) as (n2 & d2 & -> & Hd2 & _ & Hv2).
  apply round_mono; [apply Hn1; assumption | exact Hd1 | exact Hd2 |].
  rewrite Hv1, Hv2. lra.
Qed.

Lemma div_mono (x1 x2 y : float) :
  (0 <= mant x1)%Z -> (0 < mant y)%Z ->
  (value x1 <= value x2)%Q ->
  (value (div x1 y) <= value (div x2 y))%Q.
Proof.
  intros Hx1 Hy Hle.
  destruct (div_rounds x1 y Hy) as (n1 & d1 & -> & Hd1 & Hn1 & Hv1).
  destruct (div_rounds x2 y Hy) as (n2 & d2 & -> & Hd2 & _ & Hv2).
  apply round_mono; [apply Hn1; assumption | exact Hd1 | exact Hd2 |].
  assert (Hvy : (0 < value y)%Q).
  { unfold value. pose proof (pow2_pos (expo y)).
    rewrite Zlt_Qlt in Hy. change (inject_Z 0) with 0%Q in Hy. nra. }
  rewrite <- Hv1, <- Hv2 in Hle. nra.
Qed.

(** No binary64 value lies strictly between [below_one] and 1. *)
Lemma below_one_is_largest (r : float) :
  valid r -> (value r < 1)%Q -> (value r <= value below_one)%Q.
Proof.
  intros [[Hm0 Hm1] He] Hlt. unfold value in *. cbn [mant expo below_one].
  set (m := mant r) in *. set (e := expo r) in *.
  pose proof (pow2_pos e) as Hpe.
  assert (HM0 : (0 <= inject_Z m)%Q).
  { change 0%Q with (inject_Z 0). rewrite <- Zle_Qle. exact Hm0. }
  change (inject_Z (2 ^ prec - 1)) with (pow2 prec - 1)%Q.
  pose proof (pow2_cancel prec) as Hc.
  pose proof (pow2_pos prec) as Hpp. pose proof (pow2_pos (- prec)) as Hpn.
  destruct (Z_lt_le_dec e (- prec)) as [Hsmall|Hbig].
  - (* below the last binade under 1 *)
    assert (Hm : (inject_Z m <= pow2 prec - 1)%Q).
    { change (pow2 prec - 1)%Q with (inject_Z (2 ^ prec - 1)).
      rewrite <- Zle_Qle. lia. }
    assert (Hee : (pow2 e <= pow2 (- prec))%Q) by (apply pow2_le; lia).
    nra.
  - destruct (Z_lt_le_dec e 0) as [Hneg|Hpos].
    + (* a multiple of [2 ^ e] below 1 *)
      pose proof (pow2_cancel e) as Hce. pose proof (pow2_pos (- e)) as Hpne.
      assert (Hmlt : (inject_Z m < pow2 (- e))%Q).
      { assert (Hx : (inject_Z m * pow2 e * pow2 (- e) < 1 * pow2 (- e))%Q).
        { apply Qmult_lt_compat_r; assumption. }
        rewrite <- Qmult_assoc, Hce in Hx. lra. }
      rewrite <- pow2_Z in Hmlt by lia. rewrite <- Zlt_Qlt in Hmlt.
      assert (Hm : (inject_Z m <= pow2 (- e) - 1)%Q).
      { rewrite <- pow2_Z by lia.
        change (inject_Z (2 ^ (- e)) - 1)%Q with (inject_Z (2 ^ (- e)) - inject_Z 1)%Q.
        unfold Qminus. rewrite <- inject_Z_opp, <- inject_Z_plus, <- Zle_Qle. lia. }
      assert (Hee : (pow2 (- prec) <= pow2 e)%Q) by (apply pow2_le; lia).
      nra.
    + (* an integer below 1 *)
      assert (Hone : (1 <= pow2 e)%Q).
      { change 1%Q with (pow2 0). apply pow2_le. lia. }
      assert (Hz : (inject_Z m < 1)%Q) by nra.
      change 1%Q with (inject_Z 1) in Hz. rewrite <- Zlt_Qlt in Hz.
      assert (Hzero : m = 0%Z) by lia. rewrite Hzero.
      change (inject_Z 0) with 0%Q.
      assert (Hsmall : (pow2 (- prec) <= 1)%Q).
      { change 1%Q with (pow2 0). apply pow2_le. unfold prec. lia. }
      nra.
Qed.

Lemma round_valid (n d : Z) :
  (0 <= n)%Z -> (0 < d)%Z -> valid (round n d).
Proof.
  intros Hn Hd. pose proof (round_mant_nonneg n d Hn Hd) as Hm. revert Hm.
  unfold round, valid. destruct (n =? 0)%Z eqn:H0.
  { cbn. unfold prec, emin. lia. }
  apply Z.eqb_neq in H0.
  destruct (scale2 n d (- rounding_exponent n d)) as [n' d'] eqn:Hs.
  pose proof (round_mant_le n d n' d' ltac:(lia) Hd Hs) as Hle.
  assert (He : (emin <= rounding_exponent n d)%Z).
  { unfold rounding_exponent. lia. }
  destruct (rne n' d' =? 2 ^ prec)%Z eqn:Hm; cbn [mant expo]; intros Hm0.
  - unfold prec. lia.
  - apply Z.eqb_neq in Hm. lia.
Qed.

End Binary64Facts.

(** ** The reload delay *)

(** C5.  For every binary64 value [r] that the generator can return, that
    is with [0 <= r < 1], the delay [uniform(0, 800) / 1000] computed from
    it in binary64 arithmetic is a binary64 value in [[0, 0.8)]. *)
Theorem refresh_delay_in_range (r : Binary64.float) :
  Binary64.valid r ->
  (Binary64.value r < 1)%Q ->
  Binary64.valid (refresh_delay_of r) /\
  (0 <= Binary64.value (refresh_delay_of r))%Q /\
  (Binary64.value (refresh_delay_of r) < 8 # 10)%Q.
Proof.
  intros Hr Hlt.
  pose proof (below_one_is_largest r Hr Hlt) as Hmax.
  destruct Hr as [[Hm0 _] _].
  unfold refresh_delay_of, uniform.
  set (scaled := Binary64.mul (Binary64.of_int (MAX_REFRESH_MS - 0)) r).
  set (shifted := Binary64.add (Binary64.of_int 0) scaled).
  assert (H800 : (0 <= Binary64.mant (Binary64.of_int (MAX_REFRESH_MS - 0)))%Z)
    by (vm_compute; discriminate).
  assert (H0 : (0 <= Binary64.mant (Binary64.of_int 0))%Z)
    by (vm_compute; discriminate).
  assert (H1000 : (0 < Binary64.mant (Binary64.of_int 1000))%Z)
    by (vm_compute; reflexivity).
  assert (Hscaled : (0 <= Binary64.mant scaled)%Z).
  { unfold scaled.
    destruct (mul_rounds (Binary64.of_int (MAX_REFRESH_MS - 0)) r)
      as (n & d & -> & Hd & Hn & _).
    apply round_mant_nonneg; [apply Hn; assumption | exact Hd]. }
  assert (Hshifted : (0 <= Binary64.mant shifted)%Z).
  { unfold shifted.
    destruct (add_rounds (Binary64.of_int 0) scaled) as (n & d & -> & Hd & Hn & _).
    apply round_mant_nonneg; [apply Hn; assumption | exact Hd]. }
  destruct (div_rounds shifted (Binary64.of_int 1000) H1000)
    as (n & d & Hdiv & Hd & Hn & _).
  split; [|split].
  - rewrite Hdiv. apply round_valid; [apply Hn, Hshifted | exact Hd].
  - rewrite Hdiv. apply round_nonneg; [apply Hn, Hshifted | exact Hd].
  - apply Qle_lt_trans with
      (Binary64.value (refresh_delay_of Binary64.below_one));
      [|vm_compute; reflexivity].
    unfold refresh_delay_of, uniform.
    apply div_mono; [exact Hshifted | exact H1000 |].
    apply add_mono; [exact H0 | exact Hscaled |].
    apply mul_mono; [exact H800 | exact Hm0 | exact Hmax].
Qed.

Lemma refresh_delay_in_range_witness :
  Binary64.valid (refresh_delay_of (Binary64.Float (2 ^ 52) (-53))) /\
  (0 <= Binary64.value (refresh_delay_of (Binary64.Float (2 ^ 52) (-53))))%Q /\
  (Binary64.value (refresh_delay_of (Binary64.Float (2 ^ 52) (-53))) < 8 # 10)%Q.
Proof.
  apply (refresh_delay_in_range (Binary64.Float (2 ^ 52) (-53))).
  - split; [split|]; vm_compute; first [reflexivity | discriminate].
  - vm_compute. reflexivity.
Defined.

Section HardwareSamples.
Import PrimFloat.

(** The model computes what the hardware computes, on sample draws: the
    largest value below 1, one half, a third, the smallest positive number,
    and a subnormal number. *)
Example delay_as_on_hardware :
  Forall
    (fun sample : PrimFloat.float * Binary64.float =>
       FloatOps.Prim2SF (fst sample) = Binary64.to_spec (snd sample) /\
       hardware_delay (fst sample) = Binary64.to_spec (refresh_delay_of (snd sample)))
    [ (0x1.fffffffffffffp-1%float, Binary64.below_one);
      (0x1p-1%float, Binary64.Float (2 ^ 52) (-53));
      (0x1.5555555555555p-2%float, Binary64.Float 6004799503160661 (-54));
      (0x1p-1074%float, Binary64.Float 1 (-1074));
      (0x0.0000000000abcp-1022%float, Binary64.Float 2748 (-1074)) ].
Proof. repeat constructor. Qed.

End HardwareSamples.

(** ** Quiet computations *)

Section Quiet.
Context {W : Type} `{World W}.

Lemma quiet_ret {A} (a : A) : quiet (W:=W) (ret a).
Proof. intros w. split; [reflexivity | discriminate]. Qed.

Lemma quiet_call {R} (o : op R) :
  (forall a, noise [Ev o a] = 0%nat) -> quiet (W:=W) (call o).
Proof.
  intros Ho. apply sat_call. intros [r|e]; (split; [apply Ho | discriminate]).
Qed.

Lemma quiet_bind {A B} (c : M W A) (k : A -> M W B) :
  quiet c -> (forall a, quiet (k a)) -> quiet (bind c k).
Proof.
  intros Hc Hk. apply sat_bind. eapply sat_conseq; [exact Hc|].
  intros [a|e|] t1 [Hq Hends]; [| split; [exact Hq | discriminate] | contradiction].
  eapply sat_conseq; [apply Hk|]. intros o t2 [Hq2 Hends2].
  split; [rewrite noise_app; lia | exact Hends2].
Qed.

Lemma quiet_try_except {A} (c : M W A) (h : exn -> M W A) :
  quiet c -> (forall e, quiet (h e)) -> quiet (try_except c h).
Proof.
  intros Hc Hh. apply sat_try_except. eapply sat_conseq; [exact Hc|].
  intros [a|e|] t1 [Hq Hends]; [split; [exact Hq | discriminate] | | contradiction].
  destruct (is_Exception e); [|split; [exact Hq | discriminate]].
  eapply sat_conseq; [apply Hh|]. intros o t2 [Hq2 Hends2].
  split; [rewrite noise_app; lia | exact Hends2].
Qed.

Lemma quiet_of {A} (c : M W A) (Q : outcome A -> list event -> Prop) :
  sat c (fun o t => noise t = 0%nat /\ Q o t) ->
  (forall t, ~ Q Diverged t) ->
  quiet c.
Proof.
  intros Hc HQ. eapply sat_conseq; [exact Hc|].
  intros o t [Hq Ho]. split; [exact Hq|]. intros ->. exact (HQ t Ho).
Qed.

End Quiet.

(** Prove a computation quiet by following its shape; [tac] closes the calls
    to helpers already known to be quiet. *)
Ltac quiet_with tac :=
repeat first
  [ tac
  | apply quiet_ret
  | match goal with
    | |- quiet (bind _ _) => apply quiet_bind; [|intros ?]
    | |- quiet (try_except _ _) => apply quiet_try_except; [|intros ?]
    | |- quiet (call _) => apply quiet_call; intros ?; reflexivity
    end
  | match goal with
    | |- quiet (if ?b then _ else _) => destruct b
    | |- quiet (match ?x with _ => _ end) => destruct x
    end ].

Section QuietHelpers.
Context {W : Type} `{World W}.

Lemma quiet_short_wait ms : quiet (W:=W) (short_wait ms).
Proof. unfold short_wait. quiet_with fail. Qed.

Lemma quiet_try_click_text p texts : quiet (W:=W) (_try_click_text p texts).
Proof.
  eapply quiet_of; [apply try_click_text_spec|]. intros t Hd. exact Hd.
Qed.

Lemma quiet_handle_privacy_popup p email :
  quiet (W:=W) (_handle_privacy_popup p email).
Proof.
  eapply quiet_of; [apply handle_privacy_popup_spec|]. intros t Hd. exact Hd.
Qed.

Lemma quiet_goto_start p email : quiet (W:=W) (_goto_start p email).
Proof.
  unfold _goto_start.
  quiet_with ltac:(first [apply quiet_short_wait | apply quiet_handle_privacy_popup]).
Qed.

Lemma quiet_advance_or_restart p texts email :
  quiet (W:=W) (_advance_or_restart p texts email).
Proof.
  unfold _advance_or_restart.
  quiet_with ltac:(first [apply quiet_try_click_text | apply quiet_goto_start]).
Qed.

Lemma quiet_fill_first p selectors value :
  quiet (W:=W) (fill_first p selectors value).
Proof.
  eapply quiet_of; [apply fill_first_spec|]. intros t Hd. exact Hd.
Qed.

Lemma quiet_login p student : quiet (W:=W) (_login p student).
Proof.
  unfold _login, login_submit.
  quiet_with ltac:(first [ apply quiet_fill_first | apply quiet_try_click_text
                         | apply quiet_short_wait | apply quiet_goto_start ]).
Qed.

Lemma quiet_fill_by_keyword inp txt pairs :
  quiet (W:=W) (fill_by_keyword inp txt pairs).
Proof.
  induction pairs as [|[key val] rest IH]; cbn [fill_by_keyword].
  - apply quiet_ret.
  - destruct (contains key txt); [|exact IH]. quiet_with fail.
Qed.

Lemma quiet_fill_inputs student inputs :
  quiet (W:=W) (fill_inputs student inputs).
Proof.
  induction inputs as [|inp rest IH]; cbn [fill_inputs].
  - apply quiet_ret.
  - unfold fill_input.
    quiet_with ltac:(first [apply quiet_fill_by_keyword | exact IH]).
Qed.

Lemma quiet_fill_personal_form p student :
  quiet (W:=W) (_fill_personal_form p student).
Proof.
  unfold _fill_personal_form.
  quiet_with ltac:(first [ apply quiet_fill_inputs | apply quiet_try_click_text
                         | apply quiet_goto_start ]).
Qed.

Lemma quiet_find_by_text p text : quiet (W:=W) (_find_by_text p text).
Proof.
  eapply quiet_of; [apply find_by_text_spec|]. intros t Hd. exact Hd.
Qed.

End QuietHelpers.

(** ** The alarm *)

Lemma deliver_stop (n : nat) (a : AlarmController) :
  _stop (deliver n a) = match n with O => _stop a | S _ => true end.
Proof. destruct n; reflexivity. Qed.





(** ** Sessions *)

Lemma alarms_app (t1 t2 : list event) : alarms (t1 ++ t2) = alarms t1 ++ alarms t2.
Proof. apply List.filter_app. Qed.

Section Hushed.
Context {W : Type} `{World W}.

Lemma hushed_quiet {A} (c : M W A) : quiet c -> hushed c.
Proof.
  intros Hc. eapply sat_conseq; [exact Hc|].
  intros o t [Hq _]. apply noise_alarms, Hq.
Qed.

Lemma hushed_ret {A} (a : A) : hushed (W:=W) (ret a).
Proof. intros w. reflexivity. Qed.

Lemma hushed_diverge {A} : hushed (W:=W) (@diverge W A).
Proof. intros w. reflexivity. Qed.

Lemma hushed_call {R} (o : op R) :
  (forall a, alarms [Ev o a] = []) -> hushed (W:=W) (call o).
Proof. intros Ho. apply sat_call. intros a. apply Ho. Qed.

Lemma hushed_bind {A B} (c : M W A) (k : A -> M W B) :
  hushed c -> (forall a, hushed (k a)) -> hushed (bind c k).
Proof.
  intros Hc Hk. apply sat_bind. eapply sat_conseq; [exact Hc|].
  intros [a|e|] t1 H1; [|exact H1..].
  eapply sat_conseq; [apply Hk|]. intros o t2 H2.
  rewrite alarms_app, H1, H2. reflexivity.
Qed.

Lemma hushed_try_except {A} (c : M W A) (h : exn -> M W A) :
  hushed c -> (forall e, hushed (h e)) -> hushed (try_except c h).
Proof.
  intros Hc Hh. apply sat_try_except. eapply sat_conseq; [exact Hc|].
  intros [a|e|] t1 H1; [exact H1| |exact H1].
  destruct (is_Exception e); [|exact H1].
  eapply sat_conseq; [apply Hh|]. intros o t2 H2.
  rewrite alarms_app, H1, H2. reflexivity.
Qed.

Lemma hushed_poll (fuel : nat) (p : page) (email : string) :
  hushed (W:=W) (_poll_until_select_modules fuel p email).
Proof.
  induction fuel as [|fuel IH]; cbn [_poll_until_select_modules].
  - apply hushed_diverge.
  - apply hushed_bind.
    { apply hushed_quiet. eapply quiet_of; [apply poll_select_modules_spec|].
      intros t Hd. exact Hd. }
    intros [|]; [apply hushed_ret|].
    apply hushed_bind.
    { apply hushed_quiet. eapply quiet_of; [apply poll_exam_button_spec|].
      intros t Hd. exact Hd. }
    intros [|]; [apply hushed_ret|].
    apply hushed_bind.
    { unfold _rand_refresh_delay. apply hushed_bind.
      - apply hushed_call. reflexivity.
      - intros r. apply hushed_ret. }
    intros delay. apply hushed_bind; [apply hushed_call; reflexivity|].
    intros _. apply hushed_bind.
    { apply hushed_try_except.
      - apply hushed_bind; [apply hushed_call; reflexivity|].
        intros _. apply hushed_ret.
      - intros e. apply hushed_ret. }
    intros [|]; [|exact IH].
    apply hushed_bind; [apply hushed_quiet, quiet_short_wait|].
    intros _. apply hushed_bind; [apply hushed_quiet, quiet_handle_privacy_popup|].
    intros _. exact IH.
Qed.

End Hushed.



Section Session.
Context {W : Type} `{World W}.




End Session.



(** * Further properties of the code *)

(** ** Footprints *)

Section Only.
Context {W : Type} `{World W}.

Lemma only_ret {A} (ok : event -> bool) (a : A) : only (W:=W) ok (ret a).
Proof. intros w. reflexivity. Qed.

Lemma only_raise {A} (ok : event -> bool) (e : exn) : only (W:=W) ok (@raise W A e).
Proof. intros w. reflexivity. Qed.

Lemma only_diverge {A} (ok : event -> bool) : only (W:=W) ok (@diverge W A).
Proof. intros w. reflexivity. Qed.

Lemma only_call {R} (ok : event -> bool) (o : op R) :
  (forall a, ok (Ev o a) = true) -> only (W:=W) ok (call o).
Proof.
  intros Ho. apply sat_call. intros a. cbn [forallb]. rewrite Ho. reflexivity.
Qed.

Lemma only_bind {A B} (ok : event -> bool) (c : M W A) (k : A -> M W B) :
  only ok c -> (forall a, only ok (k a)) -> only ok (bind c k).
Proof.
  intros Hc Hk. apply sat_bind. eapply sat_conseq; [exact Hc|].
  intros [a|e|] t1 H1; [|exact H1..].
  eapply sat_conseq; [apply Hk|]. intros o t2 H2.
  rewrite forallb_app, H1, H2. reflexivity.
Qed.

Lemma only_try_except {A} (ok : event -> bool) (c : M W A) (h : exn -> M W A) :
  only ok c -> (forall e, only ok (h e)) -> only ok (try_except c h).
Proof.
  intros Hc Hh. apply sat_try_except. eapply sat_conseq; [exact Hc|].
  intros [a|e|] t1 H1; [exact H1| |exact H1].
  destruct (is_Exception e); [|exact H1].
  eapply sat_conseq; [apply Hh|]. intros o t2 H2.
  rewrite forallb_app, H1, H2. reflexivity.
Qed.

Lemma only_try_finally {A} (ok : event -> bool) (c : M W A) (f : M W unit) :
  only ok c -> only ok f -> only ok (try_finally c f).
Proof.
  intros Hc Hf. apply sat_try_finally. eapply sat_conseq; [exact Hc|].
  intros [a|e|] t1 H1; [| |exact H1];
    (eapply sat_conseq; [exact Hf|]); intros [u|e'|] t2 H2;
    rewrite forallb_app, H1, H2; reflexivity.
Qed.

Lemma only_weaken {A} (ok ok' : event -> bool) (c : M W A) :
  (forall e, ok e = true -> ok' e = true) -> only ok c -> only ok' c.
Proof.
  intros Hsub Hc. eapply sat_conseq; [exact Hc|]. intros o t Ht.
  apply forallb_forall. intros e He.
  apply Hsub. exact (proj1 (forallb_forall ok t) Ht e He).
Qed.

End Only.

Lemma looks_stays (p : page) (e : event) : looks p e = true -> stays p e = true.
Proof. intros He. unfold stays. rewrite He. reflexivity. Qed.

Lemma stays_reloading (p : page) (e : event) :
  stays p e = true -> reloading p e = true.
Proof. intros He. unfold reloading. rewrite He. reflexivity. Qed.

Lemma reloading_within_page (p : page) (e : event) :
  reloading p e = true -> within_page p e = true.
Proof. intros He. unfold within_page. rewrite He. reflexivity. Qed.

Lemma rings_within_page (p : page) (e : event) :
  rings p e = true -> within_page p e = true.
Proof. intros He. unfold within_page. rewrite He, orb_true_r. reflexivity. Qed.

Lemma stays_within_page (p : page) (e : event) :
  stays p e = true -> within_page p e = true.
Proof. intros He. apply reloading_within_page, stays_reloading, He. Qed.

(** No event of a trace accepted by [ok] is counted by a filter that [ok]
    excludes. *)
Lemma count_none (f ok : event -> bool) (t : list event) :
  (forall e, ok e = true -> f e = false) ->
  forallb ok t = true ->
  length (List.filter f t) = 0%nat.
Proof.
  intros Hex Ht. induction t as [|e t IH]; [reflexivity|].
  cbn [forallb] in Ht. apply andb_true_iff in Ht as [He Ht].
  cbn [List.filter]. rewrite (Hex e He). apply IH, Ht.
Qed.

Lemma count_app (f : event -> bool) (t1 t2 : list event) :
  length (List.filter f (t1 ++ t2)) =
  (length (List.filter f t1) + length (List.filter f t2))%nat.
Proof. rewrite List.filter_app, length_app. reflexivity. Qed.

Lemma looks_no_click (p : page) (t : list event) :
  forallb (looks p) t = true -> clicks_made t = 0%nat.
Proof.
  apply count_none. intros [R o a] He. destruct o; try discriminate He; reflexivity.
Qed.

Lemma reloading_no_navigation (p : page) (t : list event) :
  forallb (reloading p) t = true -> navigations t = 0%nat.
Proof.
  apply count_none. intros [R o a] He. destruct o; try discriminate He; reflexivity.
Qed.

Lemma stays_no_navigation (p : page) (t : list event) :
  forallb (stays p) t = true -> navigations t = 0%nat.
Proof.
  intros Ht. apply (reloading_no_navigation p), forallb_forall. intros e He.
  apply stays_reloading. exact (proj1 (forallb_forall _ _) Ht e He).
Qed.

Lemma rings_no_navigation (p : page) (t : list event) :
  forallb (rings p) t = true -> navigations t = 0%nat.
Proof.
  apply count_none. intros [R o a] He. destruct o; try discriminate He; reflexivity.
Qed.

(** Accept the event of a primitive call whose page is the one at hand. *)
Ltac accept_event :=
cbv beta iota delta [looks stays reloading rings within_page on_target page_of
                     is_data_source];
rewrite ?Nat.eqb_refl; reflexivity.

(** Prove a footprint by following the shape of the computation; [tac]
    closes the calls to helpers whose footprint is known. *)
Ltac only_with tac :=
repeat first
  [ tac
  | match goal with
    | |- only _ (ret _) => apply only_ret
    | |- only _ (raise _) => apply only_raise
    | |- only _ diverge => apply only_diverge
    | |- only _ (bind _ _) => apply only_bind; [|intros ?]
    | |- only _ (try_except _ _) => apply only_try_except; [|intros ?]
    | |- only _ (try_finally _ _) => apply only_try_finally
    | |- only _ (suppress _) => unfold suppress
    | |- only _ (call _) => apply only_call; intros ?; accept_event
    end
  | match goal with
    | |- only _ (if ?b then _ else _) => destruct b
    | |- only _ (match ?x with _ => _ end) => destruct x
    end ].

Section Footprints.
Context {W : Type} `{World W}.

Lemma only_short_wait (p : page) ms : only (W:=W) (stays p) (short_wait ms).
Proof. unfold short_wait. only_with fail. Qed.

Lemma only_find_by_text (p : page) (text : string) :
  only (W:=W) (looks p) (_find_by_text p text).
Proof. unfold _find_by_text, get_by_role, get_by_text. only_with fail. Qed.

Lemma finds_page_of (p : page) (text : string) (l : locator) :
  finds p text l -> page_of l = p.
Proof. intros [->| ->]; reflexivity. Qed.

Lemma find_each_text_on_page (p : page) (texts : list string) :
  sat (W:=W) (find_each_text p texts)
    (fun o t =>
       forallb (looks p) t = true /\
       match o with
       | Returned cands => forall l, In (Some l) cands -> page_of l = p
       | Raised _ => True
       | Diverged => False
       end).
Proof.
  assert (Hlooks : only (W:=W) (looks p) (find_each_text p texts)).
  { induction texts as [|text rest IH]; cbn [find_each_text].
    - apply only_ret.
    - only_with ltac:(first [apply only_find_by_text | exact IH]). }
  intros w. split; [apply Hlooks|].
  pose proof (find_each_text_spec p texts w) as [_ Hs].
  destruct (find_each_text p texts w).1.1 as [cands|e|]; [|exact I|exact Hs].
  intros l Hl. destruct (Hs l Hl) as [text [_ Hf]]. exact (finds_page_of p text l Hf).
Qed.

Lemma only_first_visible (p : page) (candidates : list (option locator)) :
  (forall l, In (Some l) candidates -> page_of l = p) ->
  only (W:=W) (looks p) (_first_visible p candidates).
Proof.
  induction candidates as [|[c|] rest IH]; intros Hp; cbn [_first_visible].
  - apply only_ret.
  - assert (Hc : page_of c = p) by (apply Hp; left; reflexivity).
    assert (Hrest : only (W:=W) (looks p) (_first_visible p rest)).
    { apply IH. intros l Hl. apply Hp. right. exact Hl. }
    apply only_bind.
    + apply only_try_except; [|intros ?; apply only_ret].
      apply only_bind; [|intros ?; apply only_ret].
      apply only_call. intros a. cbn [looks]. rewrite Hc. apply Nat.eqb_refl.
    + intros [|]; [apply only_ret | exact Hrest].
  - apply IH. intros l Hl. apply Hp. right. exact Hl.
Qed.

Lemma only_safe_click (p : page) (el : target) :
  on_target p el = true -> only (W:=W) (stays p) (_safe_click el).
Proof.
  intros Hel. unfold _safe_click, suppress.
  apply only_bind.
  - apply only_try_except; [|intros ?; apply only_ret].
    apply only_call. intros a. cbn [stays looks orb]. exact Hel.
  - intros _. apply only_call. intros a. cbn [stays looks orb]. exact Hel.
Qed.

End Footprints.


(** ** The click helpers *)

(** X1.  [_safe_click] always attempts the click: a scroll that fails with an
    [Exception] is suppressed and the click follows all the same, and what
    the click answers, a value or an exception, is what [_safe_click] ends
    with.  Only an exception that is not an [Exception], raised by the
    scroll, ends it before the click. *)
Theorem click_follows_failed_scroll {W : Type} `{World W} (el : target) :
  sat (W:=W) (_safe_click el)
    (fun o t =>
       (exists scrolled clicked,
          t = [Ev (ScrollIntoViewIfNeeded el) scrolled; Ev (Click el) clicked] /\
          o = of_answer clicked /\
          match scrolled with
          | Ok _ => True
          | Err e => is_Exception e = true
          end) \/
       (exists e,
          is_Exception e = false /\
          t = [Ev (ScrollIntoViewIfNeeded el) (Err e)] /\
          o = Raised e)).
Proof.
  unfold _safe_click, suppress.
  apply sat_bind, sat_try_except, sat_call.
  intros [[]|e]; cbv beta iota delta [of_answer].
  - apply sat_call. intros clicked. left.
    exists (Ok tt), clicked. repeat split.
  - destruct (is_Exception e) eqn:He.
    + apply sat_ret. cbn [app]. apply sat_call. intros clicked. left.
      exists (Err e), clicked. split; [reflexivity|]. split; [reflexivity | exact He].
    + right. exists e. repeat split. exact He.
Qed.

(** X2.  [_first_visible] returns the earliest candidate whose wait succeeds:
    the candidates before it that are not [None] were each waited on once,
    in order, and each wait failed with an [Exception]; no candidate after
    it is waited on.  It returns [None] exactly when every candidate that
    is not [None] was waited on and failed, and the only exceptions that
    leave it are not [Exception]s. *)
Theorem first_visible_is_earliest {W : Type} `{World W}
  (p : page) (candidates : list (option locator)) :
  sat (W:=W) (_first_visible p candidates)
    (fun o t =>
       match o with
       | Returned (Some l) =>
           exists before after t0,
             candidates = before ++ Some l :: after /\
             gave_up_on (omap id before) t0 /\
             t = t0 ++ [Ev (WaitFor l "visible" DEFAULT_TIMEOUT) (Ok tt)]
       | Returned None => gave_up_on (omap id candidates) t
       | Raised e => is_Exception e = false
       | Diverged => False
       end).
Proof.
  induction candidates as [|[c|] rest IH]; cbn [_first_visible].
  - apply sat_ret. constructor.
  - assert (Hnext : forall x, is_Exception x = true ->
      sat (W:=W) (_first_visible p rest)
        (fun o t =>
           match o with
           | Returned (Some l) =>
               exists before after t0,
                 Some c :: rest = before ++ Some l :: after /\
                 gave_up_on (omap id before) t0 /\
                 [Ev (WaitFor c "visible" DEFAULT_TIMEOUT) (Err x)] ++ t =
                 t0 ++ [Ev (WaitFor l "visible" DEFAULT_TIMEOUT) (Ok tt)]
           | Returned None =>
               gave_up_on (omap id (Some c :: rest))
                 ([Ev (WaitFor c "visible" DEFAULT_TIMEOUT) (Err x)] ++ t)
           | Raised e => is_Exception e = false
           | Diverged => False
           end)).
    { intros x Hx. eapply sat_conseq; [exact IH|].
      intros [[l|]|e|] t Ht; [| |exact Ht|exact Ht].
      - destruct Ht as (before & after & t0 & -> & Hgave & ->).
        exists (Some c :: before), after,
          (Ev (WaitFor c "visible" DEFAULT_TIMEOUT) (Err x) :: t0).
        split; [reflexivity|]. split; [|reflexivity].
        constructor; [exists x; split; [exact Hx | reflexivity] | exact Hgave].
      - constructor; [exists x; split; [exact Hx | reflexivity] | exact Ht]. }
    apply sat_bind, sat_try_except, sat_bind, sat_call.
    intros [[]|x]; cbv beta iota delta [of_answer].
    + apply sat_ret. apply sat_ret.
      exists [], rest, []. split; [reflexivity|]. split; [constructor | reflexivity].
    + destruct (is_Exception x) eqn:Hx; [|reflexivity].
      apply sat_ret. rewrite app_nil_r. apply Hnext, Hx.
  - eapply sat_conseq; [exact IH|].
    intros [[l|]|e|] t Ht; [|exact Ht..].
    destruct Ht as (before & after & t0 & -> & Hgave & ->).
    exists (None :: before), after, t0. split; [reflexivity|].
    split; [exact Hgave | reflexivity].
Qed.


Lemma sat_and {W : Type} {A} (c : M W A) (Q1 Q2 : outcome A -> list event -> Prop) :
  sat c Q1 -> sat c Q2 -> sat c (fun o t => Q1 o t /\ Q2 o t).
Proof. intros H1 H2 w. split; [apply H1 | apply H2]. Qed.

Lemma clicks_made_app (t1 t2 : list event) :
  clicks_made (t1 ++ t2) = (clicks_made t1 + clicks_made t2)%nat.
Proof. apply count_app. Qed.

Lemma navigations_app (t1 t2 : list event) :
  navigations (t1 ++ t2) = (navigations t1 + navigations t2)%nat.
Proof. apply count_app. Qed.

(** Close a goal about the clicks of a trace built by appending. *)
Ltac count_clicks :=
repeat match goal with
       | H : forallb (looks _) ?t = true |- _ => apply looks_no_click in H
       end;
rewrite ?clicks_made_app in *;
cbn [clicks_made List.filter is_click length] in *; lia.

Lemma looks_stays_all (p : page) (t : list event) :
  forallb (looks p) t = true -> forallb (stays p) t = true.
Proof.
  intros Ht. apply forallb_forall. intros e He. apply looks_stays.
  exact (proj1 (forallb_forall _ _) Ht e He).
Qed.

(** Close a goal that a trace built by appending stays on the page. *)
Ltac stays_on :=
rewrite ?forallb_app;
repeat (apply andb_true_intro; split);
first [ assumption | apply looks_stays_all; assumption | reflexivity ].

Section Clicks.
Context {W : Type} `{World W}.

Lemma short_wait_counts (p : page) ms :
  sat (W:=W) (short_wait ms)
    (fun o t =>
       (forallb (stays p) t = true /\ clicks_made t = 0%nat) /\ o <> Diverged).
Proof.
  unfold short_wait. apply sat_call. intros [[]|e]; cbv beta iota delta [of_answer];
    (split; [split; reflexivity | discriminate]).
Qed.

Lemma safe_click_counts (p : page) (el : target) :
  on_target p el = true ->
  sat (W:=W) (_safe_click el)
    (fun o t =>
       (forallb (stays p) t = true /\ (clicks_made t <= 1)%nat) /\
       match o with
       | Returned _ => clicks_made t = 1%nat
       | Raised _ => True
       | Diverged => False
       end).
Proof.
  intros Hel. apply sat_and.
  - apply sat_and; [apply only_safe_click, Hel|].
    unfold _safe_click. sat_steps; cbn; lia.
  - unfold _safe_click. sat_steps; first [exact I | reflexivity].
Qed.

Lemma try_click_text_counts (p : page) (texts : list string) :
  sat (W:=W) (_try_click_text p texts)
    (fun o t =>
       (forallb (stays p) t = true /\ (clicks_made t <= 1)%nat) /\
       match o with
       | Returned true => clicks_made t = 1%nat
       | Returned false => clicks_made t = 0%nat
       | Raised _ => True
       | Diverged => False
       end).
Proof.
  unfold _try_click_text. sat_step.
  sat_use find_each_text_on_page.
  2:{ split; [split; [stays_on | count_clicks] | exact I]. }
  sat_step. eapply sat_conseq.
  { apply sat_and; [apply (only_first_visible p a Hs) | apply first_visible_spec]. }
  intros [[l|]|e|] t1 [Hl [_ Hv]]; cbv beta iota in Hv |- *; try contradiction.
  - destruct Hv as [Hin _].
    assert (Hon : on_target p (Loc l) = true).
    { cbn [on_target]. rewrite (Hs l Hin). apply Nat.eqb_refl. }
    sat_step. sat_use (safe_click_counts p (Loc l) Hon).
    + sat_step. sat_use (short_wait_counts p).
      * sat_steps. rewrite app_nil_r.
        destruct Hq0 as [Hq0 Hc0], Hq1 as [Hq1 Hc1].
        split; [split; [stays_on | count_clicks] | count_clicks].
      * destruct Hq0 as [Hq0 Hc0], Hq1 as [Hq1 Hc1].
        split; [split; [stays_on | count_clicks] | exact I].
    + destruct Hq0 as [Hq0 Hc0].
      split; [split; [stays_on | count_clicks] | exact I].
  - sat_steps. rewrite app_nil_r.
    split; [split; [stays_on | count_clicks] | count_clicks].
  - split; [split; [stays_on | count_clicks] | exact I].
Qed.

End Clicks.

(** X3.  [_try_click_text] clicks at most once, whatever happens: exactly
    once when it returns [True], and then the click is the last thing before
    the short wait, on a control found visible under one of the texts; not
    at all when it returns [False].  Everything it does stays on the page it
    was given: it loads nothing and fills nothing in. *)
Theorem try_click_text_clicks_once {W : Type} `{World W}
  (p : page) (texts : list string) :
  sat (W:=W) (_try_click_text p texts)
    (fun o t =>
       forallb (stays p) t = true /\
       (clicks_made t <= 1)%nat /\
       match o with
       | Returned true => clicks_made t = 1%nat /\ clicked_text p texts t
       | Returned false => clicks_made t = 0%nat
       | Raised _ => True
       | Diverged => False
       end).
Proof.
  eapply sat_conseq.
  { apply sat_and; [apply try_click_text_counts | apply try_click_text_spec]. }
  intros o t [[[Hstays Hle] Hcount] [_ Hclicked]].
  split; [exact Hstays|]. split; [exact Hle|].
  destruct o as [[|]|e|]; [split; assumption | exact Hcount | exact I | exact Hcount].
Qed.

(** X4.  With no text to look for (no text at all, or only empty strings),
    [_try_click_text] returns [False] at once, without a single call to the
    page. *)
Theorem try_click_text_without_text {W : Type} `{World W}
  (p : page) (texts : list string) (w : W) :
  Forall (fun text => text = "") texts ->
  _try_click_text p texts w = (Returned false, w, []).
Proof.
  intros Hempty. unfold _try_click_text.
  assert (Hnone : find_each_text p texts w = (Returned [], w, [])).
  { induction Hempty as [|text rest -> _ IH]; [reflexivity | exact IH]. }
  unfold bind at 1. rewrite Hnone. reflexivity.
Qed.

Lemma try_click_text_without_text_witness :
  @_try_click_text sim (sim_world happy_site) 1%nat [""; ""] sim0 =
  (Returned false, sim0, []).
Proof.
  apply (@try_click_text_without_text sim (sim_world happy_site) 1%nat [""; ""] sim0).
  repeat constructor.
Defined.


Section PageFootprints.
Context {W : Type} `{World W}.

Lemma only_try_click_text (p : page) (texts : list string) :
  only (W:=W) (stays p) (_try_click_text p texts).
Proof.
  eapply sat_conseq; [apply try_click_text_counts|].
  intros o t [[Hstays _] _]. exact Hstays.
Qed.

Lemma only_handle_privacy_popup (p : page) (email : string) :
  only (W:=W) (stays p) (_handle_privacy_popup p email).
Proof.
  unfold _handle_privacy_popup.
  only_with ltac:(first [apply only_try_click_text | apply only_short_wait]).
Qed.

End PageFootprints.

(** A handler that swallows every [Exception] keeps what holds of the
    trace, and lets no [Exception] out. *)
Lemma sat_swallow {W : Type} `{World W} {A} (c : M W A) (a : A)
  (P : list event -> Prop) :
  sat c (fun o t => P t /\ o <> Diverged) ->
  sat (try_except c (fun _ => ret a))
    (fun o t =>
       P t /\
       match o with
       | Returned _ => True
       | Raised e => is_Exception e = false
       | Diverged => False
       end).
Proof.
  intros Hc. apply sat_try_except. eapply sat_conseq; [exact Hc|].
  intros [r|e|] t [Ht Hends]; [split; [exact Ht | exact I] | | contradiction].
  destruct (is_Exception e) eqn:He.
  - apply sat_ret. rewrite app_nil_r. split; [exact Ht | exact I].
  - split; [exact Ht | reflexivity].
Qed.

(** X5.  One call of [_handle_privacy_popup] clicks at most one control of
    the banner: the deny and settings controls are tried only when nothing
    was clicked before them.  It stays on the page, and no [Exception]
    leaves it. *)
Theorem privacy_popup_clicks_at_most_once {W : Type} `{World W}
  (p : page) (email : string) :
  sat (W:=W) (_handle_privacy_popup p email)
    (fun o t =>
       forallb (stays p) t = true /\
       (clicks_made t <= 1)%nat /\
       match o with
       | Returned _ => True
       | Raised e => is_Exception e = false
       | Diverged => False
       end).
Proof.
  assert (Hbody :
    sat (W:=W)
      (accepted <- _try_click_text p [TXT_PRIVACY_ACCEPT; "accept"; "accept all"] ;;
       if accepted then short_wait STEP_WAIT_MS
       else
         denied <- _try_click_text p [TXT_PRIVACY_DENY; "deny"] ;;
         if denied then short_wait STEP_WAIT_MS
         else
           settings <- _try_click_text p [TXT_PRIVACY_SETTINGS; "settings"] ;;
           if settings then short_wait STEP_WAIT_MS
           else ret tt)
      (fun o t => (clicks_made t <= 1)%nat /\ o <> Diverged)).
  { sat_step. sat_use try_click_text_counts; [|split; [count_clicks | discriminate]].
    destruct Hq as [_ Hle]. destruct a.
    { sat_use (short_wait_counts p); destruct Hq as [_ Hc];
        (split; [count_clicks | discriminate]). }
    sat_step. sat_use try_click_text_counts; [|split; [count_clicks | discriminate]].
    destruct Hq as [_ Hle0]. destruct a.
    { sat_use (short_wait_counts p); destruct Hq as [_ Hc];
        (split; [count_clicks | discriminate]). }
    sat_step. sat_use try_click_text_counts; [|split; [count_clicks | discriminate]].
    destruct Hq as [_ Hle1]. destruct a.
    { sat_use (short_wait_counts p); destruct Hq as [_ Hc];
        (split; [count_clicks | discriminate]). }
    sat_steps. split; [count_clicks | discriminate]. }
  eapply sat_conseq.
  { apply sat_and; [apply only_handle_privacy_popup|].
    unfold _handle_privacy_popup. apply sat_swallow, Hbody. }
  intros o t [Hstays [Hle Ho]]. split; [exact Hstays|]. split; [exact Hle | exact Ho].
Qed.


(** ** Booking open detection *)

(** X6.  [_find_enabled_exam_button] returns the first button of the
    container, in document order, whose [disabled] attribute is absent:
    every button before it was read once and either has the attribute
    (whatever its value, the empty string included) or could not be read,
    which counts as disabled; the buttons after it are not read.  It
    returns [None] when no button is left.  A failing query is the only
    [Exception] that leaves it. *)
Theorem exam_button_is_first_enabled {W : Type} `{World W} (p : page) :
  sat (W:=W) (_find_enabled_exam_button p)
    (fun o t =>
       match o with
       | Returned (Some b) =>
           exists before after t0,
             t = Ev (QuerySelectorAll p ".pr-buttons button") (Ok (before ++ b :: after))
                 :: t0 ++ [Ev (GetAttribute b "disabled") (Ok None)] /\
             passed_over before t0
       | Returned None =>
           exists buttons t0,
             t = Ev (QuerySelectorAll p ".pr-buttons button") (Ok buttons) :: t0 /\
             passed_over buttons t0
       | Raised e =>
           is_Exception e = false \/
           t = [Ev (QuerySelectorAll p ".pr-buttons button") (Err e)]
       | Diverged => False
       end).
Proof.
  assert (Hscan : forall buttons,
    sat (W:=W) (first_enabled buttons)
      (fun o t =>
         match o with
         | Returned (Some b) =>
             exists before after t0,
               buttons = before ++ b :: after /\
               t = t0 ++ [Ev (GetAttribute b "disabled") (Ok None)] /\
               passed_over before t0
         | Returned None => passed_over buttons t
         | Raised e => is_Exception e = false
         | Diverged => False
         end)).
  { induction buttons as [|b rest IH]; cbn [first_enabled].
    - apply sat_ret. constructor.
    - assert (Hnext : forall a,
        (exists v, a = Ok (Some v)) \/
        (exists x, is_Exception x = true /\ a = Err x) ->
        sat (W:=W) (first_enabled rest)
          (fun o t =>
             match o with
             | Returned (Some b') =>
                 exists before after t0,
                   b :: rest = before ++ b' :: after /\
                   [Ev (GetAttribute b "disabled") a] ++ t =
                   t0 ++ [Ev (GetAttribute b' "disabled") (Ok None)] /\
                   passed_over before t0
             | Returned None =>
                 passed_over (b :: rest) ([Ev (GetAttribute b "disabled") a] ++ t)
             | Raised e => is_Exception e = false
             | Diverged => False
             end)).
      { intros a Ha.
        assert (Hb : (exists v, Ev (GetAttribute b "disabled") a =
                                Ev (GetAttribute b "disabled") (Ok (Some v))) \/
                     (exists x, is_Exception x = true /\
                                Ev (GetAttribute b "disabled") a =
                                Ev (GetAttribute b "disabled") (Err x))).
        { destruct Ha as [[v ->]|[x [Hx ->]]]; [left | right]; eauto. }
        eapply sat_conseq; [exact IH|].
        intros [[b'|]|e|] t Ht; [| |exact Ht|exact Ht].
        - destruct Ht as (before & after & t0 & -> & -> & Hpassed).
          exists (b :: before), after, (Ev (GetAttribute b "disabled") a :: t0).
          split; [reflexivity|]. split; [reflexivity|].
          constructor; assumption.
        - constructor; assumption. }
      apply sat_bind, sat_try_except, sat_bind, sat_call.
      intros [[v|]|x]; cbv beta iota delta [of_answer].
      + apply sat_ret. rewrite bool_decide_eq_false_2 by discriminate.
        rewrite app_nil_r. apply Hnext. left. eauto.
      + apply sat_ret. rewrite bool_decide_eq_true_2 by reflexivity.
        apply sat_ret. exists [], rest, [].
        split; [reflexivity|]. split; [reflexivity | constructor].
      + destruct (is_Exception x) eqn:Hx; [|reflexivity].
        apply sat_ret. rewrite app_nil_r. apply Hnext. right. eauto. }
  unfold _find_enabled_exam_button.
  apply sat_bind, sat_call. intros [buttons|e]; cbv beta iota delta [of_answer].
  - eapply sat_conseq; [apply Hscan|].
    intros [[b|]|e|] t Ht; cbn [app].
    + destruct Ht as (before & after & t0 & -> & -> & Hpassed).
      exists before, after, t0. split; [reflexivity | exact Hpassed].
    + exists buttons, t. split; [reflexivity | exact Ht].
    + left. exact Ht.
    + exact Ht.
  - right. reflexivity.
Qed.


(** ** The login fields *)

(** X7.  Each of the two loops of [_login] tries its selectors in the order
    they are listed and stops at the first field it fills: every selector
    before that one found nothing, or its query or its fill failed with an
    [Exception], and no later selector is queried, so the value is typed
    into one field at most.  Without such a field, every selector was tried
    once, and the loop reports that nothing was filled. *)
Theorem login_selectors_tried_in_order {W : Type} `{World W}
  (p : page) (selectors : list string) (value : string) :
  sat (W:=W) (fill_first p selectors value)
    (fun o t =>
       match o with
       | Returned true =>
           exists before sel after ts f,
             selectors = before ++ sel :: after /\
             Forall2 (fruitless p value) before ts /\
             t = concat ts ++
                 [Ev (QuerySelector p sel) (Ok (Some f)); Ev (Fill f value) (Ok tt)]
       | Returned false =>
           exists ts, Forall2 (fruitless p value) selectors ts /\ t = concat ts
       | Raised e => is_Exception e = false
       | Diverged => False
       end).
Proof.
  induction selectors as [|sel rest IH]; cbn [fill_first].
  - apply sat_ret. exists []. split; [constructor | reflexivity].
  - assert (Hnext : forall t0,
      fruitless p value sel t0 ->
      sat (W:=W) (fill_first p rest value)
        (fun o t =>
           match o with
           | Returned true =>
               exists before sel' after ts f,
                 sel :: rest = before ++ sel' :: after /\
                 Forall2 (fruitless p value) before ts /\
                 t0 ++ t = concat ts ++
                   [Ev (QuerySelector p sel') (Ok (Some f)); Ev (Fill f value) (Ok tt)]
           | Returned false =>
               exists ts, Forall2 (fruitless p value) (sel :: rest) ts /\
                          t0 ++ t = concat ts
           | Raised e => is_Exception e = false
           | Diverged => False
           end)).
    { intros t0 H0. eapply sat_conseq; [exact IH|].
      intros [[|]|e|] t Ht; [| |exact Ht|exact Ht].
      - destruct Ht as (before & sel' & after & ts & f & -> & Hall & ->).
        exists (sel :: before), sel', after, (t0 :: ts), f.
        split; [reflexivity|]. split; [constructor; assumption|].
        cbn [concat]. rewrite <- app_assoc. reflexivity.
      - destruct Ht as (ts & Hall & ->).
        exists (t0 :: ts). split; [constructor; assumption | reflexivity]. }
    apply sat_bind, sat_try_except, sat_bind, sat_call.
    intros [[f|]|x]; cbv beta iota delta [of_answer].
    + apply sat_bind, sat_call. intros [[]|x]; cbv beta iota delta [of_answer].
      * apply sat_ret. apply sat_ret.
        exists [], sel, rest, [], f. split; [reflexivity|].
        split; [constructor | reflexivity].
      * destruct (is_Exception x) eqn:Hx; [|reflexivity].
        apply sat_ret. rewrite app_nil_r. apply Hnext.
        right. right. exists f, x. split; [exact Hx | reflexivity].
    + apply sat_ret. rewrite app_nil_r. apply Hnext. left. reflexivity.
    + destruct (is_Exception x) eqn:Hx; [|reflexivity].
      apply sat_ret. rewrite app_nil_r. apply Hnext.
      right. left. exists x. split; [exact Hx | reflexivity].
Qed.


(** ** The footprint of a session *)

Lemma only_bind_with {W : Type} `{World W} {A B} (ok : event -> bool)
  (c : M W A) (k : A -> M W B) (P : A -> Prop) :
  sat c (fun o t => forallb ok t = true /\ forall a, o = Returned a -> P a) ->
  (forall a, P a -> only ok (k a)) ->
  only ok (bind c k).
Proof.
  intros Hc Hk. apply sat_bind. eapply sat_conseq; [exact Hc|].
  intros [a|e|] t1 [H1 Ha]; [|exact H1..].
  eapply sat_conseq; [apply (Hk a (Ha a eq_refl))|]. intros o t2 H2.
  rewrite forallb_app, H1, H2. reflexivity.
Qed.

Section SessionFootprints.
Context {W : Type} `{World W}.

Lemma find_by_text_on_page (p : page) (text : string) :
  sat (W:=W) (_find_by_text p text)
    (fun o t =>
       forallb (stays p) t = true /\
       forall l, o = Returned l -> on_target p (Loc l) = true).
Proof.
  eapply sat_conseq.
  { apply sat_and; [apply only_find_by_text | apply find_by_text_spec]. }
  intros o t [Hlooks [_ Hf]]. split; [apply looks_stays_all, Hlooks|].
  intros l ->. cbn [on_target]. rewrite (finds_page_of p text l Hf).
  apply Nat.eqb_refl.
Qed.

Lemma only_wait_for (p : page) (l : locator) (state : string) (timeout : Z) :
  on_target p (Loc l) = true ->
  only (W:=W) (stays p) (call (WaitFor l state timeout)).
Proof.
  intros Hl. apply only_call. intros a. cbn [on_target] in Hl.
  unfold stays, looks. rewrite Hl. reflexivity.
Qed.

Lemma only_fill_first (p : page) (selectors : list string) (value : string) :
  only (W:=W) (stays p) (fill_first p selectors value).
Proof.
  induction selectors as [|sel rest IH]; cbn [fill_first];
    only_with ltac:(exact IH).
Qed.

Lemma only_fill_by_keyword (p : page) (inp : element) (txt : string)
  (pairs : list (string * string)) :
  only (W:=W) (stays p) (fill_by_keyword inp txt pairs).
Proof.
  induction pairs as [|[key val] rest IH]; cbn [fill_by_keyword].
  - apply only_ret.
  - destruct (contains key txt); [|exact IH]. only_with fail.
Qed.

Lemma only_fill_inputs (p : page) (student : Student) (inputs : list element) :
  only (W:=W) (stays p) (fill_inputs student inputs).
Proof.
  induction inputs as [|inp rest IH]; cbn [fill_inputs].
  - apply only_ret.
  - unfold fill_input.
    only_with ltac:(first [apply only_fill_by_keyword | exact IH]).
Qed.

Lemma only_first_enabled (p : page) (buttons : list element) :
  only (W:=W) (stays p) (first_enabled buttons).
Proof.
  induction buttons as [|b rest IH]; cbn [first_enabled];
    only_with ltac:(exact IH).
Qed.

Lemma only_poll_select_modules (p : page) :
  only (W:=W) (stays p) (poll_select_modules p).
Proof.
  unfold poll_select_modules.
  apply only_try_except; [|intros ?; apply only_ret].
  eapply only_bind_with; [apply find_by_text_on_page|].
  intros el Hel.
  only_with ltac:(first [ apply (only_wait_for p el), Hel
                        | apply (only_safe_click p (Loc el)), Hel
                        | apply only_short_wait ]).
Qed.

Lemma only_poll_exam_button (p : page) :
  only (W:=W) (stays p) (poll_exam_button p).
Proof.
  unfold poll_exam_button, _find_enabled_exam_button.
  only_with ltac:(first [ apply only_first_enabled
                        | apply only_safe_click; reflexivity
                        | apply only_short_wait ]).
Qed.

Lemma only_stays_reloading {A} (p : page) (c : M W A) :
  only (stays p) c -> only (reloading p) c.
Proof. apply only_weaken, stays_reloading. Qed.

Lemma only_stays_within_page {A} (p : page) (c : M W A) :
  only (stays p) c -> only (within_page p) c.
Proof. apply only_weaken, stays_within_page. Qed.

Lemma only_poll (fuel : nat) (p : page) (email : string) :
  only (W:=W) (reloading p) (_poll_until_select_modules fuel p email).
Proof.
  induction fuel as [|fuel IH]; cbn [_poll_until_select_modules].
  - apply only_diverge.
  - unfold _rand_refresh_delay.
    only_with ltac:(first [ exact IH
                          | apply only_stays_reloading, only_poll_select_modules
                          | apply only_stays_reloading, only_poll_exam_button
                          | apply only_stays_reloading, only_short_wait
                          | apply only_stays_reloading, only_handle_privacy_popup ]).
Qed.

Lemma only_goto_start (p : page) (email : string) :
  only (W:=W) (within_page p) (_goto_start p email).
Proof.
  unfold _goto_start.
  only_with ltac:(first [ apply only_stays_within_page, only_short_wait
                        | apply only_stays_within_page, only_handle_privacy_popup ]).
Qed.

Lemma only_advance_or_restart (p : page) (texts : list string) (email : string) :
  only (W:=W) (within_page p) (_advance_or_restart p texts email).
Proof.
  unfold _advance_or_restart.
  only_with ltac:(first [ apply only_stays_within_page, only_try_click_text
                        | apply only_goto_start ]).
Qed.

Lemma only_login (p : page) (student : Student) :
  only (W:=W) (within_page p) (_login p student).
Proof.
  unfold _login, login_submit.
  only_with ltac:(first [ apply only_stays_within_page, only_fill_first
                        | apply only_stays_within_page, only_try_click_text
                        | apply only_stays_within_page, only_short_wait
                        | apply only_goto_start ]).
Qed.

Lemma only_fill_personal_form (p : page) (student : Student) :
  only (W:=W) (within_page p) (_fill_personal_form p student).
Proof.
  unfold _fill_personal_form.
  only_with ltac:(first [ apply only_stays_within_page, (only_fill_inputs p)
                        | apply only_stays_within_page, only_try_click_text
                        | apply only_goto_start ]).
Qed.

Lemma only_run (fuel : nat) (p : page) (a : AlarmController) :
  only (W:=W) (rings p) (_run fuel a).
Proof.
  revert a. induction fuel as [|fuel IH]; intros a; cbn [_run].
  - destruct (_stop a); [apply only_ret | apply only_diverge].
  - destruct (_stop a); [apply only_ret|]. unfold _beep_once.
    only_with ltac:(apply IH).
Qed.

Lemma only_wait_stopped (fuel : nat) (p : page) (a : AlarmController) :
  only (W:=W) (rings p) (wait_stopped fuel a).
Proof. unfold wait_stopped. only_with ltac:(apply only_run). Qed.

Lemma only_confirmation (p : page) :
  only (W:=W) (stays p)
    (try_except
       (conf <- _find_by_text p TXT_CONFIRMATION ;;
        call (WaitFor conf "visible" 30000) ;;
        ret true)
       (fun _ => ret false)).
Proof.
  apply only_try_except; [|intros ?; apply only_ret].
  eapply only_bind_with; [apply find_by_text_on_page|].
  intros conf Hconf.
  only_with ltac:(apply (only_wait_for p conf), Hconf).
Qed.

Lemma only_run_booking (fuel : nat) (p : page) (student : Student) :
  only (W:=W) (within_page p) (run_booking fuel p student).
Proof.
  unfold run_booking, _install_doubleclick_stop.
  only_with ltac:(first [ apply only_goto_start
                        | apply only_advance_or_restart
                        | apply only_login
                        | apply only_fill_personal_form
                        | apply (only_weaken (reloading p)), only_poll;
                          apply reloading_within_page
                        | apply only_stays_within_page, only_confirmation
                        | apply (only_weaken (rings p)), only_wait_stopped;
                          apply rings_within_page ]).
Qed.

End SessionFootprints.

(** X8.  [run_booking] keeps to the page it is given.  Whatever the world
    answers and however the flow ends, every primitive call it makes is a
    call on that page (a lookup, a wait, a query, a click, a navigation, a
    reload, the wiring of the handler), a call on an element handle, a
    sleep, a random draw or an alarm call: it never launches or closes a
    browser, never opens or closes a context or a page, never reads a file
    or the environment, and never acts on another page. *)
Theorem run_booking_keeps_to_its_page {W : Type} `{World W}
  (fuel : nat) (p : page) (student : Student) :
  sat (W:=W) (run_booking fuel p student)
    (fun _ t => Forall (fun e => within_page p e = true) t).
Proof.
  eapply sat_conseq; [apply only_run_booking|].
  intros o t Ht. apply Forall_forall. intros e He.
  apply list_elem_of_In in He.
  exact (proj1 (forallb_forall _ _) Ht e He).
Qed.


(** ** Navigation: a failed step restarts once, and the run is over *)

(** Close a goal about the navigations of a trace built by appending. *)
Ltac count_navigations :=
repeat match goal with
       | H : forallb (stays _) ?t = true |- _ => apply stays_no_navigation in H
       | H : forallb (reloading _) ?t = true |- _ => apply reloading_no_navigation in H
       | H : forallb (rings _) ?t = true |- _ => apply rings_no_navigation in H
       end;
unfold navigated, step_navigates;
rewrite ?navigations_app in *;
cbn [navigations List.filter is_goto length] in *; lia.

Section Navigation.
Context {W : Type} `{World W}.

(** A helper that stays on the page and ends navigates nowhere. *)
Lemma stays_put {A} (p : page) (c : M W A) :
  only (stays p) c -> quiet c ->
  sat c (fun o t => navigations t = 0%nat /\ o <> Diverged).
Proof.
  intros Hstays Hquiet. eapply sat_conseq; [apply sat_and; [exact Hstays | exact Hquiet]|].
  intros o t [Hs [_ Hends]]. split; [apply (stays_no_navigation p), Hs | exact Hends].
Qed.

Lemma goto_start_navigates (p : page) (email : string) :
  sat (W:=W) (_goto_start p email)
    (fun o t => navigations t = 1%nat /\ o <> Diverged).
Proof.
  unfold _goto_start. apply sat_bind, sat_call.
  intros [[]|e]; cbv beta iota delta [of_answer]; [|split; [reflexivity | discriminate]].
  sat_step. sat_use (stays_put p _ (only_short_wait p STEP_WAIT_MS)
                       (quiet_short_wait STEP_WAIT_MS)).
  2:{ split; [count_navigations | discriminate]. }
  sat_use (stays_put p _ (only_handle_privacy_popup p email)
             (quiet_handle_privacy_popup p email)).
  - split; [count_navigations | discriminate].
  - split; [count_navigations | discriminate].
Qed.

Lemma advance_or_restart_navigates (p : page) (texts : list string) (email : string) :
  sat (W:=W) (_advance_or_restart p texts email) step_navigates.
Proof.
  unfold _advance_or_restart. sat_step.
  sat_use (stays_put p _ (only_try_click_text p texts) (quiet_try_click_text p texts)).
  2:{ count_navigations. }
  destruct a.
  - sat_steps. count_navigations.
  - sat_step. sat_use (goto_start_navigates p email).
    + sat_steps. count_navigations.
    + count_navigations.
Qed.

Lemma login_navigates (p : page) (student : Student) :
  sat (W:=W) (_login p student) step_navigates.
Proof.
  unfold _login. sat_step.
  sat_use (stays_put p _ (only_fill_first p email_selectors (email student))
             (quiet_fill_first p email_selectors (email student))).
  2:{ count_navigations. }
  sat_step.
  sat_use (stays_put p _ (only_fill_first p pw_selectors (password student))
             (quiet_fill_first p pw_selectors (password student))).
  2:{ count_navigations. }
  unfold login_submit. sat_step.
  assert (Hclick :
    sat (W:=W) (if a then _try_click_text p login_texts else ret false)
      (fun o t => navigations t = 0%nat /\ o <> Diverged)).
  { destruct a.
    - apply (stays_put p _ (only_try_click_text p login_texts)
               (quiet_try_click_text p login_texts)).
    - apply sat_ret. split; [reflexivity | discriminate]. }
  sat_use Hclick.
  2:{ count_navigations. }
  destruct a1.
  - sat_step.
    sat_use (stays_put p _ (only_short_wait p STEP_WAIT_MS)
               (quiet_short_wait STEP_WAIT_MS)).
    + sat_steps. count_navigations.
    + count_navigations.
  - sat_step. sat_use (goto_start_navigates p (email student)).
    + sat_steps. count_navigations.
    + count_navigations.
Qed.

Lemma fill_personal_form_navigates (p : page) (student : Student) :
  sat (W:=W) (_fill_personal_form p student) step_navigates.
Proof.
  unfold _fill_personal_form.
  apply sat_bind, sat_call. intros [inputs|e]; cbv beta iota delta [of_answer].
  2:{ cbn. lia. }
  sat_step.
  sat_use (stays_put p _ (only_fill_inputs p student inputs)
             (quiet_fill_inputs student inputs)).
  2:{ count_navigations. }
  sat_step.
  sat_use (stays_put p _ (only_try_click_text p [TXT_CONTINUE])
             (quiet_try_click_text p [TXT_CONTINUE])).
  2:{ count_navigations. }
  destruct a0.
  - sat_steps. count_navigations.
  - sat_step. sat_use (goto_start_navigates p (email student)).
    + sat_steps. count_navigations.
    + count_navigations.
Qed.

Lemma ret_true_last {A} (c : M W A) :
  sat (c ;; ret true) (fun o _ => o <> Returned false).
Proof.
  apply sat_bind. eapply sat_conseq; [apply sat_any|].
  intros [a|e|] t _; [apply sat_ret|..]; discriminate.
Qed.

(** One [if not await step: return False] of [run_booking], after one
    navigation. *)
Lemma navigated_step (step rest : M W bool) :
  sat step step_navigates ->
  sat rest (navigated 1) ->
  sat (ok <- step ;; if negb ok then ret false else rest) (navigated 1).
Proof.
  intros Hstep Hrest. sat_step. eapply sat_conseq; [exact Hstep|].
  intros [[|]|e|] t Ht; cbn [step_navigates negb] in Ht |- *.
  - eapply sat_conseq; [exact Hrest|].
    intros [[|]|e|] t2 H2; cbn [navigated] in H2 |- *; count_navigations.
  - apply sat_ret. count_navigations.
  - count_navigations.
  - contradiction.
Qed.

Lemma run_booking_navigated (fuel : nat) (p : page) (student : Student) :
  sat (W:=W) (run_booking fuel p student) (navigated 0).
Proof.
  unfold run_booking.
  sat_step. sat_use (goto_start_navigates p (email student)).
  2:{ count_navigations. }
  assert (Hrest : forall rest : M W bool,
            sat rest (navigated 1) ->
            sat rest (fun o2 t2 => navigated 0 o2 (t ++ t2))).
  { intros rest Hr. eapply sat_conseq; [exact Hr|].
    intros [[|]|e|] t2 H2; cbn [navigated] in H2 |- *; count_navigations. }
  apply Hrest. clear Hrest.
  sat_step. eapply sat_conseq; [apply only_poll|].
  intros [[]|e|] t1 H1; cbv beta iota; [|count_navigations..].
  assert (Hrest : forall rest : M W bool,
            sat rest (navigated 1) ->
            sat rest (fun o2 t2 => navigated 1 o2 (t1 ++ t2))).
  { intros rest Hr. eapply sat_conseq; [exact Hr|].
    intros [[|]|e|] t2 H2; cbn [navigated] in H2 |- *; count_navigations. }
  apply Hrest. clear Hrest.
  apply navigated_step; [apply advance_or_restart_navigates|].
  apply navigated_step; [apply advance_or_restart_navigates|].
  apply navigated_step; [apply login_navigates|].
  apply navigated_step; [apply fill_personal_form_navigates|].
  apply navigated_step; [apply advance_or_restart_navigates|].
  apply navigated_step; [apply advance_or_restart_navigates|].
  sat_step.
  assert (Hconf : quiet (W:=W)
            (try_except
               (conf <- _find_by_text p TXT_CONFIRMATION ;;
                call (WaitFor conf "visible" 30000) ;;
                ret true)
               (fun _ => ret false))).
  { quiet_with ltac:(apply quiet_find_by_text). }
  sat_use (stays_put p _ (only_confirmation p) Hconf).
  2:{ count_navigations. }
  destruct a0; cbn [negb].
  - match goal with
    | |- sat ?c _ =>
        assert (Hring : only (W:=W) (rings p) c)
          by (unfold _install_doubleclick_stop;
              only_with ltac:(apply only_wait_stopped));
        assert (Hlast : sat (W:=W) c (fun o _ => o <> Returned false))
    end.
    { apply sat_bind. eapply sat_conseq; [apply sat_any|].
      intros [u|e|] ? _; [|discriminate..]. apply ret_true_last. }
    eapply sat_conseq; [apply sat_and; [exact Hring | exact Hlast]|].
    intros [[|]|e|] t2 [H2 Hnot]; cbn [navigated]; try count_navigations.
    contradiction.
  - sat_step. sat_use (goto_start_navigates p (email student)).
    + sat_steps. count_navigations.
    + count_navigations.
Qed.

End Navigation.


(** X9.  Every step of the sequencer (CONTINUE, BOOK FOR MYSELF, the login,
    the personal form, CONTINUE, ORDER) behaves the same way about
    navigation, in every world: when it returns [True] it has not navigated,
    and when it returns [False] it has navigated exactly once, back to the
    start page.  A step never navigates twice and never runs forever. *)
Theorem failed_step_restarts_once {W : Type} `{World W} (p : page) (student : Student) :
  Forall (fun step : M W bool => sat step step_navigates) (sequencer_steps p student).
Proof.
  unfold sequencer_steps.
  repeat constructor;
    first [ apply advance_or_restart_navigates
          | apply login_navigates
          | apply fill_personal_form_navigates ].
Qed.

(** X10.  However the world answers, one call of [run_booking] navigates at
    most twice: once, to the start page, when it returns [True] or is still
    running (polling or ringing); exactly twice, the start and one restart,
    when it returns [False].  There is no second pass: after a restart the
    run is over. *)
Theorem run_booking_navigates_at_most_twice {W : Type} `{World W}
  (fuel : nat) (p : page) (student : Student) :
  sat (W:=W) (run_booking fuel p student)
    (fun o t =>
       match o with
       | Returned true => navigations t = 1%nat
       | Returned false => navigations t = 2%nat
       | Raised _ => (1 <= navigations t <= 2)%nat
       | Diverged => navigations t = 1%nat
       end).
Proof.
  eapply sat_conseq; [apply run_booking_navigated|].
  intros [[|]|e|] t Ht; cbn [navigated] in Ht; lia.
Qed.

(** ** The alarm rings for a confirmed booking only *)

Section Confirmed.
Context {W : Type} `{World W}.

Lemma confirmed_after_hushed {A} (p : page) (c : M W A) (k : A -> M W bool)
  (Q : list event -> Prop) :
  hushed c ->
  (forall t0 t, alarms t0 = [] -> Q t -> Q (t0 ++ t)) ->
  (forall a, sat (k a) (fun _ t => alarms t <> [] -> Q t)) ->
  sat (bind c k) (fun _ t => alarms t <> [] -> Q t).
Proof.
  intros Hc Hext Hk. apply sat_bind. eapply sat_conseq; [exact Hc|].
  intros [a|e|] t1 H1; [|intros Hne; contradiction..].
  eapply sat_conseq; [apply Hk|]. intros o t2 H2 Hne.
  apply Hext; [exact H1|]. apply H2.
  rewrite alarms_app, H1 in Hne. exact Hne.
Qed.

Lemma confirmation_spec (p : page) :
  sat (W:=W)
    (try_except
       (conf <- _find_by_text p TXT_CONFIRMATION ;;
        call (WaitFor conf "visible" 30000) ;;
        ret true)
       (fun _ => ret false))
    (fun o t =>
       alarms t = [] /\
       (o = Returned true ->
        exists pre l,
          t = pre ++ [Ev (WaitFor l "visible" 30000) (Ok tt)] /\
          finds p TXT_CONFIRMATION l)).
Proof.
  apply sat_and.
  - apply hushed_quiet. quiet_with ltac:(apply quiet_find_by_text).
  - apply sat_try_except, sat_bind.
    eapply sat_conseq; [apply find_by_text_spec|].
    intros [l|e|] t [_ Hf]; [| |contradiction].
    + apply sat_bind, sat_call. intros [[]|e]; cbv beta iota delta [of_answer].
      * apply sat_ret. intros _. exists t, l. rewrite app_nil_r. split; [reflexivity | exact Hf].
      * destruct (is_Exception e); [apply sat_ret|]; discriminate.
    + destruct (is_Exception e); [apply sat_ret|]; discriminate.
Qed.

End Confirmed.

(** X11.  The alarm cannot ring for anything but a confirmed booking.  In
    every world and however [run_booking] ends: if its trace holds a call of
    the alarm or of the double-click handler at all, then before the first
    of them the wait for the confirmation text, with its timeout of 30
    seconds, succeeded on that page. *)
Theorem alarm_only_after_confirmation {W : Type} `{World W}
  (fuel : nat) (p : page) (student : Student) :
  sat (W:=W) (run_booking fuel p student)
    (fun _ t =>
       alarms t <> [] ->
       exists pre l post,
         t = pre ++ Ev (WaitFor l "visible" 30000) (Ok tt) :: post /\
         finds p TXT_CONFIRMATION l /\
         alarms pre = []).
Proof.
  set (Q := fun t : list event =>
              exists pre l post,
                t = pre ++ Ev (WaitFor l "visible" 30000) (Ok tt) :: post /\
                finds p TXT_CONFIRMATION l /\
                alarms pre = []).
  assert (Hext : forall t0 t, alarms t0 = [] -> Q t -> Q (t0 ++ t)).
  { intros t0 t H0 (pre & l & post & -> & Hf & Hpre).
    exists (t0 ++ pre), l, post. split; [rewrite <- app_assoc; reflexivity|].
    split; [exact Hf|]. rewrite alarms_app, H0, Hpre. reflexivity. }
  assert (Hstep : forall (step rest : M W bool),
            quiet step ->
            sat rest (fun _ t => alarms t <> [] -> Q t) ->
            sat (ok <- step ;; if negb ok then ret false else rest)
              (fun _ t => alarms t <> [] -> Q t)).
  { intros step rest Hq Hr.
    apply (confirmed_after_hushed p); [apply hushed_quiet, Hq | exact Hext |].
    intros [|]; cbn [negb]; [exact Hr|].
    apply sat_ret. intros Hne. contradiction. }
  change (sat (W:=W) (run_booking fuel p student)
            (fun _ t => alarms t <> [] -> Q t)).
  unfold run_booking.
  apply (confirmed_after_hushed p); [apply hushed_quiet, quiet_goto_start | exact Hext |].
  intros _.
  apply (confirmed_after_hushed p); [apply hushed_poll | exact Hext |]. intros _.
  apply Hstep; [apply quiet_advance_or_restart|].
  apply Hstep; [apply quiet_advance_or_restart|].
  apply Hstep; [apply quiet_login|].
  apply Hstep; [apply quiet_fill_personal_form|].
  apply Hstep; [apply quiet_advance_or_restart|].
  apply Hstep; [apply quiet_advance_or_restart|].
  apply sat_bind. eapply sat_conseq; [apply confirmation_spec|].
  intros [[|]|e|] t [Hquiet Hseen]; cbn [negb]; try (intros Hne; contradiction).
  - destruct (Hseen eq_refl) as (pre & l & -> & Hf).
    eapply sat_conseq; [apply sat_any|]. intros o t2 _ _.
    exists pre, l, t2.
    split; [rewrite <- app_assoc; reflexivity|]. split; [exact Hf|].
    rewrite alarms_app in Hquiet. apply app_eq_nil in Hquiet as [Hpre _]. exact Hpre.
  - eapply sat_conseq.
    { apply hushed_bind; [apply hushed_quiet, quiet_goto_start|].
      intros _. apply hushed_ret. }
    intros o t2 H2 Hne. rewrite alarms_app, Hquiet, H2 in Hne. contradiction.
Qed.


(** ** The orchestrator: contexts and results *)

Lemma contexts_opened_app (t1 t2 : list event) :
  contexts_opened (t1 ++ t2) = (contexts_opened t1 + contexts_opened t2)%nat.
Proof. apply count_app. Qed.

Lemma contexts_closed_app (t1 t2 : list event) :
  contexts_closed (t1 ++ t2) = (contexts_closed t1 + contexts_closed t2)%nat.
Proof. apply count_app. Qed.

Lemma within_page_no_context (p : page) (t : list event) :
  forallb (within_page p) t = true ->
  contexts_opened t = 0%nat /\ contexts_closed t = 0%nat.
Proof.
  intros Ht. split; (eapply count_none; [|exact Ht]);
    intros [R o a] He; destruct o; try discriminate He; reflexivity.
Qed.

(** Close a goal about the contexts of a trace built by appending. *)
Ltac count_contexts :=
repeat match goal with
       | H : forallb (within_page _) ?t = true |- _ =>
           apply within_page_no_context in H; destruct H
       end;
rewrite ?contexts_opened_app, ?contexts_closed_app in *;
cbn [contexts_opened contexts_closed List.filter is_new_context is_close_context
     length] in *;
lia.

Section Contexts.
Context {W : Type} `{World W}.

Lemma run_for_student_contexts (fuel : nat) (b : browser) (headed : bool)
  (student : Student) :
  sat (W:=W) (_run_for_student fuel b headed student)
    (fun o t =>
       contexts_opened t = 1%nat /\
       match o with
       | Returned _ => contexts_closed t = 1%nat
       | _ => (contexts_closed t <= 1)%nat
       end).
Proof.
  unfold _run_for_student, _new_context.
  apply sat_bind, sat_call. intros [ctx|e]; cbv beta iota delta [of_answer].
  2:{ split; reflexivity || (cbn; lia). }
  apply sat_bind, sat_call. intros [p|e]; cbv beta iota delta [of_answer].
  2:{ split; reflexivity || (cbn; lia). }
  apply sat_bind, sat_try_finally.
  eapply sat_conseq; [apply only_run_booking|].
  intros [ok|e|] t Ht.
  - apply sat_call. intros [[]|e']; cbv beta iota delta [of_answer].
    + apply sat_ret. split; count_contexts.
    + split; count_contexts.
  - apply sat_call. intros [[]|e']; cbv beta iota delta [of_answer];
      split; count_contexts.
  - split; count_contexts.
Qed.

Lemma run_students_contexts (fuel : nat) (b : browser) (headless : bool)
  (students : list Student) (results : list (string * bool)) :
  sat (W:=W) (run_students fuel b headless students results)
    (fun o t =>
       (contexts_closed t <= contexts_opened t <= contexts_closed t + 1)%nat /\
       (contexts_opened t <= length students)%nat /\
       forall r, o = Returned r ->
         contexts_opened t = length students /\
         contexts_closed t = length students /\
         map fst r = map fst results ++ map email students).
Proof.
  revert results. induction students as [|s rest IH]; intros results;
    cbn [run_students].
  - apply sat_ret. cbn. split; [lia|]. split; [lia|].
    intros r Hr. injection Hr as <-. rewrite app_nil_r. repeat split.
  - apply sat_bind. eapply sat_conseq; [apply run_for_student_contexts|].
    intros [ok|e|] t [Hopen Hclose].
    + eapply sat_conseq; [apply IH|].
      intros o t2 (Hbal & Hmax & Hret). cbn [length].
      split; [count_contexts|]. split; [count_contexts|].
      intros r ->. destruct (Hret r eq_refl) as (Ho & Hc & Hm).
      split; [count_contexts|]. split; [count_contexts|].
      rewrite Hm, map_app, <- app_assoc. reflexivity.
    + cbn [length]. split; [lia|]. split; [lia|]. discriminate.
    + cbn [length]. split; [lia|]. split; [lia|]. discriminate.
Qed.

End Contexts.

(** X12.  When [main_async] returns, it returns one result for each student
    of the list, in the order of the list, each under that student's email;
    for an empty list it returns an empty list. *)
Theorem one_result_per_student {W : Type} `{World W}
  (fuel : nat) (headless : bool) (students : list Student) :
  sat (W:=W) (main_async fuel headless students)
    (fun o _ =>
       forall results, o = Returned results ->
         map fst results = map email students).
Proof.
  unfold main_async. apply sat_bind. eapply sat_conseq; [apply sat_any|].
  intros [u|e|] t0 _; [|discriminate..].
  apply sat_try_finally, sat_bind. eapply sat_conseq; [apply sat_any|].
  intros [b|e|] t1 _; [| |discriminate].
  2:{ eapply sat_conseq; [apply sat_any|]. intros [u'|e'|] ? _; discriminate. }
  apply sat_bind. eapply sat_conseq; [apply run_students_contexts|].
  intros [r|e|] t2 (_ & _ & Hret); [| |discriminate].
  2:{ eapply sat_conseq; [apply sat_any|]. intros [u'|e'|] ? _; discriminate. }
  destruct (Hret r eq_refl) as (_ & _ & Hm).
  apply sat_bind. eapply sat_conseq; [apply sat_any|].
  intros [u'|e|] t3 _; [| |discriminate].
  2:{ eapply sat_conseq; [apply sat_any|]. intros [u''|e'|] ? _; discriminate. }
  apply sat_ret. eapply sat_conseq; [apply sat_any|].
  intros [u''|e'|] ? _; try discriminate.
  intros results Hr. injection Hr as <-. exact Hm.
Qed.

(** X13.  [main_async] asks for at most one browsing context per student and
    works on one context at a time: however it ends, every context asked
    for has been closed, except possibly the last one.  When it returns,
    it has asked for exactly one context per student and closed each of
    them. *)
Theorem one_context_per_student {W : Type} `{World W}
  (fuel : nat) (headless : bool) (students : list Student) :
  sat (W:=W) (main_async fuel headless students)
    (fun o t =>
       (contexts_closed t <= contexts_opened t <= contexts_closed t + 1)%nat /\
       (contexts_opened t <= length students)%nat /\
       forall results, o = Returned results ->
         contexts_opened t = length students /\
         contexts_closed t = length students).
Proof.
  unfold main_async. sat_step. sat_step.
  2:{ cbn. split; [lia|]. split; [lia | discriminate]. }
  sat_step. sat_step. sat_step.
  2:{ sat_steps; cbn; (split; [lia|]); (split; [lia | discriminate]). }
  sat_step. eapply sat_conseq; [apply run_students_contexts|].
  intros [r'|e|] t2 (Hbal & Hmax & Hret).
  - destruct (Hret r' eq_refl) as (Ho & Hc & _).
    sat_steps; (split; [count_contexts|]); (split; [count_contexts|]);
      try discriminate.
    intros results _. split; count_contexts.
  - sat_steps; (split; [count_contexts|]); (split; [count_contexts | discriminate]).
  - split; [count_contexts|]. split; [count_contexts | discriminate].
Qed.


(** X14.  Once the Playwright driver has started, [main_async] stops it
    whatever happens next: when the launch fails, when a student's flow
    raises, when closing the browser fails, and when everything goes well,
    the last primitive call is the stopping of the driver.  The only trace
    that does not end with it is the one where starting the driver failed.
    (A flow that runs forever never reaches the end.) *)
Theorem driver_always_stopped {W : Type} `{World W}
  (fuel : nat) (headless : bool) (students : list Student) :
  sat (W:=W) (main_async fuel headless students)
    (fun o t =>
       o <> Diverged ->
       (exists e, t = [Ev StartPlaywright (Err e)]) \/
       (exists pre a, t = pre ++ [Ev StopPlaywright a])).
Proof.
  unfold main_async.
  apply sat_bind, sat_call. intros [[]|e]; cbv beta iota delta [of_answer].
  2:{ intros _. left. exists e. reflexivity. }
  apply sat_try_finally. eapply sat_conseq; [apply sat_any|].
  intros [r|e|] t1 _.
  - apply sat_call. intros a. destruct a as [[]|e']; cbv beta iota delta [of_answer];
      intros _; right; eexists (_ :: t1), _; reflexivity.
  - apply sat_call. intros a. destruct a as [[]|e']; cbv beta iota delta [of_answer];
      intros _; right; eexists (_ :: t1), _; reflexivity.
  - intros Hd. contradiction.
Qed.

(** X15.  [_run_for_student] opens the page before it enters its [try]: when
    the context opens and [new_page] raises, the exception leaves at once
    and the context that was just opened is never closed.  The booking flow
    is not started. *)
Theorem failed_page_leaves_context_open {W : Type} `{World W}
  (fuel : nat) (b : browser) (headed : bool) (student : Student)
  (w w1 w2 : W) (c : context) (e : exn) :
  perform (NewContext b 1280 800) w = (Ok c, w1) ->
  perform (NewPage c) w1 = (Err e, w2) ->
  _run_for_student fuel b headed student w =
  (Raised e, w2, [Ev (NewContext b 1280 800) (Ok c); Ev (NewPage c) (Err e)]) /\
  contexts_closed (_run_for_student fuel b headed student w).2 = 0%nat.
Proof.
  intros Hctx Hpage.
  assert (Hrun : _run_for_student fuel b headed student w =
                 (Raised e, w2,
                  [Ev (NewContext b 1280 800) (Ok c); Ev (NewPage c) (Err e)])).
  { unfold _run_for_student, _new_context.
    unfold bind at 1. unfold call at 1. rewrite Hctx. cbn.
    unfold bind at 1. unfold call at 1. rewrite Hpage. reflexivity. }
  split; [exact Hrun|]. rewrite Hrun. reflexivity.
Qed.

Lemma failed_page_leaves_context_open_witness :
  @_run_for_student unit no_page_world 5 1%nat true alice tt =
  (Raised (Exception "Target closed"), tt,
   [Ev (NewContext 1%nat 1280 800) (Ok 1%nat);
    Ev (NewPage 1%nat) (Err (Exception "Target closed"))]) /\
  contexts_closed (@_run_for_student unit no_page_world 5 1%nat true alice tt).2 = 0%nat.
Proof.
  apply (@failed_page_leaves_context_open unit no_page_world 5 1%nat true alice
           tt tt tt 1%nat (Exception "Target closed")); reflexivity.
Defined.


(** ** Data loading *)

(** X16.  Every CSV row that was read becomes a student, in the order of the
    file, and a read error does not take them back: when reading breaks
    with an [Exception] after some rows, the loader returns the students of
    the rows read before the error, without the default student and
    without raising. *)
Theorem csv_rows_become_students {W : Type} `{World W}
  (file : string) (w w' : W) (reader : csv_reader) :
  file <> "" ->
  perform (OpenCsv file) w = (Ok reader, w') ->
  rows reader <> [] ->
  match failure reader with
  | Some e => is_Exception e = true
  | None => True
  end ->
  load_students_from_csv (Some file) w =
  (Returned (map from_row (rows reader)), w', [Ev (OpenCsv file) (Ok reader)]).
Proof.
  intros Hfile Hopen Hrows Hfail. unfold load_students_from_csv.
  destruct file as [|c file]; [contradiction|]. cbn [nonempty negb].
  unfold bind, try_except, call. rewrite Hopen.
  destruct (rows reader) as [|row rest] eqn:Hr; [contradiction|].
  destruct (failure reader) as [e|]; [rewrite Hfail|]; reflexivity.
Qed.

Lemma csv_rows_become_students_witness :
  @load_students_from_csv sim (sim_world roster_site) (Some "broken.csv") sim0 =
  (Returned (map from_row [ {[ "email" := "alice@example.com" ]} ]), sim0,
   [Ev (OpenCsv "broken.csv")
      (Ok (CsvReader [ {[ "email" := "alice@example.com" ]} ]
             (Some (Exception "UnicodeDecodeError"))))]).
Proof.
  apply (@csv_rows_become_students sim (sim_world roster_site) "broken.csv" sim0 sim0
           (CsvReader [ {[ "email" := "alice@example.com" ]} ]
              (Some (Exception "UnicodeDecodeError")))).
  - discriminate.
  - reflexivity.
  - discriminate.
  - reflexivity.
Defined.

(** X17.  [Student.from_row] reads the nine columns it names and nothing
    else: two rows that agree on these columns give the same student,
    whatever other columns they have. *)
Theorem from_row_reads_its_columns_only (row1 row2 : gmap string string) :
  (forall column, In column COLUMNS -> row1 !! column = row2 !! column) ->
  from_row row1 = from_row row2.
Proof.
  intros Hsame. unfold from_row.
  rewrite !Hsame by (unfold COLUMNS; cbn [In]; tauto). reflexivity.
Qed.

Lemma from_row_reads_its_columns_only_witness :
  from_row {[ "email" := "alice@example.com"; "nickname" := "Al" ]} =
  from_row {[ "email" := "alice@example.com" ]}.
Proof.
  apply (from_row_reads_its_columns_only
           {[ "email" := "alice@example.com"; "nickname" := "Al" ]}
           {[ "email" := "alice@example.com" ]}).
  intros column Hin. unfold COLUMNS in Hin. cbn [In] in Hin.
  repeat destruct Hin as [<-|Hin]; try contradiction; reflexivity.
Defined.

Lemma getenv_unset {W : Type} `{World W} (name fallback : string) (w : W) :
  (perform (GetEnv name) w).1 = Ok None ->
  (getenv name fallback w).1.1 = Returned fallback.
Proof.
  intros Hunset. unfold getenv, bind, call.
  destruct (perform (GetEnv name) w) as [a w1]. cbn in Hunset. subst a. reflexivity.
Qed.

(** X18.  With [--env-only] and none of the nine [GOETHE_] variables set,
    [build_students] returns the embedded default student alone, for every
    CSV path: it is the list that [--ignore-env] gives. *)
Theorem env_only_defaults_to_embedded {W : Type} `{World W}
  (csv_path : option string) (w : W) :
  (forall name w0, In name ENV_NAMES -> (perform (GetEnv name) w0).1 = Ok None) ->
  (build_students false true csv_path w).1.1 = Returned [DUMMY_STUDENT] /\
  (build_students false true csv_path w).1.1 = (build_students true true csv_path w).1.1.
Proof.
  intros Hunset.
  assert (Hdefault : (build_students false true csv_path w).1.1 =
                     Returned [DUMMY_STUDENT]).
  { assert (Henv : forall w0 : W, (student_from_env w0).1.1 = Returned DUMMY_STUDENT).
    { intros w0. unfold student_from_env.
      repeat (rewrite bind_outcome, getenv_unset
                by (apply Hunset; unfold ENV_NAMES; cbn [In]; tauto)).
      reflexivity. }
    unfold build_students. rewrite bind_outcome, Henv. reflexivity. }
  split; [exact Hdefault|]. rewrite Hdefault. reflexivity.
Qed.

Lemma env_only_defaults_to_embedded_witness :
  (@build_students sim (sim_world blank_site) false true (Some "students.csv") sim0).1.1 =
    Returned [DUMMY_STUDENT] /\
  (@build_students sim (sim_world blank_site) false true (Some "students.csv") sim0).1.1 =
    (@build_students sim (sim_world blank_site) true true (Some "students.csv") sim0).1.1.
Proof.
  apply (@env_only_defaults_to_embedded sim (sim_world blank_site)
           (Some "students.csv") sim0).
  intros name w0 _. reflexivity.
Defined.

Section DataFootprint.
Context {W : Type} `{World W}.

Lemma only_load_students_from_csv (path : option string) :
  only (W:=W) is_data_source (load_students_from_csv path).
Proof. unfold load_students_from_csv. only_with fail. Qed.

Lemma only_student_from_env : only (W:=W) is_data_source student_from_env.
Proof. unfold student_from_env, getenv. only_with fail. Qed.

Lemma only_build_students (ignore_env env_only : bool) (csv_path : option string) :
  only (W:=W) is_data_source (build_students ignore_env env_only csv_path).
Proof.
  unfold build_students.
  only_with ltac:(first [ apply only_load_students_from_csv
                        | apply only_student_from_env ]).
Qed.

Lemma load_students_nonempty (path : option string) :
  sat (W:=W) (load_students_from_csv path)
    (fun o _ =>
       match o with
       | Returned students => students <> []
       | Raised _ => True
       | Diverged => False
       end).
Proof.
  unfold load_students_from_csv. destruct path as [file|].
  2:{ sat_steps. discriminate. }
  destruct (negb (nonempty file)).
  { sat_steps. discriminate. }
  sat_step. apply sat_try_except. sat_steps; try discriminate; try exact I.
  all: destruct (map from_row (rows r)); discriminate.
Qed.

End DataFootprint.

(** X19.  [build_students] never returns an empty list, whatever the flags,
    the path, the file and the environment are, so the orchestrator always
    has a student to work for.  All it touches on the way is the CSV file
    and the environment: it makes no call to the browser. *)
Theorem build_students_never_empty {W : Type} `{World W}
  (ignore_env env_only : bool) (csv_path : option string) :
  sat (W:=W) (build_students ignore_env env_only csv_path)
    (fun o t =>
       forallb is_data_source t = true /\
       match o with
       | Returned students => students <> []
       | Raised _ => True
       | Diverged => False
       end).
Proof.
  apply sat_and; [apply only_build_students|].
  unfold build_students.
  destruct ignore_env, env_only; try apply load_students_nonempty.
  - apply sat_ret. discriminate.
  - apply sat_bind. unfold student_from_env, getenv.
    sat_steps; first [discriminate | exact I].
Qed.


(** ** The alarm controller *)

Lemma deliver_task (n : nat) (a : AlarmController) : _task (deliver n a) = _task a.
Proof.
  induction n as [|n IH]; [reflexivity|].
  unfold deliver in *. cbn [Nat.iter]. exact IH.
Qed.

(** X20.  How [start] and [stop] compose.  Starting a controller twice is
    the same as starting it once: no second task is created.  A stop that
    arrives after the start is kept by a further start, which neither
    clears the flag nor creates a task, because the first task is still
    there.  A stop that arrives before the first start is lost: [start]
    clears the flag, and the alarm will ring. *)
Theorem start_keeps_a_pending_alarm (a : AlarmController) (n : nat) :
  start (start a) = start a /\
  start (deliver n (start a)) = deliver n (start a) /\
  start (deliver n new_alarm) = start new_alarm.
Proof.
  assert (Hpending : _task (start a) = Some Pending).
  { destruct a as [s [[|]|]]; reflexivity. }
  split; [|split].
  - unfold start at 1. rewrite Hpending. reflexivity.
  - unfold start at 1. rewrite deliver_task, Hpending. reflexivity.
  - unfold start. rewrite deliver_task. reflexivity.
Qed.

(** X21.  The alarm loop tests the stop flag before its first beep: when the
    page has invoked the stop binding after [start] and before the loop
    runs, [wait_stopped] returns at once, with the task done, and not a
    single beep is heard, in every world and even with no fuel at all. *)
Theorem stop_before_first_round_is_silent {W : Type} `{World W}
  (fuel n : nat) (w : W) :
  wait_stopped fuel (deliver (S n) (start new_alarm)) w =
  (Returned (Alarm true (Some Done)), w, []).
Proof.
  assert (Hstop : _stop (deliver (S n) (start new_alarm)) = true)
    by apply deliver_stop.
  assert (Htask : _task (deliver (S n) (start new_alarm)) = Some Pending)
    by apply deliver_task.
  unfold wait_stopped. rewrite Htask.
  assert (Hrun : _run fuel (deliver (S n) (start new_alarm)) w =
                 (Returned (deliver (S n) (start new_alarm)), w, [])).
  { destruct fuel; cbn [_run]; rewrite Hstop; reflexivity. }
  unfold bind. rewrite Hrun. cbv beta iota. unfold ret. rewrite Hstop. reflexivity.
Qed.

(** ** The page script *)

(** X22.  Only a double-click reaches the stop binding.  An event of any
    other type, a single click included, invokes nothing and leaves the
    listener in place.  And the listener is good for one double-click
    only, whether or not it could do anything: when the binding is not
    defined on [window], the first double-click invokes nothing and still
    removes the listener, so that no later double-click can stop the
    alarm. *)
Theorem only_a_double_click_counts (window window' : list string) (type : string)
  (n : nat) :
  type <> "dblclick" ->
  ~ In STOP_BINDING window' ->
  dispatch window type (eval_script doubleclick_stop_script (Document [])) =
    ([], eval_script doubleclick_stop_script (Document [])) /\
  dispatch_many window' "dblclick" (S n)
    (eval_script doubleclick_stop_script (Document [])) = ([], Document []).
Proof.
  intros Htype Hundefined. split.
  - unfold dispatch, eval_script, doubleclick_stop_script.
    cbn [listeners app List.filter listens event_type once].
    assert (Hother : String.eqb "dblclick" type = false).
    { apply String.eqb_neq. intros Heq. apply Htype. symmetry. exact Heq. }
    unfold listens. cbn [event_type]. rewrite Hother. reflexivity.
  - assert (Hidle : forall k,
              dispatch_many window' "dblclick" k (Document []) = ([], Document [])).
    { induction k as [|k IHk]; [reflexivity|].
      cbn [dispatch_many]. change (dispatch window' "dblclick" (Document []))
        with (@nil string, Document []). cbv beta iota. rewrite IHk. reflexivity. }
    assert (Hdef : existsb (String.eqb STOP_BINDING) window' = false).
    { destruct (existsb (String.eqb STOP_BINDING) window') eqn:Hex; [|reflexivity].
      apply existsb_exists in Hex as (name & Hin & Heq).
      apply String.eqb_eq in Heq. subst name. contradiction. }
    assert (Hfirst : dispatch window' "dblclick"
                       (eval_script doubleclick_stop_script (Document [])) =
                     ([], Document [])).
    { unfold dispatch, eval_script, doubleclick_stop_script.
      cbn [listeners app List.filter listens event_type once String.eqb Ascii.eqb
           Bool.eqb andb negb map concat run_listener body run_stmt].
      rewrite Hdef. reflexivity. }
    cbn [dispatch_many]. rewrite Hfirst. cbv beta iota. rewrite Hidle. reflexivity.
Qed.

Lemma only_a_double_click_counts_witness :
  dispatch [STOP_BINDING] "click" (eval_script doubleclick_stop_script (Document [])) =
    ([], eval_script doubleclick_stop_script (Document [])) /\
  dispatch_many [] "dblclick" 3
    (eval_script doubleclick_stop_script (Document [])) = ([], Document []).
Proof.
  apply (only_a_double_click_counts [STOP_BINDING] [] "click" 2).
  - discriminate.
  - intros [].
Defined.


(** ** What the form filler types *)

Lemma filled_values_app (t1 t2 : list event) :
  filled_values (t1 ++ t2) = filled_values t1 ++ filled_values t2.
Proof.
  induction t1 as [|e t1 IH]; [reflexivity|].
  cbn [app filled_values]. destruct (filled_value e); rewrite IH; reflexivity.
Qed.

Lemma lower_map_values (student : Student) (key val : string) :
  In (key, val) (lower_map student) ->
  val <> "" /\ In val (personal_values student).
Proof.
  unfold lower_map, personal_values. intros Hin.
  apply in_map_iff in Hin as ([k v] & Heq & Hin). cbn [fst snd] in Heq.
  injection Heq as _ <-. apply List.filter_In in Hin as [Hin Hne].
  split.
  - intros ->. discriminate Hne.
  - apply in_map_iff. exists (k, v). split; [reflexivity | exact Hin].
Qed.

(** The one value that the handling of an element may have typed. *)
Lemma handled_values (student : Student) (inp : element) (t : list event) :
  handled student inp t ->
  filled_values t = [] \/
  exists val, filled_values t = [val] /\ val <> "" /\ In val (personal_values student).
Proof.
  intros [(e & [->|[(name & ->)|(name & placeholder & ->)]])
         |(name & placeholder & aria & rest & -> & Hfilled)];
    try (left; reflexivity).
  rewrite filled_values_app. change (filled_values (attributes_read inp name placeholder aria))
    with (@nil string). cbn [app].
  destruct (first_match (lower_map student) (match_txt name placeholder aria))
    as [[key val]|] eqn:Hfound; cbn [filled_as] in Hfilled.
  - apply List.find_some in Hfound as [Hin _].
    destruct Hfilled as [(e & ->)|(tag & a & ->)]; [left; reflexivity|].
    right. exists val. split; [|apply (lower_map_values student key val Hin)].
    destruct (bool_decide (tag = "select")); reflexivity.
  - left. rewrite Hfilled. reflexivity.
Qed.

(** X23.  Whatever the page holds and however the loop ends, the form filler
    types or selects at most one value per form element, every value it
    types is one of the student's personal values (phone, first name,
    surname, county, place of birth, postal code, date of birth), and it
    never types an empty value: a field for which the student has nothing
    is left as it is. *)
Theorem form_filler_types_personal_values_only {W : Type} `{World W}
  (student : Student) (inputs : list element) :
  sat (W:=W) (fill_inputs student inputs)
    (fun _ t =>
       (length (filled_values t) <= length inputs)%nat /\
       Forall (fun val => val <> "" /\ In val (personal_values student))
         (filled_values t)).
Proof.
  induction inputs as [|inp rest IH]; cbn [fill_inputs].
  - apply sat_ret. split; [reflexivity | constructor].
  - apply sat_bind. eapply sat_conseq; [apply fill_input_spec|].
    intros o t [Hh _].
    assert (Hone : (length (filled_values t) <= 1)%nat /\
                   Forall (fun val => val <> "" /\ In val (personal_values student))
                     (filled_values t)).
    { destruct (handled_values student inp t Hh) as [->|(val & -> & Hval)].
      - split; [cbn; lia | constructor].
      - split; [reflexivity | constructor; [exact Hval | constructor]]. }
    destruct Hone as [Hlen Hall]. cbn [length].
    destruct o as [u|e|]; [|split; [lia | exact Hall]..].
    eapply sat_conseq; [exact IH|]. intros o2 t2 [Hlen2 Hall2].
    rewrite filled_values_app, length_app. split; [lia|].
    apply Forall_app. split; assumption.
Qed.

(** ** The reload delay grows with the draw *)

(** X24.  The reload delay is monotone in the generator's draw: a larger
    draw never gives a shorter delay, all roundings of the binary64
    computation included; and a draw of zero gives no delay at all. *)
Theorem larger_draw_never_shorter_delay (r1 r2 : Binary64.float) (e : Z) :
  (0 <= Binary64.mant r1)%Z ->
  (Binary64.value r1 <= Binary64.value r2)%Q ->
  (Binary64.value (refresh_delay_of r1) <= Binary64.value (refresh_delay_of r2))%Q /\
  (Binary64.value (refresh_delay_of (Binary64.Float 0 e)) == 0)%Q.
Proof.
  intros Hm1 Hle.
  assert (H800 : (0 <= Binary64.mant (Binary64.of_int (MAX_REFRESH_MS - 0)))%Z)
    by (vm_compute; discriminate).
  assert (H0 : (0 <= Binary64.mant (Binary64.of_int 0))%Z)
    by (vm_compute; discriminate).
  assert (H1000 : (0 < Binary64.mant (Binary64.of_int 1000))%Z)
    by (vm_compute; reflexivity).
  assert (Hscaled : forall r, (0 <= Binary64.mant r)%Z ->
            (0 <= Binary64.mant
                    (Binary64.mul (Binary64.of_int (MAX_REFRESH_MS - 0)) r))%Z).
  { intros r Hr.
    destruct (mul_rounds (Binary64.of_int (MAX_REFRESH_MS - 0)) r)
      as (n & d & -> & Hd & Hn & _).
    apply round_mant_nonneg; [apply Hn; assumption | exact Hd]. }
  assert (Hshifted : forall x, (0 <= Binary64.mant x)%Z ->
            (0 <= Binary64.mant (Binary64.add (Binary64.of_int 0) x))%Z).
  { intros x Hx.
    destruct (add_rounds (Binary64.of_int 0) x) as (n & d & -> & Hd & Hn & _).
    apply round_mant_nonneg; [apply Hn; assumption | exact Hd]. }
  split.
  - unfold refresh_delay_of, uniform.
    apply div_mono; [apply Hshifted, Hscaled, Hm1 | exact H1000 |].
    apply add_mono; [exact H0 | apply Hscaled, Hm1 |].
    apply mul_mono; [exact H800 | exact Hm1 | exact Hle].
  - assert (Hzero : Binary64.mul (Binary64.of_int (MAX_REFRESH_MS - 0))
                      (Binary64.Float 0 e) = Binary64.Float 0 Binary64.emin).
    { unfold Binary64.mul, Binary64.scale2. cbn [Binary64.mant Binary64.expo].
      rewrite Z.mul_0_r.
      destruct (0 <=? _)%Z; cbn [Z.mul]; reflexivity. }
    unfold refresh_delay_of, uniform. rewrite Hzero. vm_compute. reflexivity.
Qed.

Lemma larger_draw_never_shorter_delay_witness :
  (Binary64.value (refresh_delay_of (Binary64.Float (2 ^ 52) (-54))) <=
   Binary64.value (refresh_delay_of (Binary64.Float (2 ^ 52) (-53))))%Q /\
  (Binary64.value (refresh_delay_of (Binary64.Float 0 0)) == 0)%Q.
Proof.
  apply (larger_draw_never_shorter_delay
           (Binary64.Float (2 ^ 52) (-54)) (Binary64.Float (2 ^ 52) (-53)) 0).
  - vm_compute. discriminate.
  - vm_compute. discriminate.
Defined.


(** ** The poll loop sleeps before every reload *)

Lemma paced_quiet (t : list event) : noise t = 0%nat -> paced t.
Proof.
  intros Hq pre p wait_until a post ->.
  apply noise_reloads in Hq. rewrite reloads_app in Hq. cbn in Hq. lia.
Qed.

Lemma paced_app (t1 t2 : list event) : paced t1 -> paced t2 -> paced (t1 ++ t2).
Proof.
  intros H1 H2 pre p wait_until a post Heq.
  apply app_eq_app in Heq as [l [[-> Hl]|[-> Hl]]].
  - destruct l as [|e l].
    + cbn [app] in Hl. destruct (H2 [] p wait_until a post (eq_sym Hl)) as (pre' & r & Hpre).
      destruct pre'; discriminate Hpre.
    + cbn [app] in Hl. injection Hl as He _. subst e.
      apply (H1 pre p wait_until a l). reflexivity.
  - destruct (H2 l p wait_until a post Hl) as (pre' & r & ->).
    exists (t1 ++ pre'), r. rewrite <- app_assoc. reflexivity.
Qed.

Lemma paced_round (t0 rest : list event) (r : Binary64.float) (p : page)
  (wait_until : string) (a : answer unit) :
  noise t0 = 0%nat ->
  paced rest ->
  paced (t0 ++ Ev Random (Ok r) :: Ev (Sleep (refresh_delay_of r)) (Ok tt) ::
               Ev (Reload p wait_until) a :: rest).
Proof.
  intros H0 Hrest.
  change (paced (t0 ++ [Ev Random (Ok r); Ev (Sleep (refresh_delay_of r)) (Ok tt);
                        Ev (Reload p wait_until) a] ++ rest)).
  apply paced_app; [apply paced_quiet, H0|]. apply paced_app; [|exact Hrest].
  intros pre p' wait_until' a' post Heq.
  destruct pre as [|e1 [|e2 [|e3 pre]]]; cbn [app] in Heq.
  - apply (f_equal (fun l => match l with e :: _ => is_reload e | [] => false end))
      in Heq. discriminate Heq.
  - apply (f_equal (fun l => match l with _ :: e :: _ => is_reload e | _ => false end))
      in Heq. discriminate Heq.
  - apply (f_equal (firstn 2)) in Heq. cbn [firstn] in Heq. rewrite <- Heq.
    exists [], r. reflexivity.
  - apply (f_equal (@length event)) in Heq. cbn [length] in Heq.
    rewrite length_app in Heq. cbn [length] in Heq. lia.
Qed.

(** X25.  The poll loop never reloads without having slept first.  In every
    world and however the loop ends, each reload in its trace comes right
    after a draw of the random generator that succeeded and a sleep, that
    succeeded as well, of exactly the delay computed from that draw; a
    failed draw or a failed sleep is never followed by a reload. *)
Theorem every_reload_follows_its_delay {W : Type} `{World W}
  (fuel : nat) (p : page) (email : string) :
  sat (W:=W) (_poll_until_select_modules fuel p email) (fun _ t => paced t).
Proof.
  induction fuel as [|fuel IH]; cbn [_poll_until_select_modules].
  - sat_steps. apply paced_quiet. reflexivity.
  - sat_step. sat_use poll_select_modules_spec.
    2:{ apply paced_quiet. assumption. }
    destruct a.
    { sat_steps. apply paced_quiet. count_noise. }
    sat_step. sat_use poll_exam_button_spec.
    2:{ apply paced_quiet. count_noise. }
    destruct a.
    { sat_steps. apply paced_quiet. count_noise. }
    unfold _rand_refresh_delay.
    sat_steps; repeat match goal with u : unit |- _ => destruct u end.
    + (* the page reloaded *)
      sat_use short_wait_spec.
      2:{ subst. rewrite <- ?app_assoc. cbn [app]. rewrite app_assoc.
          apply paced_round; [count_noise | apply paced_quiet; reflexivity]. }
      subst. sat_step. sat_use handle_privacy_popup_spec.
      2:{ rewrite <- ?app_assoc. cbn [app]. rewrite app_assoc.
          apply paced_round; [count_noise | apply paced_quiet; count_noise]. }
      eapply sat_conseq; [apply IH|]. intros o t3 Ht3.
      rewrite <- ?app_assoc. cbn [app]. rewrite app_assoc.
      apply paced_round; [count_noise|].
      change (paced ([short_wait_done] ++ t1 ++ t3)).
      apply paced_app; [apply paced_quiet; reflexivity|].
      apply paced_app; [apply paced_quiet; assumption | exact Ht3].
    + (* the reload timed out *)
      eapply sat_conseq; [apply IH|]. intros o t3 Ht3.
      rewrite <- ?app_assoc. cbn [app]. rewrite app_assoc.
      apply paced_round; [count_noise | exact Ht3].
    + (* the reload failed otherwise *)
      eapply sat_conseq; [apply IH|]. intros o t3 Ht3.
      rewrite <- ?app_assoc. cbn [app]. rewrite app_assoc.
      apply paced_round; [count_noise | exact Ht3].
    + rewrite <- ?app_assoc. cbn [app]. rewrite app_assoc.
      apply paced_round; [count_noise | apply paced_quiet; reflexivity].
    + apply paced_quiet. count_noise.
    + apply paced_quiet. count_noise.
Qed.


(** * The command line layer *)

Section IOSat.
Context {W : Type} `{System W}.

Lemma io_sat_conseq {A} (c : IO W A) (Q1 Q : outcome A -> list sys_event -> Prop) :
  io_sat c Q1 -> (forall o t, Q1 o t -> Q o t) -> io_sat c Q.
Proof. intros Hc HQ w. apply HQ, Hc. Qed.

Lemma io_sat_any {A} (c : IO W A) : io_sat c (fun _ _ => True).
Proof. intros w. exact I. Qed.

Lemma io_sat_ret {A} (a : A) (Q : outcome A -> list sys_event -> Prop) :
  Q (Returned a) [] -> io_sat (W:=W) (io_ret a) Q.
Proof. intros HQ w. exact HQ. Qed.

Lemma io_sat_call {R} (o : sys_op R) (Q : outcome R -> list sys_event -> Prop) :
  (forall a, Q (of_answer a) [SysEv o a]) -> io_sat (io_call o) Q.
Proof.
  intros HQ w. unfold io_call. destruct (sys_perform o w) as [a w'].
  specialize (HQ a). destruct a; exact HQ.
Qed.

Lemma io_sat_bind {A B} (c : IO W A) (k : A -> IO W B)
  (Q : outcome B -> list sys_event -> Prop) :
  io_sat c (fun o t1 =>
              match o with
              | Returned a => io_sat (k a) (fun o2 t2 => Q o2 (t1 ++ t2))
              | Raised e => Q (Raised e) t1
              | Diverged => Q Diverged t1
              end) ->
  io_sat (io_bind c k) Q.
Proof.
  intros Hc w. specialize (Hc w). unfold io_bind.
  destruct (c w) as [[[a|e|] w1] t1]; cbn in *; try exact Hc.
  specialize (Hc w1). destruct (k a w1) as [[o2 w2] t2]. exact Hc.
Qed.

Lemma io_sat_try_except {A} (c : IO W A) (h : exn -> IO W A)
  (Q : outcome A -> list sys_event -> Prop) :
  io_sat c (fun o t1 =>
              match o with
              | Raised e =>
                  if is_Exception e
                  then io_sat (h e) (fun o2 t2 => Q o2 (t1 ++ t2))
                  else Q (Raised e) t1
              | _ => Q o t1
              end) ->
  io_sat (io_try_except c h) Q.
Proof.
  intros Hc w. specialize (Hc w). unfold io_try_except.
  destruct (c w) as [[[a|e|] w1] t1]; cbn in *; try exact Hc.
  destruct (is_Exception e); [|exact Hc].
  specialize (Hc w1). destruct (h e w1) as [[o2 w2] t2]. exact Hc.
Qed.

Lemma io_sat_lift {A} (c : M W A) (Q : outcome A -> list sys_event -> Prop) :
  sat c (fun o t => Q o (map BotEv t)) -> io_sat (lift c) Q.
Proof.
  intros Hc w. specialize (Hc w). unfold lift.
  destruct (c w) as [[o w1] t1]. exact Hc.
Qed.

End IOSat.

Ltac io_step :=
lazymatch goal with
| |- io_sat (io_bind _ _) _ => apply io_sat_bind
| |- io_sat (io_ret _) _ => apply io_sat_ret
| |- io_sat (io_call _) _ =>
    apply io_sat_call; intros [?|?]; cbv beta iota delta [of_answer]
| |- io_sat (io_try_except _ _) _ => apply io_sat_try_except
| |- io_sat (if ?b then _ else _) _ => destruct b eqn:?
| |- io_sat (match ?x with _ => _ end) _ => destruct x eqn:?
| |- if is_Exception ?e then _ else _ => destruct (is_Exception e) eqn:?
end.

Ltac io_steps := repeat io_step.

(** ** Logging *)

(** X26.  [_log] writes the line to stdout first and to the log file after
    that, the same line in both; without an open log file it writes it to
    stdout only.  A log file that cannot be written or flushed never
    disturbs the caller: the [Exception] is swallowed and [_log] returns.
    What can leave [_log] is a failure of the clock or of stdout, or an
    exception that is not an [Exception]. *)
Theorem log_file_failure_is_swallowed {W : Type} `{World W} `{System W}
  (_LOG_F : option handle) (level msg email : string) :
  io_sat (W:=W) (_log _LOG_F level msg email)
    (fun o t =>
       match o with
       | Returned _ =>
           exists ts rest,
             t = SysEv (Strftime "%Y-%m-%d %H:%M:%S") (Ok ts) ::
                 SysEv (StdoutWrite (log_line ts level email msg)) (Ok tt) :: rest /\
             match _LOG_F with
             | Some f => logged_to_file f (log_line ts level email msg) rest
             | None => rest = []
             end
       | Raised e =>
           is_Exception e = false \/
           t = [SysEv (Strftime "%Y-%m-%d %H:%M:%S") (Err e)] \/
           exists ts,
             t = [SysEv (Strftime "%Y-%m-%d %H:%M:%S") (Ok ts);
                  SysEv (StdoutWrite (log_line ts level email msg)) (Err e)]
       | Diverged => False
       end).
Proof.
  unfold _log, _ts. apply io_sat_bind, io_sat_call.
  intros [ts|e]; cbv beta iota delta [of_answer]; [|right; left; reflexivity].
  apply io_sat_bind, io_sat_call.
  intros [[]|e]; cbv beta iota delta [of_answer]; [|right; right; exists ts; reflexivity].
  destruct _LOG_F as [f|].
  2:{ apply io_sat_ret. exists ts, []. split; reflexivity. }
  apply io_sat_try_except, io_sat_bind, io_sat_call.
  intros [[]|x]; cbv beta iota delta [of_answer].
  - apply io_sat_call. intros [[]|x]; cbv beta iota delta [of_answer].
    + exists ts, [SysEv (FileWrite f (log_line ts level email msg)) (Ok tt);
                  SysEv (FileFlush f) (Ok tt)].
      split; [reflexivity | left; reflexivity].
    + destruct (is_Exception x) eqn:Hx; [|left; reflexivity].
      apply io_sat_ret.
      exists ts, [SysEv (FileWrite f (log_line ts level email msg)) (Ok tt);
                  SysEv (FileFlush f) (Err x)].
      split; [reflexivity|]. right. right. exists x. split; [exact Hx | reflexivity].
  - destruct (is_Exception x) eqn:Hx; [|left; reflexivity].
    apply io_sat_ret.
    exists ts, [SysEv (FileWrite f (log_line ts level email msg)) (Err x)].
    split; [reflexivity|]. right. left. exists x. split; [exact Hx | reflexivity].
Qed.










(** X28.  [_init_log] never lets an [Exception] out, whatever the file
    system does: when any of its calls fails (the directory cannot be made,
    the old file cannot be removed, the file cannot be opened), it gives up
    logging to a file and returns without a handle, so the program runs on
    with stdout alone.  When it returns a handle, every call succeeded, in
    this order: the parent directory was made if it did not exist, the old
    log file was removed if there was one, and then the file was opened. *)
Theorem init_log_never_raises {W : Type} `{World W} `{System W} (path : string) :
  io_sat (W:=W) (_init_log path)
    (fun o t =>
       match o with
       | Returned (Some f) =>
           exists parent_exists exists_ : bool,
             t = [SysEv (ParentExists path) (Ok parent_exists)] ++
                 (if parent_exists then [] else [SysEv (ParentMkdir path) (Ok tt)]) ++
                 [SysEv (PathExists path) (Ok exists_)] ++
                 (if exists_ then [SysEv (Unlink path) (Ok tt)] else []) ++
                 [SysEv (OpenWrite path) (Ok f)]
       | Returned None =>
           exists pre R (o : sys_op R) x,
             is_Exception x = true /\ t = pre ++ [SysEv o (Err x)]
       | Raised e => is_Exception e = false
       | Diverged => False
       end).
Proof.
  unfold _init_log. apply io_sat_try_except.
  eapply io_sat_conseq.
  { instantiate (1 := fun o t =>
      match o with
      | Returned (Some f) =>
          exists parent_exists exists_ : bool,
            t = [SysEv (ParentExists path) (Ok parent_exists)] ++
                (if parent_exists then [] else [SysEv (ParentMkdir path) (Ok tt)]) ++
                [SysEv (PathExists path) (Ok exists_)] ++
                (if exists_ then [SysEv (Unlink path) (Ok tt)] else []) ++
                [SysEv (OpenWrite path) (Ok f)]
      | Returned None => False
      | Raised x => exists pre R (o : sys_op R), t = pre ++ [SysEv o (Err x)]
      | Diverged => False
      end).
    io_steps; repeat match goal with u : unit |- _ => destruct u end;
      repeat match goal with b : bool |- _ => destruct b end;
      cbn [app negb] in *;
      first [ discriminate
            | eexists true, true; reflexivity
            | eexists true, false; reflexivity
            | eexists false, true; reflexivity
            | eexists false, false; reflexivity
            | eexists [], _, _; reflexivity
            | eexists [_], _, _; reflexivity
            | eexists [_; _], _, _; reflexivity
            | eexists [_; _; _], _, _; reflexivity
            | eexists [_; _; _; _], _, _; reflexivity ]. }
  intros [[f|]|x|] t Ht; [exact Ht | contradiction | | contradiction].
  destruct Ht as (pre & R & o & ->).
  destruct (is_Exception x) eqn:Hx; [|reflexivity].
  apply io_sat_ret. rewrite app_nil_r. exists pre, R, o, x.
  split; [exact Hx | reflexivity].
Qed.


(** ** The entry point *)

Lemma launched_app (t1 t2 : list event) :
  launched (t1 ++ t2) = launched t1 ++ launched t2.
Proof.
  induction t1 as [|[R o a] t1 IH]; [reflexivity|].
  destruct o; cbn [app launched]; rewrite IH; reflexivity.
Qed.

Lemma bot_events_app (t1 t2 : list sys_event) :
  bot_events (t1 ++ t2) = bot_events t1 ++ bot_events t2.
Proof.
  induction t1 as [|[R o a|e] t1 IH]; [reflexivity|..];
    cbn [app bot_events]; rewrite IH; reflexivity.
Qed.

Lemma parsed_args_app (t1 t2 : list sys_event) :
  parsed_args (t1 ++ t2) = parsed_args t1 ++ parsed_args t2.
Proof.
  induction t1 as [|[R o a|e] t1 IH]; [reflexivity|..]; cbn [app parsed_args].
  - destruct o; try exact IH. destruct a; [|exact IH]. rewrite IH. reflexivity.
  - exact IH.
Qed.

Lemma printed_app (t1 t2 : list sys_event) :
  printed (t1 ++ t2) = printed t1 ++ printed t2.
Proof.
  induction t1 as [|[R o a|e] t1 IH]; [reflexivity|..]; cbn [app printed].
  - destruct o; try exact IH. rewrite IH. reflexivity.
  - exact IH.
Qed.

Lemma collected_from_bot (t : list event) :
  bot_events (map BotEv t) = t /\
  parsed_args (map BotEv t) = [] /\
  printed (map BotEv t) = [].
Proof.
  induction t as [|e t (IH1 & IH2 & IH3)]; [repeat split|].
  cbn [map bot_events parsed_args printed]. rewrite IH1. repeat split; assumption.
Qed.

Lemma mute_app (t1 t2 : list sys_event) : mute t1 -> mute t2 -> mute (t1 ++ t2).
Proof.
  intros (Ha1 & Hp1 & Hl1 & Hc1) (Ha2 & Hp2 & Hl2 & Hc2). unfold mute.
  rewrite parsed_args_app, printed_app, bot_events_app, launched_app,
    contexts_opened_app, Ha1, Ha2, Hp1, Hp2, Hl1, Hl2, Hc1, Hc2.
  repeat split.
Qed.

Lemma main_outcome_after_mute (args : argparse.Namespace) (o : outcome unit)
  (t1 t2 : list sys_event) :
  mute t1 -> main_outcome args o t2 -> main_outcome args o (t1 ++ t2).
Proof.
  intros (Ha1 & Hp1 & Hl1 & Hc1) (Ha2 & Hl2 & Hr2). unfold main_outcome.
  rewrite parsed_args_app, printed_app, bot_events_app, launched_app,
    contexts_opened_app, Ha1, Ha2, Hp1, Hl1, Hc1.
  split; [reflexivity|]. split; [exact Hl2 | exact Hr2].
Qed.

Lemma main_outcome_of_mute (args : argparse.Namespace) (o : outcome unit)
  (t : list sys_event) :
  mute t -> o <> Returned tt -> main_outcome args o t.
Proof.
  intros (Ha & Hp & Hl & Hc) Ho. split; [exact Ha|]. split; [left; exact Hl|].
  intros Hr. contradiction.
Qed.

Lemma within_page_no_launch (p : page) (t : list event) :
  forallb (within_page p) t = true -> launched t = [].
Proof.
  induction t as [|[R o a] t IH]; [reflexivity|].
  cbn [forallb]. intros Ht. apply andb_true_iff in Ht as [He Ht].
  destruct o; try discriminate He; cbn [launched]; apply IH, Ht.
Qed.

Lemma data_source_no_launch (t : list event) :
  forallb is_data_source t = true -> launched t = [].
Proof.
  induction t as [|[R o a] t IH]; [reflexivity|].
  cbn [forallb]. intros Ht. apply andb_true_iff in Ht as [He Ht].
  destruct o; try discriminate He; cbn [launched]; apply IH, Ht.
Qed.

Lemma data_source_mute (t : list event) :
  forallb is_data_source t = true -> mute (map BotEv t).
Proof.
  intros Ht. destruct (collected_from_bot t) as (Hb & Ha & Hp).
  unfold mute. rewrite Hb, Ha, Hp. split; [reflexivity|]. split; [reflexivity|].
  split; [apply data_source_no_launch, Ht|].
  eapply count_none; [|exact Ht].
  intros [R o a] He. destruct o; try discriminate He; reflexivity.
Qed.

Section Orchestration.
Context {W : Type} `{World W}.

Lemma run_students_launch_nothing (fuel : nat) (b : browser) (headless : bool)
  (students : list Student) (results : list (string * bool)) :
  sat (W:=W) (run_students fuel b headless students results)
    (fun _ t => launched t = []).
Proof.
  revert results. induction students as [|s rest IH]; intros results;
    cbn [run_students].
  - apply sat_ret. reflexivity.
  - unfold _run_for_student, _new_context.
    apply sat_bind, sat_bind, sat_call.
    intros [ctx|e]; cbv beta iota delta [of_answer]; [|reflexivity].
    apply sat_bind, sat_call.
    intros [p|e]; cbv beta iota delta [of_answer]; [|reflexivity].
    apply sat_bind, sat_try_finally. eapply sat_conseq; [apply only_run_booking|].
    intros [ok|e|] t Ht; apply within_page_no_launch in Ht.
    + apply sat_call. intros [[]|e]; cbv beta iota delta [of_answer].
      * apply sat_ret. eapply sat_conseq; [apply IH|]. intros o t2 H2.
        rewrite !launched_app, Ht, H2. reflexivity.
      * rewrite !launched_app, Ht. reflexivity.
    + apply sat_call. intros [[]|e']; cbv beta iota delta [of_answer];
        rewrite !launched_app, Ht; reflexivity.
    + rewrite !launched_app, Ht. reflexivity.
Qed.

Lemma main_async_launches_once (fuel : nat) (headless : bool)
  (students : list Student) :
  sat (W:=W) (main_async fuel headless students)
    (fun o t =>
       (launched t = [] \/ launched t = [headless]) /\
       forall results, o = Returned results ->
         length results = contexts_opened t).
Proof.
  unfold main_async. sat_step. sat_step.
  2:{ split; [left; reflexivity | discriminate]. }
  sat_step. sat_step. sat_step.
  2:{ sat_steps; cbn [app launched]; (split; [right; reflexivity | discriminate]). }
  sat_step. eapply sat_conseq.
  { apply sat_and; [apply run_students_launch_nothing | apply run_students_contexts]. }
  intros [r'|e|] t2 (Hl & _ & _ & Hret).
  - destruct (Hret r' eq_refl) as (Ho & _ & Hm).
    assert (Hlen : length r' = contexts_opened t2).
    { rewrite Ho. apply (f_equal (@length string)) in Hm.
      cbn [map app] in Hm. rewrite !length_map in Hm. exact Hm. }
    sat_steps;
      (split; [rewrite ?launched_app, ?Hl; cbn [app launched]; right; reflexivity|]);
      try discriminate.
    intros results Hr. injection Hr as <-. rewrite Hlen. count_contexts.
  - sat_steps; rewrite ?launched_app, ?Hl; cbn [app launched];
      (split; [right; reflexivity | discriminate]).
  - rewrite ?launched_app, ?Hl. cbn [app launched].
    split; [right; reflexivity | discriminate].
Qed.

End Orchestration.

Section Main.
Context {W : Type} `{World W} `{System W}.

Lemma main_outcome_bind_mute {A} (c : IO W A) (k : A -> IO W unit)
  (args : argparse.Namespace) :
  io_sat c (fun _ t => mute t) ->
  (forall a, io_sat (k a) (main_outcome args)) ->
  io_sat (io_bind c k) (main_outcome args).
Proof.
  intros Hc Hk. apply io_sat_bind. eapply io_sat_conseq; [exact Hc|].
  intros [a|e|] t1 H1; [|apply main_outcome_of_mute; [exact H1 | discriminate]..].
  eapply io_sat_conseq; [apply Hk|]. intros o t2 H2.
  apply main_outcome_after_mute; assumption.
Qed.

Lemma mute_init_log (path : string) :
  io_sat (W:=W) (_init_log path) (fun _ t => mute t).
Proof. unfold _init_log. io_steps; repeat split. Qed.

Lemma mute_load_env (env_path : option string) :
  io_sat (W:=W) (load_env env_path) (fun _ t => mute t).
Proof. unfold load_env. io_steps; repeat split. Qed.

Lemma mute_build_students (ignore_env env_only : bool) (csv_path : option string) :
  io_sat (W:=W) (lift (build_students ignore_env env_only csv_path))
    (fun _ t => mute t).
Proof.
  apply io_sat_lift. eapply sat_conseq; [apply only_build_students|].
  intros o t Ht. apply data_source_mute, Ht.
Qed.

Lemma print_results_spec (results : list (string * bool)) :
  io_sat (W:=W) (print_results results)
    (fun o t =>
       parsed_args t = [] /\ bot_events t = [] /\
       (o = Returned tt -> printed t = map verdict results)).
Proof.
  induction results as [|result rest IH]; cbn [print_results].
  - apply io_sat_ret. repeat split.
  - apply io_sat_bind, io_sat_call.
    intros [[]|e]; cbv beta iota delta [of_answer]; [|repeat split; discriminate].
    eapply io_sat_conseq; [exact IH|]. intros o t (Ha & Hb & Hp).
    cbn [app parsed_args bot_events printed map].
    split; [exact Ha|]. split; [exact Hb|]. intros Ho. rewrite (Hp Ho). reflexivity.
Qed.

Lemma main_runs (fuel : nat) (argv : option (list string)) :
  io_sat (W:=W) (main fuel argv)
    (fun o t =>
       match parsed_args t with
       | [] => launched (bot_events t) = [] /\ o <> Returned tt
       | args :: more =>
           more = [] /\
           (launched (bot_events t) = [] \/
            launched (bot_events t) = [wants_headless args]) /\
           (o = Returned tt ->
            exists results,
              printed t = map verdict results /\
              length results = contexts_opened (bot_events t))
       end).
Proof.
  assert (Hrest : forall argv' : list string,
    io_sat (W:=W)
      (parsed <- _parse_args argv' ;;
       let '(args, headed) := parsed in
       _LOG_F <- _init_log (argparse.log args) ;;
       load_env (argparse.env args) ;;
       students <- lift (build_students (argparse.ignore_env args)
                           (argparse.env_only args) (argparse.csv args)) ;;
       io_call NewEventLoop ;;
       io_call SetEventLoop ;;
       results <- lift (main_async fuel (negb headed) students) ;;
       print_results results ;;
       match _LOG_F with
       | Some f => io_call (FileClose f)
       | None => io_ret tt
       end)%io
      (fun o t =>
         match parsed_args t with
         | [] => launched (bot_events t) = [] /\ o <> Returned tt
         | args :: more =>
             more = [] /\
             (launched (bot_events t) = [] \/
              launched (bot_events t) = [wants_headless args]) /\
             (o = Returned tt ->
              exists results,
                printed t = map verdict results /\
                length results = contexts_opened (bot_events t))
         end)).
  { intros argv'. unfold _parse_args.
    apply io_sat_bind, io_sat_bind, io_sat_call.
    intros [args|e]; cbv beta iota delta [of_answer]; [|split; [reflexivity | discriminate]].
    apply io_sat_ret. cbn [app].
    eapply io_sat_conseq.
    { instantiate (1 := main_outcome args).
      apply main_outcome_bind_mute; [apply mute_init_log|]. intros _LOG_F.
      apply main_outcome_bind_mute; [apply mute_load_env|]. intros _.
      apply main_outcome_bind_mute; [apply mute_build_students|]. intros students.
      apply main_outcome_bind_mute;
        [apply io_sat_call; intros a; repeat split|]. intros _.
      apply main_outcome_bind_mute;
        [apply io_sat_call; intros a; repeat split|]. intros _.
      apply io_sat_bind, io_sat_lift.
      eapply sat_conseq; [apply main_async_launches_once|].
      intros o t [Hlaunch Hlen].
      destruct (collected_from_bot t) as (Hb & Ha & Hp).
      assert (Hflag : negb (if argparse.headed args then true
                            else negb (argparse.headless args)) =
                      wants_headless args).
      { unfold wants_headless.
        destruct (argparse.headed args), (argparse.headless args); reflexivity. }
      rewrite Hflag in Hlaunch.
      destruct o as [results|e|].
      2,3: (split; [exact Ha|]; split; [rewrite Hb; exact Hlaunch | discriminate]).
      specialize (Hlen results eq_refl).
      apply io_sat_bind. eapply io_sat_conseq; [apply print_results_spec|].
      intros o2 t2 (Ha2 & Hb2 & Hp2).
      assert (Hfail : forall (o3 : outcome unit) extra,
                parsed_args extra = [] -> bot_events extra = [] ->
                (o3 = Returned tt -> printed extra = map verdict results) ->
                main_outcome args o3 (map BotEv t ++ extra)).
      { intros o3 extra Hae Hbe Hpe. unfold main_outcome.
        rewrite parsed_args_app, bot_events_app, printed_app, Ha, Hb, Hp, Hae, Hbe,
          ?app_nil_r.
        cbn [app]. split; [reflexivity|]. split; [exact Hlaunch|].
        intros Ho3. exists results. split; [apply Hpe, Ho3 | exact Hlen]. }
      destruct o2 as [[]|e|].
      2,3: (apply Hfail; [exact Ha2 | exact Hb2 | discriminate]).
      destruct _LOG_F as [f|].
      - apply io_sat_call. intros a. apply Hfail.
        + rewrite parsed_args_app, Ha2. destruct a; reflexivity.
        + rewrite bot_events_app, Hb2. reflexivity.
        + intros _. rewrite printed_app, (Hp2 eq_refl). apply app_nil_r.
      - apply io_sat_ret. apply Hfail.
        + rewrite app_nil_r. exact Ha2.
        + rewrite app_nil_r. exact Hb2.
        + intros _. rewrite app_nil_r. exact (Hp2 eq_refl). }
    intros o t (Ha & Hlaunch & Hprinted).
    cbn [parsed_args bot_events printed]. rewrite Ha.
    split; [reflexivity|]. split; [exact Hlaunch | exact Hprinted]. }
  unfold main. apply io_sat_bind. destruct argv as [argv|].
  - apply io_sat_ret. apply Hrest.
  - apply io_sat_call. intros [argv|e]; cbv beta iota delta [of_answer].
    + eapply io_sat_conseq; [apply Hrest|]. intros o t Ht. exact Ht.
    + split; [reflexivity | discriminate].
Qed.

End Main.


(** X29.  [main] launches the browser at most once, and never before the
    options are parsed.  The browser is launched headless exactly when
    [--headless] was given and [--headed] was not: [--headed] wins over
    [--headless], and with neither option the browser shows its window. *)
Theorem headed_wins_over_headless {W : Type} `{World W} `{System W}
  (fuel : nat) (argv : option (list string)) :
  io_sat (W:=W) (main fuel argv)
    (fun _ t =>
       match parsed_args t with
       | [] => launched (bot_events t) = []
       | args :: _ =>
           launched (bot_events t) = [] \/
           launched (bot_events t) =
             [argparse.headless args && negb (argparse.headed args)]
       end).
Proof.
  eapply io_sat_conseq; [apply main_runs|].
  intros o t Ht. cbv beta in Ht. destruct (parsed_args t) as [|args more].
  - exact (proj1 Ht).
  - exact (proj1 (proj2 Ht)).
Qed.

(** X30.  When [main] returns, it has printed one verdict line for each
    result of the orchestrator and nothing else, each of the form [email:
    SUCCESS] or [email: FAILED], and there are as many of them as browsing
    contexts were asked for: one line per student that was worked for. *)
Theorem one_verdict_per_student {W : Type} `{World W} `{System W}
  (fuel : nat) (argv : option (list string)) :
  io_sat (W:=W) (main fuel argv)
    (fun o t =>
       o = Returned tt ->
       exists results,
         printed t = map verdict results /\
         length results = contexts_opened (bot_events t)).
Proof.
  eapply io_sat_conseq; [apply main_runs|].
  intros o t Ht Ho. cbv beta in Ht. destruct (parsed_args t) as [|args more].
  - destruct Ht as [_ Hne]. contradiction.
  - exact (proj2 (proj2 Ht) Ho).
Qed.

(** The whole program on the site where every step goes through, for the
    embedded student: the browser is launched once, headless, and the one
    line printed is the student's success. *)
Example main_books_for_the_default_student :
  let r := @main sim (sim_world happy_site) sim_system 5
             (Some ["--headless"; "--ignore-env"; "--env-only"]) sim0 in
  r.1.1 = Returned tt /\
  launched (bot_events r.2) = [true] /\
  printed r.2 = ["dummy@example.com: SUCCESS"].
Proof. vm_compute. repeat split. Qed.

